(** * GamingMouseWebSoftwares / translator: extraction, translation store,
      threshold dispatch and substitution engine

    Shallow embedding of
      - [src/translator/apply_translations.py]      (class TranslationApplicator)
      - [src/translator/translate_googletranslate.py] (class LocalMassTranslator)
      - [src/translator/translate_local.py]         (class LocalMassTranslator)

    Python [str] values are sequences of Unicode code points, so [len],
    [count], [replace], [startswith] ... work on code points, not on bytes.
    Python [dict]s keep insertion order, which [sorted] (a stable sort)
    observes; they are association lists here. *)

From Stdlib Require Import List NArith ZArith Lia Bool Arith PeanoNat.
From Stdlib Require Import Permutation Sorted.
From Stdlib Require Import Strings.String Strings.Ascii Strings.Byte.
Import ListNotations.

(* ================================================================== *)
(** * Python strings *)
(* ================================================================== *)

Module PyStr.

(** A Python [str]: the list of its code points. *)
Definition pystr : Type := list N.

(** Decoder for UTF-8 source literals, so that Python literals can be
    written as they appear in the source.  [pending] counts the
    continuation bytes still expected for the code point in [acc]. *)
Fixpoint utf8_go (bs : list N) (pending : nat) (acc : N) : pystr :=
  match bs with
  | [] => []
  | b :: bs' =>
      match pending with
      | S (S k) => utf8_go bs' (S k) (acc * 64 + N.land b 63)
      | S O => (acc * 64 + N.land b 63)%N :: utf8_go bs' 0 0%N
      | O =>
          if (b <? 128)%N then b :: utf8_go bs' 0 0%N
          else if (b <? 224)%N then utf8_go bs' 1 (N.land b 31)
          else if (b <? 240)%N then utf8_go bs' 2 (N.land b 15)
          else utf8_go bs' 3 (N.land b 7)
      end
  end.

Definition u (s : string) : pystr :=
  utf8_go (map Byte.to_N (list_byte_of_string s)) 0 0%N.

(** [a == b] on strings. *)
Fixpoint eqb (a b : pystr) : bool :=
  match a, b with
  | [], [] => true
  | x :: a', y :: b' => (x =? y)%N && eqb a' b'
  | _, _ => false
  end.

(** [len(s)] *)
Definition len (s : pystr) : nat := List.length s.

(** [s.startswith(p)] *)
Fixpoint startswith (s p : pystr) {struct p} : bool :=
  match p with
  | [] => true
  | y :: p' =>
      match s with
      | [] => false
      | x :: s' => (x =? y)%N && startswith s' p'
      end
  end.

(** [s.endswith(p)] *)
Definition endswith (s p : pystr) : bool :=
  startswith (rev s) (rev p).

(** The scan shared by [str.count] and [str.replace] for a non-empty
    pattern: left to right, non-overlapping; [skip] is the number of
    characters of the current occurrence still to be stepped over. *)
Fixpoint count_go (sub s : pystr) (skip : nat) : nat :=
  match s with
  | [] => 0
  | _ :: s' =>
      match skip with
      | S k => count_go sub s' k
      | O =>
          if startswith s sub
          then S (count_go sub s' (pred (len sub)))
          else count_go sub s' 0
      end
  end.

(** [s.count(sub)]; for the empty pattern Python answers [len(s) + 1]. *)
Definition count (s sub : pystr) : nat :=
  match sub with
  | [] => S (len s)
  | _ => count_go sub s 0
  end.

Fixpoint replace_go (old new s : pystr) (skip : nat) : pystr :=
  match s with
  | [] => []
  | c :: s' =>
      match skip with
      | S k => replace_go old new s' k
      | O =>
          if startswith s old
          then new ++ replace_go old new s' (pred (len old))
          else c :: replace_go old new s' 0
      end
  end.

(** [s.replace(old, new)]; for the empty pattern Python inserts [new]
    before every character and at the end. *)
Definition replace (s old new : pystr) : pystr :=
  match old with
  | [] => new ++ flat_map (fun c => c :: new) s
  | _ => replace_go old new s 0
  end.

(** [Py_UNICODE_ISSPACE]: the characters removed by [str.strip()] and
    matched by [\s] in a [str] pattern. *)
Definition is_space (c : N) : bool :=
  ((9 <=? c) && (c <=? 13) || (28 <=? c) && (c <=? 32)
   || (c =? 0x85) || (c =? 0xA0) || (c =? 0x1680)
   || (0x2000 <=? c) && (c <=? 0x200A)
   || (c =? 0x2028) || (c =? 0x2029) || (c =? 0x202F)
   || (c =? 0x205F) || (c =? 0x3000))%N.

Fixpoint lstrip (s : pystr) : pystr :=
  match s with
  | c :: s' => if is_space c then lstrip s' else s
  | [] => []
  end.

Definition rstrip (s : pystr) : pystr := rev (lstrip (rev s)).

(** [s.strip()] *)
Definition strip (s : pystr) : pystr := rstrip (lstrip s).

(** Membership in a list of strings ([x in l]). *)
Definition mem (x : pystr) (l : list pystr) : bool := existsb (eqb x) l.

End PyStr.
Import PyStr.

(* ================================================================== *)
(** * Python dicts and sets *)
(* ================================================================== *)

Module PyDict.

(** [Dict[str, str]], in insertion order. *)
Definition dict : Type := list (pystr * pystr).

(** [d.get(k)] *)
Fixpoint get (d : dict) (k : pystr) : option pystr :=
  match d with
  | [] => None
  | (k', v') :: d' => if eqb k' k then Some v' else get d' k
  end.

(** [d[k] = v]: an existing key keeps its position, a new one is appended. *)
Fixpoint set (d : dict) (k v : pystr) : dict :=
  match d with
  | [] => [(k, v)]
  | (k', v') :: d' =>
      if eqb k' k then (k', v) :: d' else (k', v') :: set d' k v
  end.

(** [d.update(other)] *)
Definition update (d other : dict) : dict :=
  fold_left (fun acc kv => set acc (fst kv) (snd kv)) other d.

(** [d.copy()] *)
Definition copy (d : dict) : dict := d.

(** [d.keys()] *)
Definition keys (d : dict) : list pystr := map fst d.

(** [{text: f(text) for text in l}] *)
Definition comprehension (f : pystr -> pystr) (l : list pystr) : dict :=
  fold_left (fun acc text => set acc text (f text)) l [].

(** [s.add(x)] on a set kept as a duplicate-free list. *)
Definition set_add (x : pystr) (s : list pystr) : list pystr :=
  if mem x s then s else s ++ [x].

(** [set(l)] *)
Definition to_set (l : list pystr) : list pystr :=
  fold_left (fun acc x => set_add x acc) l [].

(** [a - b] on sets. *)
Definition set_diff (a b : list pystr) : list pystr :=
  filter (fun x => negb (mem x b)) a.

End PyDict.
Import PyDict.

(* ================================================================== *)
(** * The fragment of [re] used by the scanner *)
(* ================================================================== *)

Module Re.

(** A pattern is a list of alternatives ([|]), each a sequence of
    atoms: one character of a class ([[...]]) or a greedy repetition of
    a class ([[...]*]).  [[...]+] is [One] followed by [Star]. *)
Inductive atom : Type :=
| One (cls : N -> bool)
| Star (cls : N -> bool).

Definition pattern : Type := list (list atom).

(** Backtracking match of a sequence at the start of [s]: the length of
    the match the engine finds first (greedy repetition tried longest
    first), or [None]. *)
Fixpoint match_seq (p : list atom) : pystr -> option nat :=
  match p with
  | [] => fun _ => Some 0
  | One cls :: p' =>
      fun s =>
        match s with
        | x :: s' => if cls x then option_map S (match_seq p' s') else None
        | [] => None
        end
  | Star cls :: p' =>
      fix star (s : pystr) : option nat :=
        match s with
        | x :: s' =>
            if cls x
            then match star s' with
                 | Some n => Some (S n)
                 | None => match_seq p' s
                 end
            else match_seq p' s
        | [] => match_seq p' []
        end
  end.

(** Alternatives are tried left to right. *)
Fixpoint match_here (p : pattern) (s : pystr) : option nat :=
  match p with
  | [] => None
  | alt :: p' =>
      match match_seq alt s with
      | Some n => Some n
      | None => match_here p' s
      end
  end.

(** [re.findall(p, s)] for a pattern without groups: the non-overlapping
    matches, left to right.  [skip] counts the characters of the last
    match still to be stepped over. *)
Fixpoint findall_go (p : pattern) (s : pystr) (skip : nat) : list pystr :=
  match s with
  | [] =>
      match skip, match_here p [] with
      | O, Some _ => [[]]
      | _, _ => []
      end
  | _ :: s' =>
      match skip with
      | S k => findall_go p s' k
      | O =>
          match match_here p s with
          | Some n => firstn n s :: findall_go p s' (pred n)
          | None => findall_go p s' 0
          end
      end
  end.

Definition findall (p : pattern) (s : pystr) : list pystr :=
  findall_go p s 0.

(** [re.search(r'[...]', s)] for a single class, as a truth value. *)
Definition search_class (cls : N -> bool) (s : pystr) : bool :=
  existsb cls s.

End Re.
Import Re.

(* ================================================================== *)
(** * Files, encodings, the persisted store *)
(* ================================================================== *)

Module Files.

Definition bytes : Type := list byte.
Definition path : Type := pystr.

(** The encodings both scripts try, in this order. *)
Inductive encoding : Type := UTF8 | GBK | GB2312 | UTF16.

Definition encodings : list encoding := [UTF8; GBK; GB2312; UTF16].

(** The platform services the scripts call.  [decode e b = None] stands
    for [UnicodeDecodeError] when reading, [encode e s = None] for
    [UnicodeEncodeError] when writing; [is_text_file] is the extension
    allowlist over [os.path] and [is_hidden] is [file.startswith('.')]
    on the base name. *)
Record platform : Type := {
  decode : encoding -> bytes -> option pystr;
  encode : encoding -> pystr -> option bytes;
  is_text_file : path -> bool;
  is_hidden : path -> bool
}.

(** The regular files of the tree being processed. *)
Definition filesystem : Type := list (path * bytes).

Fixpoint fs_get (fs : filesystem) (p : path) : option bytes :=
  match fs with
  | [] => None
  | (p', b) :: fs' => if eqb p' p then Some b else fs_get fs' p
  end.

Fixpoint fs_set (fs : filesystem) (p : path) (b : bytes) : filesystem :=
  match fs with
  | [] => [(p, b)]
  | (p', b') :: fs' =>
      if eqb p' p then (p', b) :: fs' else (p', b') :: fs_set fs' p b
  end.

(** The [for encoding in [...]: try: ... break / except UnicodeDecodeError:
    continue] loop: the first encoding that decodes, with the content. *)
Fixpoint read_with (pf : platform) (encs : list encoding) (b : bytes)
  : option (pystr * encoding) :=
  match encs with
  | [] => None
  | e :: encs' =>
      match decode pf e b with
      | Some content => Some (content, e)
      | None => read_with pf encs' b
      end
  end.

(** What is at the path of the translations file, as [json.load] sees
    it: no file, a file on which [json.load] raises, or a JSON object of
    strings. *)
Inductive store_file : Type :=
| Absent
| Corrupt (raw : bytes)
| Stored (d : dict).

End Files.
Import Files.

(* ================================================================== *)
(** * translate_googletranslate.py / translate_local.py: the scanner *)
(* ================================================================== *)

Module Scanner.

(** The class [\u4e00-\u9fff\u3400-\u4dbf\uf900-\ufaff]. *)
Definition chinese (c : N) : bool :=
  ((0x4e00 <=? c) && (c <=? 0x9fff)
   || (0x3400 <=? c) && (c <=? 0x4dbf)
   || (0xf900 <=? c) && (c <=? 0xfaff))%N.

Definition chinese_punctuation : pystr := u "，。、：；！？".

(** The class above extended with [\s] and the seven punctuation marks. *)
Definition inner (c : N) : bool :=
  chinese c || is_space c || existsb (N.eqb c) chinese_punctuation.

Definition pattern1 : pattern :=
  [ [One chinese; Star inner; One chinese]; [One chinese] ].

Definition pattern2 : pattern :=
  [ [One chinese; Star chinese] ].

(** [self.chinese_pattern] and [is_chinese_string]. *)
Definition is_chinese_string (text : pystr) : bool :=
  match findall pattern2 text with [] => false | _ => true end.

Definition nonempty (s : pystr) : bool :=
  match s with [] => false | _ => true end.

(** The body of [extract_chinese_strings_from_file] after the file has
    been read, in translate_googletranslate.py. *)
Definition extract_chinese_strings (content : pystr) : list pystr :=
  let matches1 := findall pattern1 content in
  let matches2 := findall pattern2 content in
  let all_matches := to_set (matches1 ++ matches2) in
  fold_left
    (fun chinese_strings match_ =>
       let cleaned := strip match_ in
       if nonempty cleaned && (1 <=? len cleaned)
          && search_class chinese cleaned
       then set_add cleaned chinese_strings
       else chinese_strings)
    all_matches [].

(** The same in translate_local.py (no [len(cleaned) >= 1] test). *)
Definition extract_chinese_strings_local (content : pystr) : list pystr :=
  let matches1 := findall pattern1 content in
  let matches2 := findall pattern2 content in
  let all_matches := to_set (matches1 ++ matches2) in
  fold_left
    (fun chinese_strings match_ =>
       let cleaned := strip match_ in
       if nonempty cleaned && search_class chinese cleaned
       then set_add cleaned chinese_strings
       else chinese_strings)
    all_matches [].

(** [extract_chinese_strings_from_file]: a missing file or one that no
    encoding decodes gives the empty set. *)
Definition extract_chinese_strings_from_file
    (pf : platform) (fs : filesystem) (file_path : path) : list pystr :=
  match fs_get fs file_path with
  | None => []
  | Some b =>
      match read_with pf encodings b with
      | None => []
      | Some (content, _) => extract_chinese_strings content
      end
  end.

End Scanner.
Import Scanner.

(* ================================================================== *)
(** * apply_translations.py: TranslationApplicator *)
(* ================================================================== *)

Module Applicator.

(** [v.startswith('[') and v.endswith(']')] *)
Definition is_placeholder (v : pystr) : bool :=
  startswith v (u "[") && endswith v (u "]").

Definition quote : pystr := [34%N].
Definition apostrophe : pystr := [39%N].
Definition backslash : N := 92%N.

(** [english_translation.replace('"', '\\"').replace("'", "\\'")] *)
Definition escape (english_translation : pystr) : pystr :=
  replace (replace english_translation quote (backslash :: quote))
          apostrophe (backslash :: apostrophe).

(** [sorted(items, key=lambda x: len(x[0]), reverse=True)]: stable, so
    items of equal key length keep the order of the dict. *)
Fixpoint insert_by_len (x : pystr * pystr) (l : list (pystr * pystr))
  : list (pystr * pystr) :=
  match l with
  | [] => [x]
  | y :: l' =>
      if len (fst x) <? len (fst y) then y :: insert_by_len x l'
      else x :: l
  end.

Definition sorted_translations (translations : dict)
  : list (pystr * pystr) :=
  fold_right insert_by_len [] translations.

(** One [content.replace] performed by the loop (the line the source
    keeps as a commented-out [print]), with the content it acted on. *)
Record replacement : Type := {
  chinese_text : pystr;
  escaped_translation : pystr;
  occurrences : nat;
  content_before : pystr
}.

(** The variables of the loop in [apply_translations_to_file]. *)
Record loop_state : Type := {
  content : pystr;
  file_replacements : nat;
  performed : list replacement
}.

Definition loop_body (st : loop_state) (item : pystr * pystr) : loop_state :=
  let (chinese_text, english_translation) := item in
  if is_placeholder english_translation then st
  else
    let occurrences := count (content st) chinese_text in
    if 0 <? occurrences then
      let escaped_translation := escape english_translation in
      {| content := replace (content st) chinese_text escaped_translation;
         file_replacements := file_replacements st + occurrences;
         performed := performed st ++
           [ {| chinese_text := chinese_text;
                escaped_translation := escaped_translation;
                occurrences := occurrences;
                content_before := content st |} ] |}
    else st.

(** Lines 99-121: the substitution pass over the decoded content. *)
Definition substitute (translations : dict) (original_content : pystr)
  : loop_state :=
  fold_left loop_body (sorted_translations translations)
    {| content := original_content; file_replacements := 0; performed := [] |}.

(** The fields of a [TranslationApplicator] that the run changes. *)
Record applicator : Type := {
  translations : dict;
  backup_made : bool;
  files_modified : nat;
  replacements_made : nat
}.

(** Whether a call of [apply_translations_to_file] reached
    [open(file_path, 'w', encoding=e)] and [f.write(text)]. *)
Inductive file_effect : Type :=
| NotWritten
| WriteWith (e : encoding) (text : pystr).

Record file_result : Type := {
  returned : bool;
  app_after : applicator;
  fs_after : filesystem;
  effect : file_effect
}.

(** [apply_translations_to_file].  A missing file makes [open] raise,
    which the outer [except] turns into [False].  [open(..., 'w')]
    truncates before [f.write] encodes, so an encoding error leaves the
    file empty and returns [False]. *)
Definition apply_translations_to_file
    (pf : platform) (app : applicator) (fs : filesystem) (file_path : path)
  : file_result :=
  let unchanged :=
    {| returned := false; app_after := app; fs_after := fs;
       effect := NotWritten |} in
  match fs_get fs file_path with
  | None => unchanged
  | Some b =>
      match read_with pf encodings b with
      | None => unchanged
      | Some (original_content, encoding_used) =>
          let st := substitute (translations app) original_content in
          if eqb (content st) original_content then unchanged
          else
            match encode pf encoding_used (content st) with
            | Some b' =>
                {| returned := true;
                   app_after :=
                     {| translations := translations app;
                        backup_made := backup_made app;
                        files_modified := files_modified app;
                        replacements_made :=
                          replacements_made app + file_replacements st |};
                   fs_after := fs_set fs file_path b';
                   effect := WriteWith encoding_used (content st) |}
            | None =>
                {| returned := false; app_after := app;
                   fs_after := fs_set fs file_path [];
                   effect := WriteWith encoding_used (content st) |}
            end
      end
  end.

(** The [for file in files] part of [apply_translations_to_directory];
    [files] are the files [os.walk] reaches after the directory pruning,
    in walk order. *)
Fixpoint process_files (pf : platform) (app : applicator) (fs : filesystem)
    (files : list path) : applicator * filesystem :=
  match files with
  | [] => (app, fs)
  | file_path :: files' =>
      if is_hidden pf file_path || negb (is_text_file pf file_path)
      then process_files pf app fs files'
      else
        let r := apply_translations_to_file pf app fs file_path in
        let app' :=
          if returned r
          then {| translations := translations (app_after r);
                  backup_made := backup_made (app_after r);
                  files_modified := S (files_modified (app_after r));
                  replacements_made := replacements_made (app_after r) |}
          else app_after r in
        process_files pf app' (fs_after r) files'
  end.

(** [os.path.exists], [shutil.copy2] and [shutil.copytree] (with the
    ignore patterns of [create_backup]).  The two copies give the file
    system the call leaves, whether it returns or raises: the scripts
    catch the exception and only print a warning. *)
Record shutil : Type := {
  path_exists : filesystem -> path -> bool;
  copy2 : filesystem -> path -> path -> filesystem;
  copytree : filesystem -> path -> path -> filesystem
}.

(** [directory.rstrip('/\\')] *)
Fixpoint lstrip_separators (s : pystr) : pystr :=
  match s with
  | c :: s' => if ((c =? 47) || (c =? 92))%N then lstrip_separators s' else s
  | [] => []
  end.

Definition rstrip_separators (directory : path) : path :=
  rev (lstrip_separators (rev directory)).

(** [create_backup] *)
Definition create_backup (sh : shutil) (app : applicator) (fs : filesystem)
    (directory : path) : applicator * filesystem :=
  if backup_made app then (app, fs)
  else
    let directory_clean := rstrip_separators directory in
    let backup_dir := directory_clean ++ u "__backup" in
    let made :=
      {| translations := translations app;
         backup_made := true;
         files_modified := files_modified app;
         replacements_made := replacements_made app |} in
    if path_exists sh fs backup_dir then (made, fs)
    else (made, copytree sh fs directory backup_dir).

(** [apply_translations_to_directory]; [files] are the files [os.walk]
    reaches in [directory] after the pruning (which also leaves out
    every directory whose name ends in [__backup]). *)
Definition apply_translations_to_directory
    (pf : platform) (sh : shutil) (app : applicator) (fs : filesystem)
    (directory : path) (files : list path) (create_backup_flag : bool)
  : applicator * filesystem :=
  match translations app with
  | [] => (app, fs)
  | _ =>
      let (app1, fs1) :=
        if create_backup_flag then create_backup sh app fs directory
        else (app, fs) in
      process_files pf app1 fs1 files
  end.

(** [load_translations]: [Some] the mapping when it returns [True]. *)
Definition load_translations (sf : store_file) : option dict :=
  match sf with
  | Stored d => Some d
  | Absent => None
  | Corrupt _ => None
  end.

(** The dict comprehension of [run]. *)
Definition valid_translations (translations : dict) : dict :=
  filter (fun kv => negb (is_placeholder (snd kv))) translations.

(** What [target] names. *)
Inductive target : Type :=
| TargetFile (target_path : path)
| TargetDirectory (directory : path) (files : list path)
| TargetMissing.

(** [run] on a fresh applicator; [create_backup_flag] is its
    [create_backup] argument ([True] unless [--no-backup] is given). *)
Definition run (pf : platform) (sh : shutil) (sf : store_file)
    (fs : filesystem) (tg : target) (create_backup_flag : bool)
  : applicator * filesystem :=
  let app0 :=
    {| translations := []; backup_made := false; files_modified := 0;
       replacements_made := 0 |} in
  match load_translations sf with
  | None => (app0, fs)
  | Some loaded =>
      let loaded_app :=
        {| translations := loaded; backup_made := false;
           files_modified := 0; replacements_made := 0 |} in
      match valid_translations loaded with
      | [] => (loaded_app, fs)
      | valid =>
          let app :=
            {| translations := valid; backup_made := false;
               files_modified := 0; replacements_made := 0 |} in
          match tg with
          | TargetFile target_path =>
              if negb (is_text_file pf target_path) then (app, fs)
              else
                let fs1 :=
                  if create_backup_flag
                  then
                    let backup_path := target_path ++ u ".backup" in
                    copy2 sh fs target_path backup_path
                  else fs in
                let r := apply_translations_to_file pf app fs1 target_path in
                if returned r
                then ({| translations := translations (app_after r);
                         backup_made := backup_made (app_after r);
                         files_modified := 1;
                         replacements_made :=
                           replacements_made (app_after r) |},
                      fs_after r)
                else (app_after r, fs_after r)
          | TargetDirectory directory files =>
              apply_translations_to_directory pf sh app fs directory files
                create_backup_flag
          | TargetMissing => (app, fs)
          end
      end
  end.

End Applicator.
Import Applicator.

(* ================================================================== *)
(** * translate_googletranslate.py: LocalMassTranslator *)
(* ================================================================== *)

Module Translator.

(** What [requests.post] of one batch comes back with: status 200 and
    the [translatedText] of each entry of [data.translations]; another
    status; or an exception (raised by the call or by reading a body of
    another shape). *)
Inductive response : Type :=
| Status200 (translations : list pystr)
| StatusOther
| Raises.

(** The two translation services.  [argos s = None] stands for an
    exception of [argostranslate.translate.translate]. *)
Record backends : Type := {
  argos : pystr -> option pystr;
  google_post : list pystr -> response
}.

(** The module flags and the fields of a [LocalMassTranslator] after
    [setup_translators]. *)
Record translator : Type := {
  GOOGLE_TRANSLATE_AVAILABLE : bool;
  ARGOS_AVAILABLE : bool;
  threshold : Z;
  google_translate_ready : bool;
  argos_translator_ready : bool
}.

(** The calls of the two capability methods made by [translate_all]. *)
Inductive call : Type :=
| CallGoogleBatch (chinese_strings : list pystr)
| CallArgos (chinese_text : pystr).

Definition bracketed (reason text : pystr) : pystr :=
  u "[" ++ reason ++ u ": " ++ text ++ u "]".

(** [translate_with_argos] *)
Definition translate_with_argos (B : backends) (t : translator)
    (chinese_text : pystr) : pystr :=
  if negb (argos_translator_ready t)
  then bracketed (u "ARGOS_NOT_READY") chinese_text
  else
    match argos B chinese_text with
    | Some translation => strip translation
    | None => bracketed (u "ARGOS_ERROR") chinese_text
    end.

Definition batch_size : nat := 128.

(** [range(0, stop, step)] for a positive step. *)
Definition range0 (stop step : nat) : list nat :=
  map (fun j => j * step) (seq 0 ((stop + step - 1) / step)).

(** [l[i:i + n]] *)
Definition slice (l : list pystr) (i n : nat) : list pystr :=
  firstn n (skipn i l).

(** [for original, translation in zip(batch, translations): ...] *)
Fixpoint record_translations (translation_dict : dict)
    (batch translations : list pystr) : dict :=
  match batch, translations with
  | original :: batch', translation :: translations' =>
      let translated_text := strip translation in
      record_translations
        (set translation_dict original
           (if nonempty translated_text then translated_text
            else bracketed (u "GOOGLE_API_ERROR") original))
        batch' translations'
  | _, _ => translation_dict
  end.

(** One turn of the batch loop; [None] when an exception leaves the
    [try] block. *)
Definition post_batch (B : backends) (translation_dict : dict)
    (batch : list pystr) : option dict :=
  match google_post B batch with
  | Status200 translations =>
      Some (record_translations translation_dict batch translations)
  | StatusOther =>
      Some (fold_left
              (fun d original =>
                 set d original (bracketed (u "GOOGLE_API_ERROR") original))
              batch translation_dict)
  | Raises => None
  end.

Fixpoint batch_loop (B : backends) (chinese_strings : list pystr)
    (starts : list nat) (translation_dict : dict) : option dict :=
  match starts with
  | [] => Some translation_dict
  | i :: starts' =>
      match post_batch B translation_dict
              (slice chinese_strings i batch_size) with
      | Some d => batch_loop B chinese_strings starts' d
      | None => None
      end
  end.

(** [translate_batch_with_google_api]; its two loops (with and without
    a progress bar) are the same up to printing. *)
Definition translate_batch_with_google_api (B : backends) (t : translator)
    (chinese_strings : list pystr) : dict :=
  if negb (google_translate_ready t)
  then comprehension (bracketed (u "GOOGLE_API_NOT_READY")) chinese_strings
  else
    match batch_loop B chinese_strings
            (range0 (List.length chinese_strings) batch_size) [] with
    | Some translation_dict => translation_dict
    | None =>
        comprehension (bracketed (u "GOOGLE_API_ERROR")) chinese_strings
    end.

(** [for chinese_text in strings: all_translations[chinese_text] =
    self.translate_with_argos(chinese_text)], with the calls made. *)
Definition argos_each (B : backends) (t : translator)
    (strings : list pystr) (start : dict * list call) : dict * list call :=
  fold_left
    (fun acc chinese_text =>
       (set (fst acc) chinese_text (translate_with_argos B t chinese_text),
        snd acc ++ [CallArgos chinese_text]))
    strings start.

(** The two list comprehensions of the hybrid branch. *)
Definition long_strings (t : translator) (strings_list : list pystr)
  : list pystr :=
  filter (fun s => (threshold t <=? Z.of_nat (len s))%Z) strings_list.

Definition short_strings (t : translator) (strings_list : list pystr)
  : list pystr :=
  filter (fun s => (3 <=? len s) && (Z.of_nat (len s) <? threshold t)%Z)
    strings_list.

(** [translate_all] on [strings_list = list(chinese_strings)]: the
    mapping returned, and the capability calls in order. *)
Definition translate_all (B : backends) (t : translator)
    (strings_list : list pystr) : dict * list call :=
  if (threshold t =? -1)%Z then
    argos_each B t strings_list ([], [])
  else if (threshold t =? 0)%Z && google_translate_ready t then
    (translate_batch_with_google_api B t strings_list,
     [CallGoogleBatch strings_list])
  else if google_translate_ready t && (0 <? threshold t)%Z then
    let long_strings := long_strings t strings_list in
    let short_strings := short_strings t strings_list in
    let after_google :=
      match long_strings with
      | [] => ([], [])
      | _ =>
          (update [] (translate_batch_with_google_api B t long_strings),
           [CallGoogleBatch long_strings])
      end in
    match short_strings with
    | [] => after_google
    | _ => argos_each B t short_strings after_google
    end
  else
    argos_each B t strings_list ([], []).

(** [load_existing_translations]: any exception is caught and answered
    with [{}]. *)
Definition load_existing_translations (sf : store_file) : dict :=
  match sf with
  | Stored existing_translations => existing_translations
  | Absent => []
  | Corrupt _ => []
  end.

(** What [open(output_file, 'w', encoding='utf-8')] followed by
    [json.dump(translations, f, ensure_ascii=False, indent=2)] does:
    it completes; or [open] raises and the file stays as it was; or the
    file has been truncated and [json.dump] raises before the closing
    brace is written (a string that UTF-8 cannot encode, a full disk),
    leaving [left_behind]. *)
Inductive write_outcome : Type :=
| Completes
| OpenRaises
| DumpRaises (left_behind : bytes).

(** The platform's answer for each mapping. *)
Definition json_writer : Type := dict -> write_outcome.

(** [save_translations]: every exception is caught and only printed.
    [sf] is what was at [output_file] before. *)
Definition save_translations (w : json_writer) (translations : dict)
    (sf : store_file) : store_file :=
  match w translations with
  | Completes => Stored translations
  | OpenRaises => sf
  | DumpRaises left_behind => Corrupt left_behind
  end.

(** Step 3 of [run]. *)
Definition new_strings_to_translate (existing_translations : dict)
    (chinese_strings : list pystr) : list pystr :=
  let already_translated := to_set (keys existing_translations) in
  set_diff chinese_strings already_translated.

(** Step 5 of [run]. *)
Definition merge (existing_translations new_translations : dict) : dict :=
  let all_translations := copy existing_translations in
  update all_translations new_translations.

(** [run], from the store file found at [output_file] and the set
    [scan_directory] returns, to the store file left behind and the
    capability calls made. *)
Definition run (B : backends) (t : translator) (w : json_writer)
    (sf : store_file) (chinese_strings : list pystr)
  : store_file * list call :=
  if negb (GOOGLE_TRANSLATE_AVAILABLE t) && negb (ARGOS_AVAILABLE t)
  then (sf, [])
  else if negb (google_translate_ready t) && negb (argos_translator_ready t)
  then (sf, [])
  else
    let existing_translations := load_existing_translations sf in
    match chinese_strings with
    | [] => (sf, [])
    | _ =>
        match new_strings_to_translate existing_translations
                chinese_strings with
        | [] => (sf, [])
        | new_strings =>
            let (new_translations, calls) := translate_all B t new_strings in
            (save_translations w
               (merge existing_translations new_translations) sf,
             calls)
        end
    end.

End Translator.

(* ================================================================== *)
(** * translate_local.py: LocalMassTranslator *)
(* ================================================================== *)

Module TranslatorLocal.

(** [translate_text] *)
Definition translate_text (argos : pystr -> option pystr)
    (translator_ready : bool) (chinese_text : pystr) : pystr :=
  if negb translator_ready
  then Translator.bracketed (u "TRANSLATOR_NOT_READY") chinese_text
  else
    match argos chinese_text with
    | Some translation => strip translation
    | None => Translator.bracketed (u "TRANSLATION_ERROR") chinese_text
    end.

(** [translate_all] *)
Definition translate_all (argos : pystr -> option pystr)
    (translator_ready : bool) (strings_list : list pystr) : dict :=
  fold_left
    (fun all_translations chinese_text =>
       set all_translations chinese_text
         (translate_text argos translator_ready chinese_text))
    strings_list [].

End TranslatorLocal.

(* ================================================================== *)
(** * Vocabulary of the properties, and sample inputs *)
(* ================================================================== *)

(** [len(set(keys)) == len(keys)]: no key bound twice, as in every dict. *)
Fixpoint unique_keys (d : dict) : bool :=
  match d with
  | [] => true
  | (k, _) :: d' => negb (mem k (keys d')) && unique_keys d'
  end.

(** The order [sorted] leaves the items in: no key is longer than one
    that comes before it. *)
Definition longer_first (a b : pystr * pystr) : Prop :=
  len (fst b) <= len (fst a).

(** Every replacement the loop performs comes from an entry of the list
    it runs over whose value is not a placeholder. *)
Definition from_valid_entry (l : list (pystr * pystr)) (r : replacement)
  : Prop :=
  exists v, In (chinese_text r, v) l /\ is_placeholder v = false
            /\ escaped_translation r = escape v.

(** A status-200 response that has a translation for every string of
    the batch (the "parallel list" of the remote contract). *)
Definition response_covers (B : Translator.backends) (batch : list pystr)
  : bool :=
  match Translator.google_post B batch with
  | Translator.Status200 translations =>
      List.length batch <=? List.length translations
  | _ => true
  end.

(** The same for every batch the loop cuts out of [chinese_strings]. *)
Definition responses_parallel (B : Translator.backends)
    (chinese_strings : list pystr) : bool :=
  forallb
    (fun i => response_covers B
                (Translator.slice chinese_strings i Translator.batch_size))
    (Translator.range0 (List.length chinese_strings) Translator.batch_size).

(** Whether [s] was handed to the batch remote method, resp. to the
    local method, among the calls made. *)
Definition sent_to_google (calls : list Translator.call) (s : pystr) : bool :=
  existsb (fun c => match c with
                    | Translator.CallGoogleBatch l => mem s l
                    | Translator.CallArgos _ => false
                    end) calls.

Definition sent_to_argos (calls : list Translator.call) (s : pystr) : bool :=
  existsb (fun c => match c with
                    | Translator.CallArgos x => eqb x s
                    | Translator.CallGoogleBatch _ => false
                    end) calls.

(** Sample inputs for the evaluated instances below. *)
Definition example_backends : Translator.backends :=
  {| Translator.argos := fun _ => Some (u "hello");
     Translator.google_post :=
       fun batch => Translator.Status200 (map (fun _ => u "ok") batch) |}.

(** A translator with both capabilities ready and threshold [T]. *)
Definition hybrid (T : Z) : Translator.translator :=
  {| Translator.GOOGLE_TRANSLATE_AVAILABLE := true;
     Translator.ARGOS_AVAILABLE := true;
     Translator.threshold := T;
     Translator.google_translate_ready := true;
     Translator.argos_translator_ready := true |}.

(** Equality of encodings. *)
Definition encoding_eqb (a b : encoding) : bool :=
  match a, b with
  | UTF8, UTF8 | GBK, GBK | GB2312, GB2312 | UTF16, UTF16 => true
  | _, _ => false
  end.

(** The encodings tried before [e]. *)
Fixpoint tried_before (e : encoding) (encs : list encoding) : list encoding :=
  match encs with
  | [] => []
  | x :: encs' => if encoding_eqb x e then [] else x :: tried_before e encs'
  end.

(** UTF-8 bytes of one code point, and of a string. *)
Definition utf8_encode_char (c : N) : list N :=
  (if c <? 0x80 then [c]
   else if c <? 0x800 then [0xC0 + c / 64; 0x80 + c mod 64]
   else if c <? 0x10000
        then [0xE0 + c / 4096; 0x80 + (c / 64) mod 64; 0x80 + c mod 64]
   else [0xF0 + c / 262144; 0x80 + (c / 4096) mod 64;
         0x80 + (c / 64) mod 64; 0x80 + c mod 64])%N.

Definition utf8_encode (s : pystr) : bytes :=
  map (fun n => match Byte.of_N n with Some b => b | None => x00 end)
      (flat_map utf8_encode_char s).

(** Strict decoding: the bytes decode when encoding the result gives
    them back. *)
Definition utf8_decode (b : bytes) : option pystr :=
  let s := utf8_go (map Byte.to_N b) 0 0%N in
  if eqb (map Byte.to_N (utf8_encode s)) (map Byte.to_N b)
  then Some s else None.

(** A sample platform for the evaluated instances: it knows UTF-8 only
    and treats every path as a visible text file. *)
Definition example_platform : platform :=
  {| decode := fun e b => match e with UTF8 => utf8_decode b | _ => None end;
     encode := fun e s => match e with UTF8 => Some (utf8_encode s)
                                  | _ => None end;
     is_text_file := fun _ => true;
     is_hidden := fun _ => false |}.

Definition example_applicator : applicator :=
  {| translations := [(u "你好世界", u "Hello World")];
     backup_made := false; files_modified := 0; replacements_made := 0 |}.

Definition example_fs : filesystem :=
  [(u "a.js", list_byte_of_string "var x = '你好世界';")].

(** The strings a sequence of atoms matches. *)
Inductive matches : list atom -> pystr -> Prop :=
| matches_nil : matches [] []
| matches_one cls p x s :
    cls x = true -> matches p s -> matches (One cls :: p) (x :: s)
| matches_star_stop cls p s :
    matches p s -> matches (Star cls :: p) s
| matches_star_step cls p x s :
    cls x = true -> matches (Star cls :: p) s ->
    matches (Star cls :: p) (x :: s).

(** Latin letters: Basic Latin, Latin-1 Supplement, Latin Extended-A
    and -B, Latin Extended Additional, and the fullwidth forms. *)
Definition is_latin_letter (c : N) : bool :=
  ((65 <=? c) && (c <=? 90) || (97 <=? c) && (c <=? 122)
   || (0xC0 <=? c) && (c <=? 0x24F) && negb (c =? 0xD7) && negb (c =? 0xF7)
   || (0x1E00 <=? c) && (c <=? 0x1EFF)
   || (0xFF21 <=? c) && (c <=? 0xFF3A)
   || (0xFF41 <=? c) && (c <=? 0xFF5A))%N.

(** What every match of the two patterns looks like: characters of the
    inner class only, with a Chinese character at both ends. *)
Definition chinese_run (m : pystr) : Prop :=
  m <> []
  /\ Forall (fun c => inner c = true) m
  /\ chinese (hd 0%N m) = true
  /\ chinese (last m 0%N) = true.

(** Turns a boolean combination of comparisons on [N] in [H] into the
    proposition it decides. *)
Ltac bool_to_prop H :=
  repeat first
    [ rewrite orb_true_iff in H | rewrite andb_true_iff in H
    | rewrite N.leb_le in H | rewrite N.eqb_eq in H
    | rewrite negb_true_iff in H | rewrite N.eqb_neq in H ].

(** [sub in s] *)
Definition occurs (sub s : pystr) : Prop :=
  exists l r, s = l ++ sub ++ r.

(** The suffixes of [s], longest first. *)
Fixpoint tails (s : pystr) : list pystr :=
  match s with
  | [] => [[]]
  | _ :: s' => s :: tails s'
  end.

(** Some non-empty end of [a] begins [b] or is begun by [b]. *)
Definition meets (a b : pystr) : bool :=
  existsb (fun t => nonempty t && (startswith b t || startswith t b))
    (tails a).

(** An occurrence of [k] and an inserted copy of [v] can share a
    position: one occurs in the other, or a non-empty end of one is a
    beginning of the other. *)
Definition can_overlap (v k : pystr) : bool := meets v k || meets k v.

(** The same, unfolded. *)
Definition apart (v k : pystr) : Prop :=
  (forall t, In t (tails v) -> t <> [] ->
             startswith k t = false /\ startswith t k = false)
  /\ (forall t, In t (tails k) -> t <> [] ->
               startswith v t = false /\ startswith t v = false).

(** No translation can rebuild a key that has had its turn: every
    applicable key is non-empty, and every applicable translation, once
    its quotes are escaped, is non-empty and cannot overlap an
    occurrence of any applicable key that is at least as long as the
    key it translates.  Shared characters are allowed, and so is a
    translation that holds a shorter key: the keys ["系统 设置"] and
    ["设置"] with the translations ["system 设置"] and ["settings"]
    pass. *)
Definition no_rebuild (d : dict) : bool :=
  forallb
    (fun kv =>
       nonempty (fst kv) && nonempty (escape (snd kv))
       && forallb (fun kv' =>
                     (len (fst kv') <? len (fst kv))
                     || negb (can_overlap (escape (snd kv)) (fst kv')))
            (valid_translations d))
    (valid_translations d).

(** The file at [file_path] reads, by the first encoding that decodes
    it, as [text]. *)
Definition reads_back (pf : platform) (fs : filesystem) (file_path : path)
    (text : pystr) : bool :=
  match fs_get fs file_path with
  | Some b =>
      match read_with pf encodings b with
      | Some (content, _) => eqb content text
      | None => false
      end
  | None => false
  end.

(** A store with a key of several words and a translation that holds a
    shorter key, a content and a file for the evaluated instances. *)
Definition settings_store : dict :=
  [(u "设置", u "settings"); (u "系统 设置", u "system 设置")].

Definition settings_content : pystr := u "系统 设置，设置".

Definition settings_fs : filesystem :=
  [(u "a.js", list_byte_of_string "系统 设置，设置")].

(** The part of the GBK table a sample file needs: ASCII and the
    double-byte codes of 中, 浣, 犲 and ソ. *)
Definition gbk_pair (lead trail : N) : option N :=
  (if (lead =? 0xD6) && (trail =? 0xD0) then Some 0x4E2D
   else if (lead =? 0xE4) && (trail =? 0xBD) then Some 0x6D63
   else if (lead =? 0xA0) && (trail =? 0xE5) then Some 0x72B2
   else if (lead =? 0xA5) && (trail =? 0xBD) then Some 0x30BD
   else None)%N.

Fixpoint gbk_decode_go (bs : list N) (lead : option N) : option pystr :=
  match bs with
  | [] => match lead with None => Some [] | Some _ => None end
  | b :: bs' =>
      match lead with
      | Some l =>
          match gbk_pair l b with
          | Some c => option_map (cons c) (gbk_decode_go bs' None)
          | None => None
          end
      | None =>
          if (b <? 0x80)%N
          then option_map (cons b) (gbk_decode_go bs' None)
          else gbk_decode_go bs' (Some b)
      end
  end.

Definition gbk_decode (b : bytes) : option pystr :=
  gbk_decode_go (map Byte.to_N b) None.

Definition gbk_encode_char (c : N) : option (list N) :=
  (if c <? 0x80 then Some [c]
   else if c =? 0x4E2D then Some [0xD6; 0xD0]
   else if c =? 0x6D63 then Some [0xE4; 0xBD]
   else if c =? 0x72B2 then Some [0xA0; 0xE5]
   else if c =? 0x30BD then Some [0xA5; 0xBD]
   else None)%N.

Fixpoint gbk_encode_go (s : pystr) : option (list N) :=
  match s with
  | [] => Some []
  | c :: s' =>
      match gbk_encode_char c, gbk_encode_go s' with
      | Some x, Some y => Some (x ++ y)
      | _, _ => None
      end
  end.

Definition gbk_encode (s : pystr) : option bytes :=
  option_map
    (map (fun n => match Byte.of_N n with Some b => b | None => x00 end))
    (gbk_encode_go s).

(** A sample platform with two codecs: strict UTF-8 and that part of
    GBK. *)
Definition two_codec_platform : platform :=
  {| decode := fun e b => match e with
                          | UTF8 => utf8_decode b
                          | GBK => gbk_decode b
                          | _ => None
                          end;
     encode := fun e s => match e with
                          | UTF8 => Some (utf8_encode s)
                          | GBK => gbk_encode s
                          | _ => None
                          end;
     is_text_file := fun _ => true;
     is_hidden := fun _ => false |}.

(** A file that only GBK decodes (as ["中浣犲ソ"]), and a store whose
    two keys and translations have nothing in common. *)
Definition gbk_fs : filesystem :=
  [(u "a.js", [xd6; xd0; xe4; xbd; xa0; xe5; xa5; xbd])].

Definition gbk_applicator : applicator :=
  {| translations := [(u "中", u "middle"); (u "你好", u "hello")];
     backup_made := false; files_modified := 0; replacements_made := 0 |}.

(** No applicable key of [done] occurs in [c]. *)
Definition gone (done : list (pystr * pystr)) (c : pystr) : Prop :=
  forall k v, In (k, v) done -> is_placeholder v = false -> ~ occurs k c.

(** When [r] was performed, no longer applicable key occurred in the
    content. *)
Definition longer_gone (d : dict) (r : replacement) : Prop :=
  forall k v, In (k, v) d -> is_placeholder v = false ->
              len (chinese_text r) < len k ->
              ~ occurs k (content_before r).

(** The order of the replacements performed: longest key first. *)
Definition key_not_longer (r1 r2 : replacement) : Prop :=
  len (chinese_text r2) <= len (chinese_text r1).

(* ================================================================== *)
(** * The rest of the scripts *)
(* ================================================================== *)

Module TextFiles.

(** [os.path.basename], the second component of [os.path.splitext],
    and [str.lower], as the platform provides them. *)
Record os_path : Type := {
  basename : path -> pystr;
  splitext_ext : path -> pystr;
  lower : pystr -> pystr
}.

(** [text_extensions] of [is_text_file] in translate_googletranslate.py
    and translate_local.py. *)
Definition scanner_text_extensions : list pystr :=
  [u ".py"; u ".js"; u ".html"; u ".htm"; u ".css"; u ".xml"; u ".txt";
   u ".md"; u ".php"; u ".java"; u ".cpp"; u ".c"; u ".h"; u ".ts";
   u ".tsx"; u ".jsx"; u ".vue"; u ".go"; u ".rs"; u ".rb"; u ".pl";
   u ".sh"; u ".bat"; u ".yml"; u ".yaml"; u ".ini"; u ".cfg"; u ".conf";
   u ".log"; u ".sql"; u ".csv"; u ".tsv"].



(** [LocalMassTranslator.is_text_file] *)
Definition scanner_is_text_file (os : os_path) (file_path : path) : bool :=
  let ext := splitext_ext os file_path in
  mem (lower os ext) scanner_text_extensions.


(** [scan_directory]; [files] are the files [os.walk] reaches after the
    directory pruning, in walk order. *)
Definition scan_directory (os : os_path) (pf : platform) (fs : filesystem)
    (files : list path) : list pystr :=
  fold_left
    (fun all_chinese_strings file_path =>
       if scanner_is_text_file os file_path
       then fold_left (fun acc x => set_add x acc)
              (extract_chinese_strings_from_file pf fs file_path)
              all_chinese_strings
       else all_chinese_strings)
    files [].

End TextFiles.

(** translate_local.py: [run], from the set [scan_directory] returns to
    the store file left at [translations.json]. *)
Definition local_run (argos : pystr -> option pystr)
    (w : Translator.json_writer)
    (ARGOS_AVAILABLE translator_ready : bool) (sf : store_file)
    (chinese_strings : list pystr) : store_file :=
  if negb ARGOS_AVAILABLE then sf
  else if negb translator_ready then sf
  else
    match chinese_strings with
    | [] => sf
    | _ =>
        let unique_chinese_strings := to_set chinese_strings in
        Translator.save_translations w
          (TranslatorLocal.translate_all argos translator_ready
             unique_chinese_strings) sf
    end.

(* ================================================================== *)
(** * v3-hub.atkgear.com/check.py *)
(* ================================================================== *)

Module Check.

(** [chinese_pattern]: one character of the class. *)
Definition chinese_pattern : pattern := [ [One chinese] ].

(** What [count_chinese_characters] prints. *)
Record report : Type := {
  encoding_used : encoding;
  total_chinese_chars : nat;
  unique_chinese_chars : nat;
  total_chinese_strings : nat;
  unique_chinese_strings : nat;
  has_chinese_characters : bool
}.

(** [count_chinese_characters]; [None] when the file cannot be opened or
    no encoding decodes it (an error line is printed instead). *)
Definition count_chinese_characters (pf : platform) (fs : filesystem)
    (file_path : path) : option report :=
  match fs_get fs file_path with
  | None => None
  | Some b =>
      match read_with pf encodings b with
      | None => None
      | Some (content, encoding_used) =>
          let chinese_chars := findall chinese_pattern content in
          let chinese_strings := findall pattern2 content in
          Some {| encoding_used := encoding_used;
                  total_chinese_chars := List.length chinese_chars;
                  unique_chinese_chars := List.length (to_set chinese_chars);
                  total_chinese_strings := List.length chinese_strings;
                  unique_chinese_strings :=
                    List.length (to_set chinese_strings);
                  has_chinese_characters :=
                    0 <? List.length chinese_chars |}
      end
  end.

End Check.

(* ================================================================== *)
(** * Vocabulary of the further properties *)
(* ================================================================== *)

(** A quote or an apostrophe. *)
Definition is_quote (c : N) : bool := ((c =? 34) || (c =? 39))%N.

(** Every quote of [s] comes right after a backslash;
    [after_backslash] tells whether the character before [s] is one. *)
Fixpoint quotes_escaped (after_backslash : bool) (s : pystr) : bool :=
  match s with
  | [] => true
  | c :: s' =>
      (if is_quote c then after_backslash else true)
      && quotes_escaped (c =? backslash)%N s'
  end.

(** What [escape] puts in the place of one character. *)
Definition escape_char (c : N) : pystr :=
  if (c =? 34)%N then backslash :: quote
  else if (c =? 39)%N then backslash :: apostrophe
  else [c].

(** The original content with the recorded replacements applied in
    order. *)
Definition replay (original_content : pystr) (rs : list replacement)
  : pystr :=
  fold_left
    (fun c r => replace c (chinese_text r) (escaped_translation r))
    rs original_content.

(** The replacements chain: each acts on what the one before left. *)
Fixpoint chained (c : pystr) (rs : list replacement) : Prop :=
  match rs with
  | [] => True
  | r :: rs' =>
      content_before r = c
      /\ occurrences r = count c (chinese_text r)
      /\ 0 < occurrences r
      /\ chained (replace c (chinese_text r) (escaped_translation r)) rs'
  end.

(** The loop keeps its three variables in step. *)
Definition in_step (c0 : pystr) (st : loop_state) : Prop :=
  chained c0 (performed st)
  /\ content st = replay c0 (performed st)
  /\ file_replacements st = list_sum (map occurrences (performed st)).

(** No applicable key of the store occurs in [c], as [str.count] sees
    it. *)
Definition no_key_occurs (d : dict) (c : pystr) : bool :=
  forallb (fun kv => is_placeholder (snd kv) || (count c (fst kv) =? 0)) d.

(** The loop performed no replacement. *)
Definition none_performed (st : loop_state) : bool :=
  match performed st with [] => true | _ :: _ => false end.

(** The files a call of [process_files] hands to
    [apply_translations_to_file]. *)
Definition processed (pf : platform) (files : list path) : list path :=
  filter (fun p => negb (is_hidden pf p || negb (is_text_file pf p))) files.

(** The files a call of [run] hands to [apply_translations_to_file]. *)
Definition target_files (pf : platform) (tg : target) : list path :=
  match tg with
  | TargetFile target_path =>
      if is_text_file pf target_path then [target_path] else []
  | TargetDirectory _ files => processed pf files
  | TargetMissing => []
  end.

(** Sample platform services for the evaluated instances: copies that
    add the copy of one file, respectively leave the tree as it is, and
    a writer that, like the UTF-8 codec, fails on a string holding a
    surrogate code point. *)
Definition example_shutil : shutil :=
  {| path_exists := fun fs p => match fs_get fs p with
                                | Some _ => true
                                | None => false
                                end;
     copy2 := fun fs src dst => match fs_get fs src with
                                | Some b => fs_set fs dst b
                                | None => fs
                                end;
     copytree := fun fs _ _ => fs |}.

Definition encodable (s : pystr) : bool :=
  forallb (fun c => negb ((0xD800 <=? c) && (c <=? 0xDFFF))%N) s.

Definition example_writer : Translator.json_writer :=
  fun translations =>
    if forallb (fun kv => encodable (fst kv) && encodable (snd kv))
         translations
    then Translator.Completes
    else Translator.DumpRaises [].

(** Holds of every dict built by assignments from a dict it holds of. *)
Definition dict_inv (P : pystr -> pystr -> Prop) (d : dict) : Prop :=
  NoDup (keys d) /\ forall k v, In (k, v) d -> P k v.

(** A value the remote path can store for [k]: a placeholder, or a
    non-empty stripped translation. *)
Definition remote_value (input : list pystr) (k v : pystr) : Prop :=
  In k input /\ v <> []
  /\ (is_placeholder v = true \/ exists translation, v = strip translation).

(** Backends that always fail, and a translator whose remote capability
    is not ready, for the evaluated instances. *)
Definition failing_backends : Translator.backends :=
  {| Translator.argos := fun _ => None;
     Translator.google_post := fun _ => Translator.Raises |}.

Definition local_only (T : Z) : Translator.translator :=
  {| Translator.GOOGLE_TRANSLATE_AVAILABLE := true;
     Translator.ARGOS_AVAILABLE := true;
     Translator.threshold := T;
     Translator.google_translate_ready := false;
     Translator.argos_translator_ready := true |}.

(** Some request of the batch loop over [chinese_strings] raises. *)
Definition some_request_raises (B : Translator.backends)
    (chinese_strings : list pystr) : bool :=
  existsb
    (fun i =>
       match Translator.google_post B
               (Translator.slice chinese_strings i Translator.batch_size) with
       | Translator.Raises => true
       | _ => false
       end)
    (Translator.range0 (List.length chinese_strings) Translator.batch_size).

(** The length of the run of Chinese characters [s] starts with. *)
Fixpoint leading_run (s : pystr) : nat :=
  match s with
  | c :: s' => if chinese c then S (leading_run s') else 0
  | [] => 0
  end.

(* ================================================================== *)
(** * Properties *)
(* ================================================================== *)

(** ** Strings and dicts *)

Lemma eqb_eq (a b : pystr) : eqb a b = true <-> a = b.
Proof.
  revert b; induction a as [|x a IH]; intros [|y b]; simpl;
    try (split; [discriminate | intros H; discriminate H]);
    try (split; reflexivity).
  rewrite andb_true_iff, N.eqb_eq, IH.
  split; [intros [-> ->]; reflexivity | intros H; inversion H; auto].
Qed.

Lemma eqb_refl (a : pystr) : eqb a a = true.
Proof. apply eqb_eq; reflexivity. Qed.

Lemma eqb_neq (a b : pystr) : eqb a b = false <-> a <> b.
Proof.
  rewrite <- eqb_eq. destruct (eqb a b); split; congruence.
Qed.

Lemma eqb_sym (a b : pystr) : eqb a b = eqb b a.
Proof.
  destruct (eqb a b) eqn:E.
  - apply eqb_eq in E; subst; symmetry; apply eqb_refl.
  - destruct (eqb b a) eqn:E'; auto.
    apply eqb_eq in E'; subst. rewrite eqb_refl in E; discriminate.
Qed.

Lemma mem_In (x : pystr) (l : list pystr) : mem x l = true <-> In x l.
Proof.
  unfold mem. rewrite existsb_exists. split.
  - intros (y & Hy & E). apply eqb_eq in E; subst; auto.
  - intros H. exists x; split; auto using eqb_refl.
Qed.

Lemma mem_false (x : pystr) (l : list pystr) : mem x l = false <-> ~ In x l.
Proof.
  rewrite <- mem_In. destruct (mem x l); split; congruence.
Qed.

Lemma get_set (d : dict) (k v k' : pystr) :
  get (set d k v) k' = if eqb k k' then Some v else get d k'.
Proof.
  induction d as [|[k0 v0] d IH]; simpl.
  - reflexivity.
  - destruct (eqb k0 k) eqn:E; simpl.
    + apply eqb_eq in E; subst k0. destruct (eqb k k'); reflexivity.
    + rewrite IH. destruct (eqb k0 k') eqn:E'; auto.
      apply eqb_eq in E'; subst k0.
      rewrite eqb_sym, E. reflexivity.
Qed.

Lemma get_None (d : dict) (k : pystr) : get d k = None <-> ~ In k (keys d).
Proof.
  induction d as [|[k0 v0] d IH]; simpl.
  - tauto.
  - destruct (eqb k0 k) eqn:E.
    + apply eqb_eq in E. split; [discriminate | intros H; exfalso; auto].
    + apply eqb_neq in E. rewrite IH. tauto.
Qed.

Lemma get_Some_In (d : dict) (k v : pystr) :
  get d k = Some v -> In (k, v) d.
Proof.
  induction d as [|[k0 v0] d IH]; simpl; [discriminate|].
  destruct (eqb k0 k) eqn:E.
  - apply eqb_eq in E; subst. intros [= ->]; auto.
  - auto.
Qed.

Lemma unique_keys_NoDup (d : dict) : unique_keys d = true <-> NoDup (keys d).
Proof.
  induction d as [|[k v] d IH]; simpl.
  - split; [constructor | reflexivity].
  - rewrite andb_true_iff, negb_true_iff, mem_false, IH.
    split; [intros [H1 H2]; constructor; auto
           | intros H; inversion H; auto].
Qed.

Lemma In_get (d : dict) (k v : pystr) :
  NoDup (keys d) -> In (k, v) d -> get d k = Some v.
Proof.
  induction d as [|[k0 v0] d IH]; simpl; [tauto|].
  intros Hnd [E | Hin].
  - inversion E; subst. rewrite eqb_refl; reflexivity.
  - inversion Hnd; subst.
    destruct (eqb k0 k) eqn:E.
    + apply eqb_eq in E; subst. exfalso. apply H1.
      apply in_map_iff. exists (k, v); auto.
    + auto.
Qed.

Lemma get_update (other d : dict) (k : pystr) :
  NoDup (keys other) ->
  get (update d other) k =
  match get other k with Some v => Some v | None => get d k end.
Proof.
  unfold update. revert d.
  induction other as [|[k0 v0] other IH]; intros d Hnd; simpl.
  - reflexivity.
  - inversion Hnd; subst. rewrite IH by assumption.
    destruct (eqb k0 k) eqn:E.
    + apply eqb_eq in E; subst k0.
      assert (Hn : get other k = None) by (apply get_None; assumption).
      rewrite Hn, get_set, eqb_refl. reflexivity.
    + rewrite get_set, E. reflexivity.
Qed.

(** ** The processing order of the Applicator *)

Lemma insert_by_len_perm (x : pystr * pystr) (l : list (pystr * pystr)) :
  Permutation (insert_by_len x l) (x :: l).
Proof.
  induction l as [|y l IH]; simpl.
  - apply Permutation_refl.
  - destruct (len (fst x) <? len (fst y)).
    + eapply perm_trans; [apply perm_skip, IH | apply perm_swap].
    + apply Permutation_refl.
Qed.

Lemma sorted_translations_perm (d : dict) :
  Permutation (sorted_translations d) d.
Proof.
  induction d as [|x d IH]; simpl.
  - constructor.
  - eapply perm_trans; [apply insert_by_len_perm | apply perm_skip, IH].
Qed.

Lemma insert_by_len_sorted (x : pystr * pystr) (l : list (pystr * pystr)) :
  StronglySorted longer_first l ->
  StronglySorted longer_first (insert_by_len x l).
Proof.
  induction 1 as [|y l Hs IH Hy]; simpl.
  - repeat constructor.
  - destruct (len (fst x) <? len (fst y)) eqn:E.
    + apply Nat.ltb_lt in E. constructor; [assumption|].
      eapply Permutation_Forall;
        [apply Permutation_sym, insert_by_len_perm|].
      constructor; [unfold longer_first; lia | assumption].
    + apply Nat.ltb_ge in E. constructor.
      * constructor; assumption.
      * constructor; [exact E|].
        eapply Forall_impl; [|exact Hy].
        unfold longer_first; intros; lia.
Qed.

Lemma sorted_translations_sorted (d : dict) :
  StronglySorted longer_first (sorted_translations d).
Proof.
  induction d as [|x d IH]; simpl.
  - constructor.
  - apply insert_by_len_sorted, IH.
Qed.

Lemma insert_by_len_head (x : pystr * pystr) (l : list (pystr * pystr)) :
  Forall (longer_first x) l -> insert_by_len x l = x :: l.
Proof.
  destruct l as [|y l]; simpl; [reflexivity|].
  intros H; inversion H; subst.
  assert (E : (len (fst x) <? len (fst y)) = false)
    by (apply Nat.ltb_ge; assumption).
  rewrite E; reflexivity.
Qed.

Lemma insert_by_len_filter (f : pystr * pystr -> bool) (x : pystr * pystr)
    (l : list (pystr * pystr)) :
  StronglySorted longer_first l ->
  filter f (insert_by_len x l) =
  if f x then insert_by_len x (filter f l) else filter f l.
Proof.
  induction 1 as [|y l Hs IH Hy]; simpl.
  - destruct (f x); reflexivity.
  - destruct (len (fst x) <? len (fst y)) eqn:E; simpl.
    + rewrite IH. destruct (f y), (f x); simpl; try rewrite E; reflexivity.
    + apply Nat.ltb_ge in E.
      destruct (f x) eqn:Fx; [|reflexivity].
      symmetry. apply insert_by_len_head.
      assert (Hall : Forall (longer_first x) (y :: l)).
      { constructor; [exact E|].
        eapply Forall_impl; [|exact Hy].
        unfold longer_first; intros; lia. }
      eapply incl_Forall; [apply (incl_filter f (y :: l)) | exact Hall].
Qed.

Lemma sorted_translations_filter (f : pystr * pystr -> bool) (d : dict) :
  sorted_translations (filter f d) = filter f (sorted_translations d).
Proof.
  induction d as [|x d IH]; simpl; [reflexivity|].
  rewrite insert_by_len_filter by apply sorted_translations_sorted.
  destruct (f x); simpl; rewrite IH; reflexivity.
Qed.

(** ** Placeholder entries and the Applicator *)

Lemma loop_body_placeholder (st : loop_state) (k v : pystr) :
  is_placeholder v = true -> loop_body st (k, v) = st.
Proof. intros H; unfold loop_body; rewrite H; reflexivity. Qed.

Lemma fold_loop_body_valid (l : list (pystr * pystr)) (st : loop_state) :
  fold_left loop_body (filter (fun kv => negb (is_placeholder (snd kv))) l) st
  = fold_left loop_body l st.
Proof.
  revert st; induction l as [|[k v] l IH]; intros st; [reflexivity|].
  cbn [filter snd]. destruct (is_placeholder v) eqn:E; cbn [negb fold_left].
  - rewrite (loop_body_placeholder st k v E). apply IH.
  - apply IH.
Qed.

Lemma substitute_valid (translations : dict) (c : pystr) :
  substitute (valid_translations translations) c = substitute translations c.
Proof.
  unfold substitute, valid_translations.
  rewrite sorted_translations_filter. apply fold_loop_body_valid.
Qed.

Lemma fold_loop_body_performed (l : list (pystr * pystr)) (st : loop_state) :
  forall all, incl l all ->
  Forall (from_valid_entry all) (performed st) ->
  Forall (from_valid_entry all) (performed (fold_left loop_body l st)).
Proof.
  revert st; induction l as [|[k v] l IH]; intros st all Hincl Hst; simpl.
  - assumption.
  - apply IH.
    + intros x Hx; apply Hincl; right; assumption.
    + unfold loop_body.
      destruct (is_placeholder v) eqn:E; [assumption|].
      destruct (0 <? count (content st) k); [|assumption].
      simpl. apply Forall_app; split; [assumption|].
      constructor; [|constructor].
      exists v; simpl. repeat split; auto.
      apply Hincl; left; reflexivity.
Qed.

Lemma substitute_performed (translations : dict) (c : pystr) :
  Forall (from_valid_entry translations) (performed (substitute translations c)).
Proof.
  unfold substitute.
  eapply Forall_impl;
    [|apply (fold_loop_body_performed _ _ (sorted_translations translations));
      [apply incl_refl | constructor]].
  intros r (v & Hin & Hv & He). exists v; repeat split; auto.
  eapply Permutation_in; [apply sorted_translations_perm | exact Hin].
Qed.

Lemma In_set_add (x y : pystr) (s : list pystr) :
  In y (set_add x s) <-> y = x \/ In y s.
Proof.
  unfold set_add. destruct (mem x s) eqn:E.
  - apply mem_In in E. split; [auto | intros [-> | H]; auto].
  - rewrite in_app_iff; simpl. split; intros H.
    + destruct H as [H | [H | []]]; [right | left]; auto.
    + destruct H as [H | H]; [right; left | left]; auto.
Qed.

Lemma In_to_set_from (l acc : list pystr) (y : pystr) :
  In y (fold_left (fun acc x => set_add x acc) l acc) <-> In y l \/ In y acc.
Proof.
  revert acc; induction l as [|x l IH]; intros acc; simpl.
  - tauto.
  - rewrite IH, In_set_add. intuition auto.
Qed.

Lemma In_to_set (l : list pystr) (y : pystr) : In y (to_set l) <-> In y l.
Proof.
  unfold to_set. rewrite In_to_set_from. simpl; tauto.
Qed.

Lemma mem_iff (x : pystr) (l l' : list pystr) :
  (In x l <-> In x l') -> mem x l = mem x l'.
Proof.
  intros H. destruct (mem x l') eqn:E.
  - apply mem_In, H, mem_In, E.
  - apply mem_false. intros Hin. apply mem_false in E. tauto.
Qed.

Lemma mem_filter (f : pystr -> bool) (x : pystr) (l : list pystr) :
  mem x (filter f l) = mem x l && f x.
Proof.
  destruct (mem x l) eqn:E; simpl.
  - destruct (f x) eqn:F.
    + apply mem_In, filter_In. split; [apply mem_In, E | exact F].
    + apply mem_false. intros H. apply filter_In in H. destruct H; congruence.
  - apply mem_false. intros H. apply filter_In in H.
    apply mem_false in E. tauto.
Qed.

Lemma mem_new_strings (existing : dict) (scanned : list pystr) (k : pystr) :
  mem k (Translator.new_strings_to_translate existing scanned)
  = mem k scanned && negb (mem k (keys existing)).
Proof.
  unfold Translator.new_strings_to_translate, set_diff.
  rewrite mem_filter. f_equal. f_equal.
  apply mem_iff, In_to_set.
Qed.

(** C6: [merge(existing, newly_translated)] (step 5 of [run]) maps
    every key of [newly_translated] to its new value and every other key
    of [existing] to its old value; on the two examples of the
    specification it gives [{"A":"a","B":"b"}] and [{"A":"a2"}]. *)
Theorem C6_merge_new_overwrites_old_kept (existing newly_translated : dict) :
  unique_keys newly_translated = true ->
  (forall k v, get newly_translated k = Some v ->
               get (Translator.merge existing newly_translated) k = Some v)
  /\ (forall k, get newly_translated k = None ->
                get (Translator.merge existing newly_translated) k
                = get existing k)
  /\ Translator.merge [(u "A", u "a")] [(u "B", u "b")]
     = [(u "A", u "a"); (u "B", u "b")]
  /\ Translator.merge [(u "A", u "a")] [(u "A", u "a2")]
     = [(u "A", u "a2")].
Proof.
  intros Hu. apply unique_keys_NoDup in Hu.
  unfold Translator.merge, copy.
  repeat split.
  - intros k v H. rewrite get_update, H by assumption. reflexivity.
  - intros k H. rewrite get_update, H by assumption. reflexivity.
Qed.

Lemma C6_merge_witness :
  unique_keys [(u "你好", u "hi"); (u "世界", u "world")] = true
  /\ get (Translator.merge [(u "你好", u "hello"); (u "系统", u "system")]
            [(u "你好", u "hi"); (u "世界", u "world")]) (u "你好")
     = Some (u "hi")
  /\ get (Translator.merge [(u "你好", u "hello"); (u "系统", u "system")]
            [(u "你好", u "hi"); (u "世界", u "world")]) (u "系统")
     = Some (u "system").
Proof.
  split; [reflexivity|].
  pose proof (C6_merge_new_overwrites_old_kept
                [(u "你好", u "hello"); (u "系统", u "system")]
                [(u "你好", u "hi"); (u "世界", u "world")] eq_refl)
    as (Hnew & Hold & _).
  split; [apply Hnew | rewrite Hold]; reflexivity.
Defined.

(** C10: the placeholder test looks only at the first and the last
    character of the value.  A key whose value starts with '[' and ends
    with ']' is never the subject of a replacement, whatever the store
    and the content, and [run] drops it from the translations it uses;
    this also holds for a value such as "[OK]". *)
Theorem C10_bracketed_value_never_substituted
    (translations : dict) (original_content k v : pystr) :
  unique_keys translations = true ->
  get translations k = Some v ->
  startswith v (u "[") = true ->
  endswith v (u "]") = true ->
  ~ In k (map chinese_text
            (performed (substitute translations original_content)))
  /\ get (valid_translations translations) k = None
  /\ is_placeholder (u "[OK]") = true
  /\ content (substitute [(u "好", u "[OK]")] (u "好")) = u "好".
Proof.
  intros Hu Hget Hs He.
  apply unique_keys_NoDup in Hu.
  assert (Hp : is_placeholder v = true)
    by (unfold is_placeholder; rewrite Hs, He; reflexivity).
  assert (Hno : forall v', In (k, v') translations ->
                           is_placeholder v' = false -> False).
  { intros v' Hin Hv'. rewrite (In_get _ _ _ Hu Hin) in Hget.
    congruence. }
  repeat split.
  - intros Hin. apply in_map_iff in Hin. destruct Hin as (r & Hr & Hin).
    pose proof (substitute_performed translations original_content) as Hall.
    rewrite Forall_forall in Hall.
    destruct (Hall r Hin) as (v' & Hin' & Hv' & _).
    rewrite Hr in Hin'. eauto.
  - apply get_None. intros Hin. apply in_map_iff in Hin.
    destruct Hin as ([k' v'] & Hk & Hin). simpl in Hk; subst k'.
    apply filter_In in Hin. destruct Hin as [Hin Hv']. simpl in Hv'.
    apply negb_true_iff in Hv'. eauto.
Qed.

Lemma C10_bracketed_value_witness :
  unique_keys [(u "好", u "[OK]"); (u "你好", u "hello")] = true
  /\ get [(u "好", u "[OK]"); (u "你好", u "hello")] (u "好")
     = Some (u "[OK]")
  /\ startswith (u "[OK]") (u "[") = true
  /\ endswith (u "[OK]") (u "]") = true
  /\ ~ In (u "好")
       (map chinese_text
          (performed (substitute [(u "好", u "[OK]"); (u "你好", u "hello")]
                        (u "你好，好"))))
  /\ content (substitute [(u "好", u "[OK]"); (u "你好", u "hello")]
                (u "你好，好")) = u "hello，好".
Proof.
  repeat split; try reflexivity.
  apply (C10_bracketed_value_never_substituted
           [(u "好", u "[OK]"); (u "你好", u "hello")]
           (u "你好，好") (u "好") (u "[OK]"));
    reflexivity.
Defined.

(** C2 (as amended): entries whose value is a placeholder are excluded
    from what the Applicator substitutes: [run] filters them out, the
    loop skips them, and every replacement performed comes from an entry
    whose value is not a placeholder.  The Translator's "already
    translated" set is the set of all keys of the loaded store,
    whatever their values: a scanned string is requested for translation
    exactly when it is not a key of the store. *)
Theorem C2_placeholders_not_applied_keys_not_retried
    (store : dict) (scanned : list pystr) (original_content k : pystr) :
  Forall (fun kv => is_placeholder (snd kv) = false) (valid_translations store)
  /\ substitute (valid_translations store) original_content
     = substitute store original_content
  /\ Forall (from_valid_entry store)
       (performed (substitute store original_content))
  /\ mem k (Translator.new_strings_to_translate store scanned)
     = mem k scanned && negb (mem k (keys store)).
Proof.
  repeat split.
  - apply Forall_forall. intros kv H. apply filter_In in H.
    destruct H as [_ H]. apply negb_true_iff in H. exact H.
  - apply substitute_valid.
  - apply substitute_performed.
  - apply mem_new_strings.
Qed.

(** C2 as stated fails on its second half: a scanned key whose stored
    value is a placeholder is not among the strings to translate, and
    the run makes no call and leaves the store as it was. *)
Lemma C2_placeholder_key_not_re_requested :
  let store := [(u "你好", u "[ARGOS_ERROR: 你好]")] in
  let scanned := [u "你好"] in
  get store (u "你好") = Some (u "[ARGOS_ERROR: 你好]")
  /\ is_placeholder (u "[ARGOS_ERROR: 你好]") = true
  /\ In (u "你好") scanned
  /\ ~ In (u "你好") (Translator.new_strings_to_translate store scanned)
  /\ forall B t w, Translator.run B t w (Stored store) scanned
                   = (Stored store, []).
Proof.
  cbv zeta. repeat split.
  - left; reflexivity.
  - apply mem_false. reflexivity.
  - intros B t w. unfold Translator.run.
    change (Translator.new_strings_to_translate
              (Translator.load_existing_translations
                 (Stored [(u "你好", u "[ARGOS_ERROR: 你好]")]))
              [u "你好"]) with (@nil pystr).
    destruct (negb (Translator.GOOGLE_TRANSLATE_AVAILABLE t)
              && negb (Translator.ARGOS_AVAILABLE t)); [reflexivity|].
    destruct (negb (Translator.google_translate_ready t)
              && negb (Translator.argos_translator_ready t)); reflexivity.
Qed.

(** ** Keys of the dicts the Translator builds *)

Lemma In_keys_set (d : dict) (k v k' : pystr) :
  In k' (keys (set d k v)) <-> k' = k \/ In k' (keys d).
Proof.
  induction d as [|[k0 v0] d IH]; simpl.
  - intuition auto.
  - destruct (eqb k0 k) eqn:E; simpl.
    + apply eqb_eq in E; subst k0. intuition auto.
    + unfold keys in IH. rewrite IH. intuition auto.
Qed.

Lemma In_keys_fold_set (f : pystr -> pystr) (l : list pystr) (d : dict)
    (k : pystr) :
  In k (keys (fold_left (fun acc x => set acc x (f x)) l d))
  <-> In k l \/ In k (keys d).
Proof.
  revert d; induction l as [|x l IH]; intros d; simpl.
  - tauto.
  - rewrite IH, In_keys_set. intuition auto.
Qed.

Lemma In_keys_comprehension (f : pystr -> pystr) (l : list pystr) (k : pystr) :
  In k (keys (comprehension f l)) <-> In k l.
Proof.
  unfold comprehension. rewrite In_keys_fold_set. simpl; tauto.
Qed.

Lemma In_keys_update (other d : dict) (k : pystr) :
  In k (keys (update d other)) <-> In k (keys other) \/ In k (keys d).
Proof.
  unfold update. revert d.
  induction other as [|[k0 v0] other IH]; intros d; simpl.
  - tauto.
  - rewrite IH, In_keys_set. intuition auto.
Qed.

Lemma argos_each_calls (B : Translator.backends) (t : Translator.translator)
    (l : list pystr) (start : dict * list Translator.call) :
  snd (Translator.argos_each B t l start)
  = snd start ++ map Translator.CallArgos l.
Proof.
  unfold Translator.argos_each. revert start.
  induction l as [|x l IH]; intros start; simpl.
  - rewrite app_nil_r; reflexivity.
  - rewrite IH. simpl. rewrite <- app_assoc. reflexivity.
Qed.

Lemma argos_each_keys (B : Translator.backends) (t : Translator.translator)
    (l : list pystr) (start : dict * list Translator.call) (k : pystr) :
  In k (keys (fst (Translator.argos_each B t l start)))
  <-> In k l \/ In k (keys (fst start)).
Proof.
  unfold Translator.argos_each. revert start.
  induction l as [|x l IH]; intros start; simpl.
  - tauto.
  - rewrite IH. simpl. rewrite In_keys_set. intuition auto.
Qed.

(** The entries a successful batch response accounts for. *)
Lemma record_translations_keys (batch translations : list pystr) (d : dict)
    (k : pystr) :
  In k (keys (Translator.record_translations d batch translations))
  <-> In k (firstn (List.length translations) batch) \/ In k (keys d).
Proof.
  revert translations d.
  induction batch as [|o batch IH]; intros [|tr translations] d; simpl;
    try tauto.
  rewrite IH, In_keys_set. intuition auto.
Qed.

Lemma In_firstn (n : nat) (l : list pystr) (x : pystr) :
  In x (firstn n l) -> In x l.
Proof.
  intros H. rewrite <- (firstn_skipn n l). apply in_or_app; auto.
Qed.

Lemma In_skipn (n : nat) (l : list pystr) (x : pystr) :
  In x (skipn n l) -> In x l.
Proof.
  intros H. rewrite <- (firstn_skipn n l). apply in_or_app; auto.
Qed.

Lemma In_slice (l : list pystr) (i n : nat) (x : pystr) :
  In x (Translator.slice l i n) -> In x l.
Proof.
  unfold Translator.slice. intros H. eapply In_skipn, In_firstn, H.
Qed.

(** Every element of the list lies in one of the slices the batch loop
    takes. *)
Lemma slices_cover (l : list pystr) (n : nat) (x : pystr) :
  0 < n -> In x l ->
  exists i, In i (Translator.range0 (List.length l) n)
            /\ In x (Translator.slice l i n).
Proof.
  intros Hn Hin. apply In_nth_error in Hin. destruct Hin as (idx & Hidx).
  assert (Hlt : idx < List.length l)
    by (apply nth_error_Some; congruence).
  exists (idx / n * n). split.
  - unfold Translator.range0. apply in_map_iff.
    exists (idx / n). split; [reflexivity|].
    apply in_seq. split; [lia|]. simpl.
    replace (List.length l + n - 1) with ((List.length l - 1) + 1 * n) by lia.
    rewrite Nat.div_add by lia.
    assert (idx / n <= (List.length l - 1) / n)
      by (apply Nat.Div0.div_le_mono; lia).
    lia.
  - unfold Translator.slice.
    apply (nth_error_In _ (idx - idx / n * n)).
    rewrite nth_error_firstn.
    pose proof (Nat.div_mod_eq idx n) as Hdm.
    pose proof (Nat.mod_upper_bound idx n ltac:(lia)) as Hmod.
    assert (E : (idx - idx / n * n <? n) = true) by (apply Nat.ltb_lt; nia).
    rewrite E, nth_error_skipn.
    replace (idx / n * n + (idx - idx / n * n)) with idx by nia.
    exact Hidx.
Qed.

Lemma post_batch_keys_upper (B : Translator.backends) (d d' : dict)
    (batch : list pystr) (k : pystr) :
  Translator.post_batch B d batch = Some d' ->
  In k (keys d') -> In k batch \/ In k (keys d).
Proof.
  unfold Translator.post_batch.
  destruct (Translator.google_post B batch) as [translations| |];
    intros [= <-] H.
  - apply record_translations_keys in H.
    destruct H as [H | H]; [left; eapply In_firstn, H | right; exact H].
  - apply In_keys_fold_set in H. exact H.
Qed.

Lemma post_batch_keys_lower (B : Translator.backends) (d d' : dict)
    (batch : list pystr) (k : pystr) :
  Translator.post_batch B d batch = Some d' ->
  In k (keys d) \/ (response_covers B batch = true /\ In k batch) ->
  In k (keys d').
Proof.
  unfold Translator.post_batch, response_covers.
  destruct (Translator.google_post B batch) as [translations| |];
    intros [= <-] H.
  - apply record_translations_keys.
    destruct H as [H | [Hc H]]; [right; exact H | left].
    apply Nat.leb_le in Hc. rewrite firstn_all2 by exact Hc. exact H.
  - apply In_keys_fold_set. tauto.
Qed.

Lemma batch_loop_keys_upper (B : Translator.backends) (l : list pystr)
    (starts : list nat) (d d' : dict) (k : pystr) :
  Translator.batch_loop B l starts d = Some d' ->
  In k (keys d') -> In k l \/ In k (keys d).
Proof.
  revert d; induction starts as [|i starts IH]; intros d; simpl.
  - intros [= <-]; auto.
  - destruct (Translator.post_batch B d
                (Translator.slice l i Translator.batch_size)) as [d1|] eqn:E;
      [|discriminate].
    intros H Hk. destruct (IH _ H Hk) as [Hl | H1]; [left; exact Hl|].
    destruct (post_batch_keys_upper _ _ _ _ _ E H1) as [Hs | Hd].
    + left. eapply In_slice, Hs.
    + right; exact Hd.
Qed.

Lemma batch_loop_keys_lower (B : Translator.backends) (l : list pystr)
    (starts : list nat) (d d' : dict) (k : pystr) :
  Translator.batch_loop B l starts d = Some d' ->
  In k (keys d)
  \/ (exists i, In i starts
        /\ response_covers B (Translator.slice l i Translator.batch_size)
           = true
        /\ In k (Translator.slice l i Translator.batch_size)) ->
  In k (keys d').
Proof.
  revert d; induction starts as [|i starts IH]; intros d; simpl.
  - intros [= <-] [H | (i & [] & _)]; exact H.
  - destruct (Translator.post_batch B d
                (Translator.slice l i Translator.batch_size)) as [d1|] eqn:E;
      [|discriminate].
    intros H Hk. apply (IH _ H).
    destruct Hk as [Hd | (j & [<- | Hj] & Hc & Hin)].
    + left. eapply post_batch_keys_lower; [exact E | left; exact Hd].
    + left. eapply post_batch_keys_lower; [exact E | right; split; assumption].
    + right. exists j; auto.
Qed.

Lemma google_keys_upper (B : Translator.backends) (t : Translator.translator)
    (l : list pystr) (k : pystr) :
  In k (keys (Translator.translate_batch_with_google_api B t l)) -> In k l.
Proof.
  unfold Translator.translate_batch_with_google_api.
  destruct (negb (Translator.google_translate_ready t)).
  - apply In_keys_comprehension.
  - destruct (Translator.batch_loop B l _ []) as [d|] eqn:E.
    + intros H. destruct (batch_loop_keys_upper _ _ _ _ _ _ E H) as [H'|[]].
      exact H'.
    + apply In_keys_comprehension.
Qed.

Lemma google_keys_lower (B : Translator.backends) (t : Translator.translator)
    (l : list pystr) (k : pystr) :
  responses_parallel B l = true ->
  In k l -> In k (keys (Translator.translate_batch_with_google_api B t l)).
Proof.
  intros Hp Hin. unfold Translator.translate_batch_with_google_api.
  destruct (negb (Translator.google_translate_ready t)).
  - apply In_keys_comprehension, Hin.
  - destruct (Translator.batch_loop B l _ []) as [d|] eqn:E.
    + eapply batch_loop_keys_lower; [exact E|]. right.
      destruct (slices_cover l Translator.batch_size k) as (i & Hi & Hs);
        [unfold Translator.batch_size; lia | exact Hin |].
      exists i. repeat split; auto.
      unfold responses_parallel in Hp. rewrite forallb_forall in Hp.
      apply Hp, Hi.
    + apply In_keys_comprehension, Hin.
Qed.

Lemma sent_to_google_app (c1 c2 : list Translator.call) (s : pystr) :
  sent_to_google (c1 ++ c2) s = sent_to_google c1 s || sent_to_google c2 s.
Proof. apply existsb_app. Qed.

Lemma sent_to_argos_app (c1 c2 : list Translator.call) (s : pystr) :
  sent_to_argos (c1 ++ c2) s = sent_to_argos c1 s || sent_to_argos c2 s.
Proof. apply existsb_app. Qed.

Lemma sent_to_google_argos_calls (l : list pystr) (s : pystr) :
  sent_to_google (map Translator.CallArgos l) s = false.
Proof. induction l; simpl; auto. Qed.

Lemma sent_to_argos_argos_calls (l : list pystr) (s : pystr) :
  sent_to_argos (map Translator.CallArgos l) s = mem s l.
Proof.
  induction l as [|x l IH]; simpl; [reflexivity|].
  rewrite IH, (eqb_sym x s). reflexivity.
Qed.

(** ** The hybrid branch of [translate_all] *)

Lemma translate_all_hybrid (B : Translator.backends)
    (t : Translator.translator) (l : list pystr) :
  Translator.google_translate_ready t = true ->
  (0 < Translator.threshold t)%Z ->
  Translator.translate_all B t l =
  let after_google :=
    match Translator.long_strings t l with
    | [] => ([], [])
    | _ => (update [] (Translator.translate_batch_with_google_api B t
                         (Translator.long_strings t l)),
            [Translator.CallGoogleBatch (Translator.long_strings t l)])
    end in
  match Translator.short_strings t l with
  | [] => after_google
  | _ => Translator.argos_each B t (Translator.short_strings t l) after_google
  end.
Proof.
  intros Hr Ht. unfold Translator.translate_all.
  assert (E1 : (Translator.threshold t =? -1)%Z = false)
    by (apply Z.eqb_neq; lia).
  assert (E2 : (Translator.threshold t =? 0)%Z = false)
    by (apply Z.eqb_neq; lia).
  assert (E3 : (0 <? Translator.threshold t)%Z = true)
    by (apply Z.ltb_lt; lia).
  rewrite E1, E2, Hr, E3. reflexivity.
Qed.

Lemma hybrid_calls (B : Translator.backends) (t : Translator.translator)
    (l : list pystr) :
  Translator.google_translate_ready t = true ->
  (0 < Translator.threshold t)%Z ->
  snd (Translator.translate_all B t l) =
  match Translator.long_strings t l with
  | [] => []
  | _ => [Translator.CallGoogleBatch (Translator.long_strings t l)]
  end ++ map Translator.CallArgos (Translator.short_strings t l).
Proof.
  intros Hr Ht. rewrite translate_all_hybrid by assumption. cbv zeta.
  destruct (Translator.short_strings t l) as [|x sh] eqn:Es.
  - simpl. rewrite app_nil_r. destruct (Translator.long_strings t l); reflexivity.
  - rewrite argos_each_calls. destruct (Translator.long_strings t l); reflexivity.
Qed.

Lemma hybrid_keys (B : Translator.backends) (t : Translator.translator)
    (l : list pystr) (k : pystr) :
  Translator.google_translate_ready t = true ->
  (0 < Translator.threshold t)%Z ->
  In k (keys (fst (Translator.translate_all B t l))) <->
  In k (Translator.short_strings t l)
  \/ In k (keys (Translator.translate_batch_with_google_api B t
                   (Translator.long_strings t l))).
Proof.
  intros Hr Ht. rewrite translate_all_hybrid by assumption. cbv zeta.
  assert (Hg : forall k,
    In k (keys (fst (match Translator.long_strings t l with
       | [] => ([], [])
       | _ => (update [] (Translator.translate_batch_with_google_api B t
                            (Translator.long_strings t l)),
               [Translator.CallGoogleBatch (Translator.long_strings t l)])
       end : dict * list Translator.call))) <->
    In k (keys (Translator.translate_batch_with_google_api B t
                  (Translator.long_strings t l)))).
  { intros k0. destruct (Translator.long_strings t l) as [|x lg] eqn:El.
    - simpl. split; [tauto|]. intros H. apply google_keys_upper in H.
      exact H.
    - simpl fst. rewrite In_keys_update. simpl; tauto. }
  destruct (Translator.short_strings t l) as [|x sh] eqn:Es.
  - rewrite Hg. simpl; tauto.
  - rewrite argos_each_keys, Hg. tauto.
Qed.

Lemma sent_to_google_hybrid (B : Translator.backends)
    (t : Translator.translator) (l : list pystr) (s : pystr) :
  Translator.google_translate_ready t = true ->
  (0 < Translator.threshold t)%Z ->
  sent_to_google (snd (Translator.translate_all B t l)) s
  = mem s (Translator.long_strings t l).
Proof.
  intros Hr Ht. rewrite hybrid_calls by assumption.
  rewrite sent_to_google_app, sent_to_google_argos_calls, orb_false_r.
  destruct (Translator.long_strings t l); simpl; [reflexivity | apply orb_false_r].
Qed.

Lemma sent_to_argos_hybrid (B : Translator.backends)
    (t : Translator.translator) (l : list pystr) (s : pystr) :
  Translator.google_translate_ready t = true ->
  (0 < Translator.threshold t)%Z ->
  sent_to_argos (snd (Translator.translate_all B t l)) s
  = mem s (Translator.short_strings t l).
Proof.
  intros Hr Ht. rewrite hybrid_calls by assumption.
  rewrite sent_to_argos_app, sent_to_argos_argos_calls.
  destruct (Translator.long_strings t l); reflexivity.
Qed.

(** C5 (as amended): with a positive threshold T and the remote
    capability ready, every input string of length >= T is handed to the
    batch remote method and not to the local one, every input string of
    length in [3, T) is handed to the local method, one call per string,
    and not to the remote one, and every input string shorter than both
    3 and T is handed to neither.  With T = 5, strings of length 5, 4, 3
    and 2 go to remote, local, local and neither. *)
Theorem C5_threshold_routing (B : Translator.backends)
    (t : Translator.translator) (strings_list : list pystr) (s : pystr) :
  Translator.google_translate_ready t = true ->
  (0 < Translator.threshold t)%Z ->
  In s strings_list ->
  let calls := snd (Translator.translate_all B t strings_list) in
  ((Translator.threshold t <= Z.of_nat (len s))%Z ->
     sent_to_google calls s = true /\ sent_to_argos calls s = false)
  /\ (3 <= len s -> (Z.of_nat (len s) < Translator.threshold t)%Z ->
     sent_to_argos calls s = true /\ sent_to_google calls s = false)
  /\ (len s < 3 -> (Z.of_nat (len s) < Translator.threshold t)%Z ->
     sent_to_google calls s = false /\ sent_to_argos calls s = false)
  /\ snd (Translator.translate_all B (hybrid 5)
            [u "你好世界啊"; u "传感器采"; u "传感器"; u "你好"])
     = [Translator.CallGoogleBatch [u "你好世界啊"];
        Translator.CallArgos (u "传感器采");
        Translator.CallArgos (u "传感器")].
Proof.
  intros Hr Ht Hin calls. subst calls.
  rewrite sent_to_google_hybrid, sent_to_argos_hybrid by assumption.
  unfold Translator.long_strings, Translator.short_strings. rewrite !mem_filter.
  apply mem_In in Hin. rewrite Hin. cbn [andb].
  split; [|split; [|split]].
  - intros H. split.
    + apply Z.leb_le; assumption.
    + apply andb_false_iff; right. apply Z.ltb_ge; assumption.
  - intros H3 HT. split.
    + apply andb_true_iff; split; [apply Nat.leb_le | apply Z.ltb_lt];
        assumption.
    + apply Z.leb_gt; assumption.
  - intros H3 HT. split.
    + apply Z.leb_gt; assumption.
    + apply andb_false_iff; left. apply Nat.leb_gt; assumption.
  - rewrite hybrid_calls by reflexivity. reflexivity.
Qed.

Lemma C5_threshold_routing_witness :
  Translator.google_translate_ready (hybrid 5) = true
  /\ (0 < Translator.threshold (hybrid 5))%Z
  /\ In (u "传感器") [u "你好世界啊"; u "传感器"; u "你好"]
  /\ sent_to_argos
       (snd (Translator.translate_all example_backends (hybrid 5)
               [u "你好世界啊"; u "传感器"; u "你好"])) (u "传感器") = true
  /\ sent_to_google
       (snd (Translator.translate_all example_backends (hybrid 5)
               [u "你好世界啊"; u "传感器"; u "你好"])) (u "传感器") = false.
Proof.
  split; [reflexivity|]. split; [reflexivity|].
  split; [right; left; reflexivity|].
  refine (proj1 (proj2 (C5_threshold_routing example_backends (hybrid 5)
            [u "你好世界啊"; u "传感器"; u "你好"] (u "传感器")
            eq_refl eq_refl (or_intror (or_introl eq_refl)))) _ _).
  - vm_compute. lia.
  - reflexivity.
Defined.

(** C5 as stated fails for T = 2: a string of length 2 is shorter
    than 3, yet it is handed to the remote method. *)
Lemma C5_short_string_sent_to_remote :
  Translator.google_translate_ready (hybrid 2) = true
  /\ (0 < Translator.threshold (hybrid 2))%Z
  /\ len (u "你好") < 3
  /\ sent_to_google
       (snd (Translator.translate_all example_backends (hybrid 2)
               [u "你好"])) (u "你好") = true.
Proof. repeat split; vm_compute; lia. Qed.

(** ** Coverage of [translate_all] *)

Lemma translate_all_local_only (B : Translator.backends)
    (t : Translator.translator) (l : list pystr) :
  (Translator.threshold t = -1)%Z
  \/ Translator.google_translate_ready t = false
  \/ (Translator.threshold t < -1)%Z ->
  Translator.translate_all B t l = Translator.argos_each B t l ([], []).
Proof.
  intros H. unfold Translator.translate_all.
  destruct (Translator.threshold t =? -1)%Z eqn:E1; [reflexivity|].
  apply Z.eqb_neq in E1.
  destruct H as [H | [H | H]]; [contradiction | |].
  - rewrite H, andb_false_r. reflexivity.
  - assert (E2 : (Translator.threshold t =? 0)%Z = false)
      by (apply Z.eqb_neq; lia).
    assert (E3 : (0 <? Translator.threshold t)%Z = false)
      by (apply Z.ltb_ge; lia).
    rewrite E2, E3, andb_false_r. reflexivity.
Qed.

Lemma translate_all_remote_only (B : Translator.backends)
    (t : Translator.translator) (l : list pystr) :
  (Translator.threshold t = 0)%Z ->
  Translator.google_translate_ready t = true ->
  Translator.translate_all B t l =
  (Translator.translate_batch_with_google_api B t l,
   [Translator.CallGoogleBatch l]).
Proof.
  intros H0 Hr. unfold Translator.translate_all.
  rewrite H0, Hr. reflexivity.
Qed.

Lemma get_not_None (d : dict) (k : pystr) :
  get d k <> None <-> In k (keys d).
Proof.
  rewrite get_None. destruct (in_dec (list_eq_dec N.eq_dec) k (keys d));
    tauto.
Qed.

(** translate_local.py sends every string to the local capability. *)
Lemma local_translate_all_total (argos : pystr -> option pystr)
    (translator_ready : bool) (strings_list : list pystr) (s : pystr) :
  In s strings_list ->
  get (TranslatorLocal.translate_all argos translator_ready strings_list) s
  <> None.
Proof.
  intros H. apply get_not_None. unfold TranslatorLocal.translate_all.
  apply (In_keys_fold_set
           (TranslatorLocal.translate_text argos translator_ready)).
  left; exact H.
Qed.

(** C4 (as amended): the mapping [translate_all] returns has an entry
    for every input string when everything goes to the local capability
    (threshold -1, remote not ready, or threshold below -1), and when
    everything goes to the remote one (threshold 0, remote ready) as
    long as each status-200 response carries a translation for every
    string of its batch.  With a positive threshold T and the remote
    ready, it has an entry for every input string of length in [3, T),
    for every input string of length >= T under the same condition on
    the responses, and no entry for an input string shorter than both 3
    and T. *)
Theorem C4_translate_all_coverage (B : Translator.backends)
    (t : Translator.translator) (strings_list : list pystr) (s : pystr) :
  In s strings_list ->
  let result := fst (Translator.translate_all B t strings_list) in
  ((Translator.threshold t = -1)%Z
   \/ Translator.google_translate_ready t = false
   \/ (Translator.threshold t < -1)%Z ->
   get result s <> None)
  /\ ((Translator.threshold t = 0)%Z ->
      Translator.google_translate_ready t = true ->
      responses_parallel B strings_list = true ->
      get result s <> None)
  /\ ((0 < Translator.threshold t)%Z ->
      Translator.google_translate_ready t = true ->
      (3 <= len s -> (Z.of_nat (len s) < Translator.threshold t)%Z ->
       get result s <> None)
      /\ ((Translator.threshold t <= Z.of_nat (len s))%Z ->
          responses_parallel B (Translator.long_strings t strings_list) = true ->
          get result s <> None)
      /\ (len s < 3 -> (Z.of_nat (len s) < Translator.threshold t)%Z ->
          get result s = None)).
Proof.
  intros Hin result. subst result. split; [|split].
  - intros H. rewrite translate_all_local_only by exact H.
    apply get_not_None, argos_each_keys. left; exact Hin.
  - intros H0 Hr Hp. rewrite translate_all_remote_only by assumption.
    apply get_not_None, google_keys_lower; assumption.
  - intros Ht Hr. split; [|split].
    + intros H3 HT. apply get_not_None, hybrid_keys; try assumption.
      left. apply filter_In. split; [exact Hin|].
      apply andb_true_iff; split; [apply Nat.leb_le | apply Z.ltb_lt];
        assumption.
    + intros HT Hp. apply get_not_None, hybrid_keys; try assumption.
      right. apply google_keys_lower; [exact Hp|].
      apply filter_In. split; [exact Hin | apply Z.leb_le; exact HT].
    + intros H3 HT. apply get_None. intros Hk.
      apply hybrid_keys in Hk; try assumption.
      destruct Hk as [Hk | Hk].
      * apply filter_In in Hk. destruct Hk as [_ Hk].
        apply andb_true_iff in Hk. destruct Hk as [Hk _].
        apply Nat.leb_le in Hk. lia.
      * apply google_keys_upper, filter_In in Hk. destruct Hk as [_ Hk].
        apply Z.leb_le in Hk. lia.
Qed.

Lemma C4_translate_all_coverage_witness :
  In (u "你好世界啊") [u "你好世界啊"; u "传感器"; u "你好"]
  /\ (0 < Translator.threshold (hybrid 5))%Z
  /\ Translator.google_translate_ready (hybrid 5) = true
  /\ (Translator.threshold (hybrid 5) <= Z.of_nat (len (u "你好世界啊")))%Z
  /\ responses_parallel example_backends
       (Translator.long_strings (hybrid 5) [u "你好世界啊"; u "传感器"; u "你好"]) = true
  /\ get (fst (Translator.translate_all example_backends (hybrid 5)
                 [u "你好世界啊"; u "传感器"; u "你好"])) (u "你好世界啊")
     <> None.
Proof.
  split; [left; reflexivity|]. split; [reflexivity|].
  split; [reflexivity|]. split; [vm_compute; discriminate|].
  split; [reflexivity|].
  refine (proj1 (proj2 (proj2 (proj2
            (C4_translate_all_coverage example_backends (hybrid 5)
               [u "你好世界啊"; u "传感器"; u "你好"] (u "你好世界啊")
               (or_introl eq_refl))) eq_refl eq_refl)) _ eq_refl).
  vm_compute; discriminate.
Defined.

(** C4 as stated fails: with threshold 5 and the remote ready, an input
    string of length 2 has no entry in the mapping returned. *)
Lemma C4_short_string_dropped :
  In (u "你好") [u "你好世界啊"; u "你好"]
  /\ get (fst (Translator.translate_all example_backends (hybrid 5)
                 [u "你好世界啊"; u "你好"])) (u "你好") = None.
Proof. split; [right; left; reflexivity | reflexivity]. Qed.

(** ** Loading the store *)

(** C3 (as amended): the Translator's loader returns an empty mapping
    when no file exists, and also when the file exists but [json.load]
    fails on it: the error is caught and the run goes on with the empty
    mapping.  The Applicator's loader reports failure in both cases, and
    its run then returns at once: no target file is touched and no
    counter moves. *)
Theorem C3_loading_a_missing_or_unparsable_store
    (raw : bytes) (pf : platform) (sh : shutil) (fs : filesystem)
    (tg : target) (create_backup_flag : bool) :
  Translator.load_existing_translations Absent = []
  /\ Translator.load_existing_translations (Corrupt raw) = []
  /\ load_translations Absent = None
  /\ load_translations (Corrupt raw) = None
  /\ Applicator.run pf sh Absent fs tg create_backup_flag
     = ({| translations := []; backup_made := false; files_modified := 0;
           replacements_made := 0 |}, fs)
  /\ Applicator.run pf sh (Corrupt raw) fs tg create_backup_flag
     = ({| translations := []; backup_made := false; files_modified := 0;
           replacements_made := 0 |}, fs).
Proof. repeat split. Qed.

(** C3 as stated fails for the Translator: on an unparsable store file
    the loader answers with the empty mapping instead of failing, the
    run is not aborted, and the file is replaced by a store that holds
    the new translations only. *)
Lemma C3_unparsable_store_is_overwritten :
  Translator.load_existing_translations (Corrupt [x7b; x22]) = []
  /\ Translator.run example_backends (local_only (-1)) example_writer
       (Corrupt [x7b; x22]) [u "你好"]
     = (Stored [(u "你好", u "hello")], [Translator.CallArgos (u "你好")]).
Proof. split; reflexivity. Qed.

(** ** Reading and writing back a file *)

Lemma read_with_first (pf : platform) (b : bytes) (e : encoding)
    (original : pystr) (encs : list encoding) :
  In e encs ->
  decode pf e b = Some original ->
  (forall e', In e' (tried_before e encs) -> decode pf e' b = None) ->
  read_with pf encs b = Some (original, e).
Proof.
  induction encs as [|x encs IH]; simpl; [tauto|].
  intros Hin Hd Hb. destruct (encoding_eqb x e) eqn:E.
  - assert (x = e) by (destruct x, e; simpl in E; congruence). subst x.
    rewrite Hd. reflexivity.
  - rewrite (Hb x (or_introl eq_refl)).
    apply IH.
    + destruct Hin as [-> | Hin]; [|exact Hin].
      destruct e; discriminate E.
    + exact Hd.
    + intros e' He'. apply Hb. right; exact He'.
Qed.

Lemma read_with_none (pf : platform) (b : bytes) (encs : list encoding) :
  (forall e, In e encs -> decode pf e b = None) ->
  read_with pf encs b = None.
Proof.
  induction encs as [|x encs IH]; simpl; [reflexivity|].
  intros H. rewrite (H x (or_introl eq_refl)). apply IH.
  intros e He; apply H; right; exact He.
Qed.

Lemma all_encodings (e : encoding) : In e encodings.
Proof. destruct e; simpl; auto. Qed.

(** C9: the file is written back with the encoding that decoded it, the
    first of UTF-8, GBK, GB2312, UTF-16 to decode without error, and
    only when the content after substitution differs from the content
    read.  When the two are equal, or when none of the four encodings
    decodes the file, the file system is left as it was. *)
Theorem C9_write_back_same_encoding_only_if_changed
    (pf : platform) (app : applicator) (fs : filesystem) (file_path : path)
    (b : bytes) :
  fs_get fs file_path = Some b ->
  let r := apply_translations_to_file pf app fs file_path in
  ((forall e, decode pf e b = None) ->
   effect r = NotWritten /\ fs_after r = fs /\ returned r = false)
  /\ (forall e original,
        decode pf e b = Some original ->
        (forall e', In e' (tried_before e encodings) ->
                    decode pf e' b = None) ->
        let final := content (substitute (translations app) original) in
        (final = original ->
         effect r = NotWritten /\ fs_after r = fs /\ returned r = false)
        /\ (final <> original ->
            effect r = WriteWith e final
            /\ fs_after r
               = fs_set fs file_path
                   (match encode pf e final with
                    | Some b' => b'
                    | None => []
                    end))).
Proof.
  intros Hget r. subst r. unfold apply_translations_to_file. rewrite Hget.
  split.
  - intros Hnone. rewrite read_with_none by (intros; apply Hnone).
    repeat split.
  - intros e original Hd Hb. cbv zeta.
    rewrite (read_with_first pf b e original encodings
               (all_encodings e) Hd Hb).
    split.
    + intros Heq. rewrite Heq, eqb_refl. repeat split.
    + intros Hne. apply eqb_neq in Hne. rewrite Hne.
      destruct (encode pf e _); split; reflexivity.
Qed.

Lemma C9_write_back_witness :
  fs_get example_fs (u "a.js")
  = Some (list_byte_of_string "var x = '你好世界';")
  /\ decode example_platform UTF8 (list_byte_of_string "var x = '你好世界';")
     = Some (u "var x = '你好世界';")
  /\ content (substitute (translations example_applicator)
                (u "var x = '你好世界';")) <> u "var x = '你好世界';"
  /\ effect (apply_translations_to_file example_platform example_applicator
               example_fs (u "a.js"))
     = WriteWith UTF8 (u "var x = 'Hello World';")
  /\ fs_after (apply_translations_to_file example_platform
                 example_applicator example_fs (u "a.js"))
     = [(u "a.js", list_byte_of_string "var x = 'Hello World';")].
Proof.
  split; [reflexivity|]. split; [reflexivity|].
  split; [vm_compute; discriminate|].
  refine (proj2 (proj2 (C9_write_back_same_encoding_only_if_changed
            example_platform example_applicator example_fs (u "a.js")
            (list_byte_of_string "var x = '你好世界';") eq_refl)
          UTF8 (u "var x = '你好世界';") eq_refl _) _).
  - intros e' [].
  - vm_compute; discriminate.
Defined.

(** ** The extraction grammar *)

Lemma match_seq_sound (p : list atom) :
  forall s n, match_seq p s = Some n ->
              n <= List.length s /\ matches p (firstn n s).
Proof.
  induction p as [|[cls|cls] p IHp].
  - intros s n [= <-]. split; [simpl; lia | constructor].
  - intros [|x s] n; simpl; [discriminate|].
    destruct (cls x) eqn:Ex; [|discriminate].
    destruct (match_seq p s) as [m|] eqn:Em; [|discriminate].
    intros [= <-]. destruct (IHp _ _ Em) as [Hle Hm].
    split; [simpl; lia | simpl; constructor; assumption].
  - induction s as [|x s IHs]; intros n H.
    + simpl in H. destruct (IHp _ _ H) as [Hle Hm].
      split; [exact Hle | apply matches_star_stop; exact Hm].
    + simpl in H. destruct (cls x) eqn:Ex.
      * change ((fix star (s : pystr) : option nat :=
                   match s with
                   | [] => match_seq p []
                   | x :: s' =>
                       if cls x
                       then match star s' with
                            | Some n => Some (S n)
                            | None => match_seq p s
                            end
                       else match_seq p s
                   end) s)
          with (match_seq (Star cls :: p) s) in H.
        destruct (match_seq (Star cls :: p) s) as [m|] eqn:Em.
        -- injection H as <-. destruct (IHs _ eq_refl) as [Hle Hm].
           split; [simpl; lia|]. simpl firstn.
           apply matches_star_step; assumption.
        -- destruct (IHp _ _ H) as [Hle Hm].
           split; [exact Hle | apply matches_star_stop; exact Hm].
      * destruct (IHp _ _ H) as [Hle Hm].
        split; [exact Hle | apply matches_star_stop; exact Hm].
Qed.

Lemma match_here_sound (p : pattern) (s : pystr) (n : nat) :
  match_here p s = Some n ->
  exists alt, In alt p /\ matches alt (firstn n s).
Proof.
  induction p as [|alt p IH]; simpl; [discriminate|].
  destruct (match_seq alt s) as [m|] eqn:E.
  - intros [= <-]. exists alt. split; [left; reflexivity|].
    apply (match_seq_sound alt s m E).
  - intros H. destruct (IH H) as (a & Ha & Hm). exists a; auto.
Qed.

Lemma findall_go_sound (p : pattern) (s : pystr) :
  forall skip m, In m (findall_go p s skip) ->
                 exists alt, In alt p /\ matches alt m.
Proof.
  induction s as [|x s IH]; intros skip m; simpl.
  - destruct skip; [|intros []].
    destruct (match_here p []) as [n|] eqn:E; [|intros []].
    intros [<- | []]. destruct (match_here_sound p [] n E) as (a & Ha & Hm).
    exists a. split; [exact Ha|]. rewrite firstn_nil in Hm. exact Hm.
  - destruct skip as [|k]; [|apply IH].
    destruct (match_here p (x :: s)) as [n|] eqn:E; [|apply IH].
    intros [<- | H]; [|eapply IH, H].
    apply (match_here_sound p (x :: s) n E).
Qed.

Lemma findall_sound (p : pattern) (s m : pystr) :
  In m (findall p s) -> exists alt, In alt p /\ matches alt m.
Proof. apply findall_go_sound. Qed.

Lemma matches_star_all (cls : N -> bool) (s : pystr) :
  matches [Star cls] s -> Forall (fun c => cls c = true) s.
Proof.
  intros H. remember [Star cls] as p eqn:Ep.
  induction H; inversion Ep; subst.
  - inversion H; constructor.
  - constructor; auto.
Qed.

Lemma matches_star_one (cls cls' : N -> bool) (s : pystr) :
  matches [Star cls; One cls'] s ->
  exists mid c, s = mid ++ [c] /\ Forall (fun c => cls c = true) mid
                /\ cls' c = true.
Proof.
  intros H. remember [Star cls; One cls'] as p eqn:Ep.
  induction H; inversion Ep; subst.
  - inversion H; subst. inversion H4; subst.
    exists [], x. repeat split; auto.
  - destruct (IHmatches eq_refl) as (mid & c & -> & Hmid & Hc).
    exists (x :: mid), c. repeat split; auto.
Qed.

Lemma chinese_not_space (c : N) : chinese c = true -> is_space c = false.
Proof.
  unfold chinese, is_space. intros H. bool_to_prop H.
  apply not_true_iff_false. intros H'. bool_to_prop H'. lia.
Qed.

Lemma chinese_punctuation_chars :
  chinese_punctuation
  = [0xFF0C; 0x3002; 0x3001; 0xFF1A; 0xFF1B; 0xFF01; 0xFF1F]%N.
Proof. reflexivity. Qed.

Lemma inner_not_latin (c : N) : inner c = true -> is_latin_letter c = false.
Proof.
  unfold inner, chinese, is_space. rewrite chinese_punctuation_chars.
  unfold existsb, is_latin_letter. intros H. bool_to_prop H.
  apply not_true_iff_false. intros H'. bool_to_prop H'. lia.
Qed.

Lemma chinese_inner (c : N) : chinese c = true -> inner c = true.
Proof. unfold inner. intros ->. reflexivity. Qed.

Lemma last_app_one (l : pystr) (x d : N) : last (l ++ [x]) d = x.
Proof. apply last_last. Qed.

Lemma pattern1_run (alt : list atom) (m : pystr) :
  In alt pattern1 -> matches alt m -> chinese_run m.
Proof.
  intros [<- | [<- | []]] H.
  - inversion H; subst. apply matches_star_one in H4.
    destruct H4 as (mid & c & -> & Hmid & Hc).
    repeat split.
    + discriminate.
    + constructor; [apply chinese_inner; assumption|].
      apply Forall_app. split; [exact Hmid|].
      constructor; [apply chinese_inner; exact Hc | constructor].
    + assumption.
    + change (x :: mid ++ [c]) with ((x :: mid) ++ [c]).
      rewrite last_app_one. exact Hc.
  - inversion H; subst. inversion H4; subst.
    repeat split; try assumption; [discriminate|].
    constructor; [apply chinese_inner; assumption | constructor].
Qed.

Lemma Forall_last (P : N -> Prop) (m : pystr) (d : N) :
  m <> [] -> Forall P m -> P (last m d).
Proof.
  intros Hne H. destruct (exists_last Hne) as (l & x & ->).
  rewrite last_app_one. apply Forall_app in H. destruct H as [_ H].
  inversion H; assumption.
Qed.

Lemma pattern2_run (alt : list atom) (m : pystr) :
  In alt pattern2 -> matches alt m -> chinese_run m.
Proof.
  intros [<- | []] H. inversion H; subst.
  apply matches_star_all in H4.
  assert (Hall : Forall (fun c => chinese c = true) (x :: s))
    by (constructor; assumption).
  repeat split.
  - discriminate.
  - eapply Forall_impl; [|exact Hall]. apply chinese_inner.
  - assumption.
  - apply (Forall_last (fun c => chinese c = true)); [discriminate|exact Hall].
Qed.

Lemma lstrip_id (m : pystr) :
  is_space (hd 0%N m) = false -> lstrip m = m.
Proof.
  destruct m as [|c m]; simpl; [reflexivity|]. intros ->. reflexivity.
Qed.

Lemma rstrip_id (m : pystr) :
  is_space (last m 0%N) = false -> rstrip m = m.
Proof.
  unfold rstrip. destruct m as [|c m] using rev_ind; [reflexivity|].
  rewrite last_app_one, rev_unit. simpl. intros ->.
  simpl. rewrite rev_involutive. reflexivity.
Qed.

Lemma strip_run (m : pystr) : chinese_run m -> strip m = m.
Proof.
  intros (_ & _ & Hh & Hl). unfold strip.
  rewrite lstrip_id by (apply chinese_not_space; exact Hh).
  apply rstrip_id, chinese_not_space, Hl.
Qed.

Lemma extract_loop_sound (cond : pystr -> bool) (l acc : list pystr)
    (r : pystr) :
  In r (fold_left
          (fun chinese_strings match_ =>
             if cond (strip match_)
             then set_add (strip match_) chinese_strings
             else chinese_strings) l acc) ->
  In r acc \/ exists m, In m l /\ r = strip m /\ cond r = true.
Proof.
  revert acc; induction l as [|x l IH]; intros acc; simpl.
  - auto.
  - intros H. apply IH in H. destruct H as [H | (m & Hm & Hr & Hc)].
    + destruct (cond (strip x)) eqn:E.
      * apply In_set_add in H. destruct H as [-> | H]; [right | left; exact H].
        exists x. auto.
      * left; exact H.
    + right. exists m. auto.
Qed.

Lemma extract_sound (content r : pystr) :
  In r (extract_chinese_strings content) -> chinese_run r.
Proof.
  unfold extract_chinese_strings. intros H.
  apply (extract_loop_sound
           (fun cleaned => nonempty cleaned && (1 <=? len cleaned)
                           && search_class chinese cleaned)) in H.
  destruct H as [[] | (m & Hm & -> & _)].
  apply In_to_set, in_app_or in Hm.
  assert (Hrun : chinese_run m).
  { destruct Hm as [Hm | Hm]; apply findall_sound in Hm;
      destruct Hm as (alt & Halt & Hmatch).
    - eapply pattern1_run; eassumption.
    - eapply pattern2_run; eassumption. }
  rewrite strip_run by exact Hrun. exact Hrun.
Qed.

Lemma fold_left_pointwise (A B : Type) (f g : A -> B -> A) (l : list B) :
  (forall a b, f a b = g a b) ->
  forall a, fold_left f l a = fold_left g l a.
Proof.
  intros H. induction l as [|b l IH]; intros a; simpl.
  - reflexivity.
  - rewrite H. apply IH.
Qed.

Lemma extract_local_same (content : pystr) :
  extract_chinese_strings_local content = extract_chinese_strings content.
Proof.
  unfold extract_chinese_strings_local, extract_chinese_strings.
  apply fold_left_pointwise. intros acc m.
  destruct (strip m); reflexivity.
Qed.

Lemma extract_from_file_sound (pf : platform) (fs : filesystem)
    (file_path : path) (r : pystr) :
  In r (extract_chinese_strings_from_file pf fs file_path) -> chinese_run r.
Proof.
  unfold extract_chinese_strings_from_file.
  destruct (fs_get fs file_path) as [b|]; [|intros []].
  destruct (read_with pf encodings b) as [[content e]|]; [|intros []].
  apply extract_sound.
Qed.

(** C7: every string the extraction routine returns is made only of
    characters of the three CJK ranges, whitespace and the punctuation
    marks [，。、：；！？], contains a CJK character, starts and ends
    with a CJK character (so whitespace and punctuation are interior
    and stripping changes nothing), and holds no Latin letter; the
    empty text gives the empty set.  The routine of translate_local.py
    returns the same set. *)
Theorem C7_extracted_strings_are_chinese_runs (content r : pystr) :
  In r (extract_chinese_strings content) ->
  Forall (fun c => chinese c || is_space c
                   || existsb (N.eqb c) (u "，。、：；！？") = true) r
  /\ existsb chinese r = true
  /\ chinese (hd 0%N r) = true
  /\ chinese (last r 0%N) = true
  /\ is_space (hd 0%N r) = false
  /\ is_space (last r 0%N) = false
  /\ strip r = r
  /\ Forall (fun c => is_latin_letter c = false) r
  /\ extract_chinese_strings [] = []
  /\ extract_chinese_strings_local content = extract_chinese_strings content.
Proof.
  intros H. pose proof (extract_sound content r H) as Hrun.
  pose proof Hrun as (Hne & Hall & Hh & Hl).
  repeat split; auto using chinese_not_space, strip_run, extract_local_same.
  - destruct r as [|c r]; [congruence|]. simpl in *. rewrite Hh. reflexivity.
  - eapply Forall_impl; [|exact Hall]. apply inner_not_latin.
Qed.

Lemma C7_extracted_strings_witness :
  In (u "你好 世界")
     (extract_chinese_strings (u "var x = '你好 世界Rate，好'; // 传感器采样Rate"))
  /\ extract_chinese_strings (u "var x = '你好 世界Rate，好'; // 传感器采样Rate")
     = [u "你好 世界"; u "好"; u "传感器采样"; u "你好"; u "世界"]
  /\ strip (u "你好 世界") = u "你好 世界"
  /\ Forall (fun c => is_latin_letter c = false) (u "你好 世界").
Proof.
  split; [left; reflexivity|]. split; [reflexivity|].
  pose proof (C7_extracted_strings_are_chinese_runs
                (u "var x = '你好 世界Rate，好'; // 传感器采样Rate")
                (u "你好 世界") (or_introl eq_refl))
    as (_ & _ & _ & _ & _ & _ & Hs & Hl & _).
  split; [exact Hs | exact Hl].
Defined.

(** ** Occurrences, [count] and [replace] *)

Lemma startswith_iff (s p : pystr) :
  startswith s p = true <-> exists r, s = p ++ r.
Proof.
  revert s; induction p as [|y p IH]; intros s; simpl.
  - split; [exists s; reflexivity | reflexivity].
  - destruct s as [|x s].
    + split; [discriminate | intros (r & H); discriminate H].
    + rewrite andb_true_iff, N.eqb_eq, IH. split.
      * intros (-> & r & ->). exists r; reflexivity.
      * intros (r & H). inversion H; subst. split; [reflexivity|].
        exists r; reflexivity.
Qed.

Lemma replace_go_skip (old new : pystr) (s : pystr) :
  forall k, replace_go old new s k = replace_go old new (skipn k s) 0.
Proof.
  induction s as [|c s IH]; intros [|k]; simpl; try reflexivity.
  apply IH.
Qed.

Lemma replace_go_nil (old new : pystr) : replace_go old new [] 0 = [].
Proof. reflexivity. Qed.

Lemma replace_go_hit (old new rest : pystr) :
  old <> [] ->
  replace_go old new (old ++ rest) 0 = new ++ replace_go old new rest 0.
Proof.
  destruct old as [|c old]; [congruence|]. intros _.
  assert (Hs : startswith ((c :: old) ++ rest) (c :: old) = true)
    by (apply startswith_iff; exists rest; reflexivity).
  simpl app in *. cbn [replace_go]. rewrite Hs. f_equal.
  rewrite replace_go_skip. simpl pred. unfold len.
  rewrite skipn_app, Nat.sub_diag, skipn_all. reflexivity.
Qed.

Lemma replace_go_miss (old new : pystr) (c : N) (s : pystr) :
  startswith (c :: s) old = false ->
  replace_go old new (c :: s) 0 = c :: replace_go old new s 0.
Proof. intros H. cbn [replace_go]. rewrite H. reflexivity. Qed.

Lemma replace_nonempty (s old new : pystr) :
  old <> [] -> replace s old new = replace_go old new s 0.
Proof. destruct old; [congruence | reflexivity]. Qed.

Lemma count_nonempty (s sub : pystr) :
  sub <> [] -> count s sub = count_go sub s 0.
Proof. destruct sub; [congruence | reflexivity]. Qed.

Lemma occurs_cons (sub s : pystr) (c : N) :
  occurs sub s -> occurs sub (c :: s).
Proof. intros (l & r & ->). exists (c :: l), r. reflexivity. Qed.

Lemma occurs_prefix (sub r : pystr) : occurs sub (sub ++ r).
Proof. exists [], r. reflexivity. Qed.

Lemma occurs_app_r (sub p s : pystr) : occurs sub s -> occurs sub (p ++ s).
Proof.
  intros (l & r & ->). exists (p ++ l), r. rewrite app_assoc. reflexivity.
Qed.

(** An occurrence in [c :: s] starts at the head or lies in [s]. *)
Lemma occurs_cons_inv (sub s : pystr) (c : N) :
  occurs sub (c :: s) -> startswith (c :: s) sub = true \/ occurs sub s.
Proof.
  intros ([|x l] & r & H).
  - left. apply startswith_iff. exists r. exact H.
  - right. simpl in H. inversion H; subst. exists l, r. reflexivity.
Qed.

Lemma count_go_no_occurrence (sub s : pystr) :
  ~ occurs sub s -> count_go sub s 0 = 0.
Proof.
  induction s as [|c s IH]; intros H; simpl; [reflexivity|].
  destruct (startswith (c :: s) sub) eqn:E.
  - exfalso. apply H. apply startswith_iff in E. destruct E as (r & ->).
    apply occurs_prefix.
  - apply IH. intros Ho. apply H, occurs_cons, Ho.
Qed.

Lemma replace_go_count_zero (old new s : pystr) :
  count_go old s 0 = 0 -> replace_go old new s 0 = s.
Proof.
  induction s as [|c s IH]; simpl; [reflexivity|].
  destruct (startswith (c :: s) old); [discriminate|].
  intros H. rewrite IH by exact H. reflexivity.
Qed.

Lemma startswith_app_cases (a t p : pystr) :
  startswith (a ++ t) p = true ->
  startswith a p = true \/ startswith p a = true.
Proof.
  revert p; induction a as [|x a IH]; intros p H.
  - right. reflexivity.
  - destruct p as [|y p]; [left; reflexivity|].
    simpl in H |- *. apply andb_true_iff in H. destruct H as [Hxy H].
    apply N.eqb_eq in Hxy. subst y. rewrite !N.eqb_refl. simpl.
    apply IH, H.
Qed.

Lemma tails_self (s : pystr) : In s (tails s).
Proof. destruct s; left; reflexivity. Qed.

Lemma tails_tail (a : N) (p k : pystr) :
  In (a :: p) (tails k) -> In p (tails k).
Proof.
  induction k as [|x k IH]; simpl.
  - intros [H | []]. discriminate H.
  - intros [H | H].
    + inversion H; subst. right. apply tails_self.
    + right. apply IH, H.
Qed.

Lemma meets_false (a b : pystr) :
  meets a b = false ->
  forall t, In t (tails a) -> t <> [] ->
            startswith b t = false /\ startswith t b = false.
Proof.
  intros H t Ht Hne. unfold meets in H.
  destruct (startswith b t || startswith t b) eqn:E.
  - exfalso. rewrite <- not_true_iff_false in H. apply H.
    apply existsb_exists. exists t. split; [exact Ht|].
    rewrite E. destruct t; [congruence | reflexivity].
  - apply orb_false_iff in E. exact E.
Qed.

Lemma can_overlap_apart (v k : pystr) :
  can_overlap v k = false -> apart v k.
Proof.
  unfold can_overlap. intros H. apply orb_false_iff in H.
  destruct H as [H1 H2]. split; apply meets_false; assumption.
Qed.

(** An occurrence of [k'] in [v ++ t] that cannot overlap [v] lies in
    [t]. *)
Lemma occurs_after_insert (v k' t : pystr) :
  (forall u, In u (tails v) -> u <> [] ->
             startswith k' u = false /\ startswith u k' = false) ->
  occurs k' (v ++ t) -> occurs k' t.
Proof.
  induction v as [|b v IH]; intros H Ho; [exact Ho|].
  change ((b :: v) ++ t) with (b :: (v ++ t)) in Ho.
  apply occurs_cons_inv in Ho. destruct Ho as [Hs | Ho].
  - exfalso.
    destruct (H (b :: v) (tails_self _) ltac:(discriminate)) as [H1 H2].
    change (b :: v ++ t) with ((b :: v) ++ t) in Hs.
    apply startswith_app_cases in Hs. destruct Hs; congruence.
  - apply IH; [|exact Ho].
    intros u Hu. apply H. right; exact Hu.
Qed.

(** An end of [k] that begins the replaced string begins the original,
    when [k] and the non-empty replacement cannot overlap. *)
Lemma prefix_of_replaced (old new k : pystr) (s : pystr) :
  (forall u, In u (tails k) -> u <> [] ->
             startswith new u = false /\ startswith u new = false) ->
  forall p, In p (tails k) ->
            startswith (replace_go old new s 0) p = true ->
            startswith s p = true.
Proof.
  intros H. induction s as [|c s IH]; intros p Hin Hp.
  - exact Hp.
  - destruct p as [|a p]; [reflexivity|].
    cbn [replace_go] in Hp. destruct (startswith (c :: s) old) eqn:E.
    + exfalso. destruct (H (a :: p) Hin ltac:(discriminate)) as [H1 H2].
      apply startswith_app_cases in Hp. destruct Hp; congruence.
    + simpl in Hp |- *. apply andb_true_iff in Hp. destruct Hp as [Ha Hp].
      rewrite Ha. simpl. apply IH; [|exact Hp].
      eapply tails_tail, Hin.
Qed.

Lemma occurs_replaced (old new k' : pystr) :
  old <> [] -> apart new k' ->
  forall n s, List.length s <= n ->
              occurs k' (replace_go old new s 0) ->
              occurs k' s /\ k' <> old.
Proof.
  intros Hold [Hnew Hk]. induction n as [|n IH]; intros s Hlen Ho.
  - destruct s; [|simpl in Hlen; lia]. split; [exact Ho|].
    intros ->. destruct Ho as (l & r & H). destruct l, old; try discriminate H.
    congruence.
  - destruct s as [|c s].
    + split; [exact Ho|].
      intros ->. destruct Ho as (l & r & H).
      destruct l, old; try discriminate H. congruence.
    + destruct (startswith (c :: s) old) eqn:E.
      * apply startswith_iff in E. destruct E as (rest & E).
        rewrite E in Ho |- *. rewrite replace_go_hit in Ho by exact Hold.
        apply occurs_after_insert in Ho; [|exact Hnew].
        assert (Hrest : List.length rest <= n).
        { apply (f_equal (@List.length N)) in E.
          rewrite length_app in E. simpl in E, Hlen.
          destruct old; [congruence|]. simpl in E. lia. }
        destruct (IH rest Hrest Ho) as [Ho' Hne].
        split; [apply occurs_app_r; exact Ho' | exact Hne].
      * rewrite replace_go_miss in Ho by exact E.
        simpl in Hlen.
        apply occurs_cons_inv in Ho. destruct Ho as [Hp | Ho].
        -- rewrite <- (replace_go_miss old new c s E) in Hp.
           apply (prefix_of_replaced old new k' (c :: s) Hk k'
                    (tails_self k')) in Hp.
           split.
           ++ apply startswith_iff in Hp. destruct Hp as (r & ->).
              apply occurs_prefix.
           ++ intros ->. congruence.
        -- destruct (IH s ltac:(lia) Ho) as [Ho' Hne].
           split; [apply occurs_cons; exact Ho' | exact Hne].
Qed.

Lemma nonempty_neq (s : pystr) : nonempty s = true -> s <> [].
Proof. destruct s; [discriminate | discriminate]. Qed.

Lemma In_valid (d : dict) (k v : pystr) :
  In (k, v) (valid_translations d) <->
  In (k, v) d /\ is_placeholder v = false.
Proof.
  unfold valid_translations. rewrite filter_In. simpl.
  rewrite negb_true_iff. tauto.
Qed.

Section Pass.

Variable d : dict.
Hypothesis Hclean : no_rebuild d = true.

Lemma clean_entry (k v : pystr) :
  In (k, v) d -> is_placeholder v = false ->
  k <> [] /\ escape v <> []
  /\ forall k' v', In (k', v') d -> is_placeholder v' = false ->
                   len k <= len k' -> apart (escape v) k'.
Proof.
  intros Hin Hv. unfold no_rebuild in Hclean.
  rewrite forallb_forall in Hclean.
  specialize (Hclean (k, v) (proj2 (In_valid d k v) (conj Hin Hv))).
  simpl in Hclean. rewrite !andb_true_iff in Hclean.
  destruct Hclean as [[Hk He] Hall].
  split; [apply nonempty_neq, Hk|]. split; [apply nonempty_neq, He|].
  intros k' v' Hin' Hv' Hlen. rewrite forallb_forall in Hall.
  apply can_overlap_apart, negb_true_iff.
  specialize (Hall (k', v') (proj2 (In_valid d k' v') (conj Hin' Hv'))).
  simpl in Hall. apply orb_true_iff in Hall. destruct Hall as [H | H].
  - apply Nat.ltb_lt in H. lia.
  - exact H.
Qed.

Lemma replaced_key_gone (k v c : pystr) :
  In (k, v) d -> is_placeholder v = false ->
  ~ occurs k (replace_go k (escape v) c 0).
Proof.
  intros Hin Hv Ho. destruct (clean_entry k v Hin Hv) as (Hk & He & Hd).
  destruct (occurs_replaced k (escape v) k Hk (Hd k v Hin Hv (le_n _))
              (List.length c) c (le_n _) Ho) as [_ Hne].
  congruence.
Qed.

Lemma loop_body_content (st : loop_state) (k v : pystr) :
  In (k, v) d -> is_placeholder v = false ->
  content (loop_body st (k, v)) = replace_go k (escape v) (content st) 0.
Proof.
  intros Hin Hv. destruct (clean_entry k v Hin Hv) as (Hk & _).
  unfold loop_body. rewrite Hv, (count_nonempty _ k Hk).
  destruct (0 <? count_go k (content st) 0) eqn:E; simpl.
  - apply replace_nonempty, Hk.
  - apply Nat.ltb_ge in E. symmetry. apply replace_go_count_zero. lia.
Qed.

Lemma loop_body_gone (done : list (pystr * pystr)) (st : loop_state)
    (k v : pystr) :
  incl done d -> In (k, v) d ->
  Forall (fun x => len k <= len (fst x)) done ->
  gone done (content st) ->
  gone (done ++ [(k, v)]) (content (loop_body st (k, v))).
Proof.
  intros Hincl Hin Hlonger Hgone k1 v1 Hin1 Hv1.
  destruct (is_placeholder v) eqn:Hv.
  - rewrite loop_body_placeholder by exact Hv.
    apply in_app_or in Hin1. destruct Hin1 as [H | [H | []]].
    + eapply Hgone; eassumption.
    + inversion H; subst. congruence.
  - rewrite loop_body_content by assumption.
    apply in_app_or in Hin1. destruct Hin1 as [H | [H | []]].
    + intros Ho.
      destruct (clean_entry k v Hin Hv) as (Hk & He & Hd).
      destruct (clean_entry k1 v1 (Hincl _ H) Hv1) as (Hk1 & _).
      rewrite Forall_forall in Hlonger.
      destruct (occurs_replaced k (escape v) k1 Hk
                  (Hd k1 v1 (Hincl _ H) Hv1 (Hlonger _ H))
                  (List.length (content st)) (content st) (le_n _) Ho)
        as [Ho' _].
      exact (Hgone k1 v1 H Hv1 Ho').
    + inversion H; subst. apply replaced_key_gone; assumption.
Qed.

Lemma loop_body_longer_gone (done todo : list (pystr * pystr))
    (st : loop_state) (x : pystr * pystr) :
  (forall kv, In kv d -> In kv done \/ In kv (x :: todo)) ->
  Forall (longer_first x) todo ->
  gone done (content st) ->
  Forall (longer_gone d) (performed st) ->
  Forall (longer_gone d) (performed (loop_body st x)).
Proof.
  intros Hsplit Hsorted Hgone Hperf. destruct x as [k v].
  unfold loop_body. destruct (is_placeholder v); [exact Hperf|].
  destruct (0 <? count (content st) k); [|exact Hperf].
  simpl. apply Forall_app. split; [exact Hperf|].
  constructor; [|constructor].
  intros k1 v1 Hin1 Hv1 Hlen. simpl in Hlen |- *.
  destruct (Hsplit _ Hin1) as [H | [H | H]].
  - eapply Hgone; eassumption.
  - inversion H; subst. lia.
  - rewrite Forall_forall in Hsorted. specialize (Hsorted _ H).
    unfold longer_first in Hsorted. simpl in Hsorted. lia.
Qed.

Lemma pass_invariant (todo : list (pystr * pystr)) :
  forall done st,
    incl done d -> incl todo d ->
    StronglySorted longer_first todo ->
    Forall (fun x => Forall (longer_first x) todo) done ->
    (forall kv, In kv d -> In kv done \/ In kv todo) ->
    gone done (content st) ->
    Forall (longer_gone d) (performed st) ->
    gone (done ++ todo) (content (fold_left loop_body todo st))
    /\ Forall (longer_gone d) (performed (fold_left loop_body todo st)).
Proof.
  induction todo as [|x todo IH]; intros done st Hd Ht Hs Hb Hsplit Hg Hp.
  - simpl. rewrite app_nil_r. auto.
  - simpl. inversion Hs; subst.
    assert (Hx : In x d) by (apply Ht; left; reflexivity).
    replace (done ++ x :: todo) with ((done ++ [x]) ++ todo)
      by (rewrite <- app_assoc; reflexivity).
    apply IH.
    + intros y Hy. apply in_app_or in Hy.
      destruct Hy as [Hy | [<- | []]]; auto.
    + intros y Hy. apply Ht. right; exact Hy.
    + assumption.
    + apply Forall_app. split; [|constructor; [assumption | constructor]].
      eapply Forall_impl; [|exact Hb]. intros y Hy.
      inversion Hy; assumption.
    + intros kv Hkv. destruct (Hsplit kv Hkv) as [H | [H | H]].
      * left. apply in_or_app. left; exact H.
      * left. apply in_or_app. right. left; exact H.
      * right; exact H.
    + destruct x as [k v]. apply loop_body_gone; try assumption.
      eapply Forall_impl; [|exact Hb]. intros y Hy.
      inversion Hy; subst. assumption.
    + eapply loop_body_longer_gone; eassumption.
Qed.

Lemma substitute_invariant (c : pystr) :
  gone d (content (substitute d c))
  /\ Forall (longer_gone d) (performed (substitute d c)).
Proof.
  pose proof (sorted_translations_perm d) as Hperm.
  destruct (pass_invariant (sorted_translations d) []
              {| content := c; file_replacements := 0; performed := [] |})
    as [Hg Hp].
  - intros x [].
  - intros x Hx. eapply Permutation_in; eassumption.
  - apply sorted_translations_sorted.
  - constructor.
  - intros kv Hkv. right.
    eapply Permutation_in; [apply Permutation_sym|]; eassumption.
  - intros k v [].
  - constructor.
  - split; [|exact Hp].
    intros k v Hin Hv. apply (Hg k v); [|exact Hv].
    simpl. eapply Permutation_in; [apply Permutation_sym|]; eassumption.
Qed.

(** A pass over a content in which no applicable key occurs does
    nothing. *)
Lemma pass_fixed (l : list (pystr * pystr)) (st : loop_state) :
  incl l d -> gone l (content st) -> fold_left loop_body l st = st.
Proof.
  induction l as [|[k v] l IH]; intros Hincl Hg; cbn [fold_left];
    [reflexivity|].
  assert (E : loop_body st (k, v) = st).
  { unfold loop_body. destruct (is_placeholder v) eqn:Hv; [reflexivity|].
    destruct (clean_entry k v (Hincl _ (or_introl eq_refl)) Hv) as (Hk & _).
    rewrite (count_nonempty _ k Hk), count_go_no_occurrence; [reflexivity|].
    apply (Hg k v); [left; reflexivity | exact Hv]. }
  rewrite E. apply IH.
  - intros y Hy. apply Hincl. right; exact Hy.
  - intros k1 v1 H1. apply Hg. right; exact H1.
Qed.

Lemma substitute_fixed (c : pystr) :
  gone d c ->
  substitute d c
  = {| content := c; file_replacements := 0; performed := [] |}.
Proof.
  intros Hg. unfold substitute. apply pass_fixed.
  - intros x Hx. eapply Permutation_in;
      [apply sorted_translations_perm | exact Hx].
  - intros k v Hin. apply Hg.
    eapply Permutation_in; [apply sorted_translations_perm | exact Hin].
Qed.

End Pass.

(** ** The replacements are performed longest key first *)

Lemma StronglySorted_snoc (A : Type) (R : A -> A -> Prop) (l : list A)
    (x : A) :
  StronglySorted R l -> Forall (fun y => R y x) l ->
  StronglySorted R (l ++ [x]).
Proof.
  induction 1 as [|y l Hs IH Hy]; intros Hall; simpl.
  - repeat constructor.
  - inversion Hall; subst. constructor; [apply IH; assumption|].
    apply Forall_app. split; [exact Hy | repeat constructor; assumption].
Qed.

Lemma pass_performed_sorted (l : list (pystr * pystr)) :
  forall st,
    StronglySorted longer_first l ->
    Forall (fun r => Forall (fun x => len (fst x) <= len (chinese_text r)) l)
      (performed st) ->
    StronglySorted key_not_longer (performed st) ->
    StronglySorted key_not_longer (performed (fold_left loop_body l st)).
Proof.
  induction l as [|[k v] l IH]; intros st Hs Hb Hp; cbn [fold_left].
  - exact Hp.
  - inversion Hs; subst.
    assert (Hb' : Forall (fun r => Forall (fun x => len (fst x)
                                           <= len (chinese_text r)) l)
                    (performed st)).
    { eapply Forall_impl; [|exact Hb]. intros r Hr.
      inversion Hr; assumption. }
    apply IH; [assumption | |]; unfold loop_body;
      destruct (is_placeholder v); try assumption;
      destruct (0 <? count (content st) k); try assumption; simpl.
    + apply Forall_app. split; [exact Hb'|].
      constructor; [|constructor]. simpl. exact H2.
    + apply StronglySorted_snoc; [exact Hp|].
      eapply Forall_impl; [|exact Hb]. intros r Hr.
      inversion Hr; subst. unfold key_not_longer. simpl. assumption.
Qed.

Lemma substitute_performed_sorted (d : dict) (c : pystr) :
  StronglySorted key_not_longer (performed (substitute d c)).
Proof.
  unfold substitute. apply pass_performed_sorted.
  - apply sorted_translations_sorted.
  - constructor.
  - constructor.
Qed.

(** C1 (as amended): the Applicator visits the entries in descending
    order of key length (a stable sort of the store), so the
    replacements it performs come longest key first; on the store
    {"系统": "system", "系统设置": "system settings"} and the content
    "系统设置" it yields "system settings".  When no translation can
    rebuild a key that has had its turn (every applicable key is
    non-empty, and every applicable translation, once escaped, is
    non-empty and cannot overlap an occurrence of an applicable key at
    least as long as the key it translates: neither occurs in the other
    and no non-empty end of one begins the other), at the moment a key
    is substituted the content holds no occurrence of any longer
    applicable key of the store, so no shorter key is substituted
    inside an occurrence of a longer one. *)
Theorem C1_longest_key_first (d : dict) (c : pystr) :
  Permutation (sorted_translations d) d
  /\ StronglySorted (fun a b => len (fst b) <= len (fst a))
       (sorted_translations d)
  /\ StronglySorted
       (fun r1 r2 => len (chinese_text r2) <= len (chinese_text r1))
       (performed (substitute d c))
  /\ content (substitute [(u "系统", u "system");
                          (u "系统设置", u "system settings")]
                (u "系统设置")) = u "system settings"
  /\ (no_rebuild d = true ->
      Forall (fun r =>
                forall k v, In (k, v) d -> is_placeholder v = false ->
                            len (chinese_text r) < len k ->
                            ~ occurs k (content_before r))
        (performed (substitute d c))).
Proof.
  split; [apply sorted_translations_perm|].
  split; [apply sorted_translations_sorted|].
  split; [apply substitute_performed_sorted|].
  split; [reflexivity|].
  intros Hclean. apply (substitute_invariant d Hclean c).
Qed.

Lemma C1_longest_key_first_witness :
  no_rebuild settings_store = true
  /\ content (substitute settings_store settings_content)
     = u "system settings，settings"
  /\ Forall (fun r =>
               forall k v,
                 In (k, v) settings_store ->
                 is_placeholder v = false ->
                 len (chinese_text r) < len k ->
                 ~ occurs k (content_before r))
       (performed (substitute settings_store settings_content)).
Proof.
  split; [reflexivity|]. split; [reflexivity|].
  exact (proj2 (proj2 (proj2 (proj2
           (C1_longest_key_first settings_store settings_content))))
           eq_refl).
Defined.

(** C1 as stated fails in its general part: when the longer key is
    translated by itself, the shorter key is then substituted inside the
    occurrence of the longer key, which is still in the content. *)
Lemma C1_short_key_substituted_inside_longer :
  In (u "系统设置", u "系统设置")
     [(u "系统设置", u "系统设置"); (u "系统", u "system")]
  /\ len (u "系统") < len (u "系统设置")
  /\ performed (substitute [(u "系统设置", u "系统设置");
                            (u "系统", u "system")] (u "系统设置"))
     = [ {| chinese_text := u "系统设置";
            escaped_translation := u "系统设置";
            occurrences := 1;
            content_before := u "系统设置" |};
         {| chinese_text := u "系统";
            escaped_translation := u "system";
            occurrences := 1;
            content_before := u "系统设置" |} ]
  /\ occurs (u "系统设置") (u "系统设置")
  /\ content (substitute [(u "系统设置", u "系统设置");
                          (u "系统", u "system")] (u "系统设置"))
     = u "system设置".
Proof.
  split; [left; reflexivity|]. split; [vm_compute; lia|].
  split; [reflexivity|]. split; [|reflexivity].
  exists [], []. reflexivity.
Qed.

(** ** Running the Applicator twice *)

Lemma apply_file_translations (pf : platform) (app : applicator)
    (fs : filesystem) (file_path : path) :
  translations (app_after (apply_translations_to_file pf app fs file_path))
  = translations app.
Proof.
  unfold apply_translations_to_file.
  destruct (fs_get fs file_path) as [b|]; [|reflexivity].
  destruct (read_with pf encodings b) as [[c e]|]; [|reflexivity].
  destruct (eqb _ c); [reflexivity|].
  destruct (encode pf e _); reflexivity.
Qed.

(** C8 (as amended): when no translation can rebuild a key that has had
    its turn (every applicable key is non-empty, and every applicable
    translation, once escaped, is non-empty and cannot overlap an
    occurrence of an applicable key at least as long as the key it
    translates), then after one application the occurrence count of
    every applicable key is zero, and a second pass over the resulting
    content performs no replacement and leaves it identical.  A second
    call on the file writes nothing, provided the file as the first
    call left it reads back, by the first encoding that decodes it, as
    the content the first call computed. *)
Theorem C8_second_run_changes_nothing (d : dict) (c : pystr) :
  no_rebuild d = true ->
  let once := content (substitute d c) in
  Forall (fun kv => is_placeholder (snd kv) = false ->
                    count once (fst kv) = 0) d
  /\ substitute d once
     = {| content := once; file_replacements := 0; performed := [] |}
  /\ forall pf app fs file_path b e,
       translations app = d ->
       fs_get fs file_path = Some b ->
       read_with pf encodings b = Some (c, e) ->
       let first := apply_translations_to_file pf app fs file_path in
       reads_back pf (fs_after first) file_path once = true ->
       apply_translations_to_file pf (app_after first) (fs_after first)
         file_path
       = {| returned := false; app_after := app_after first;
            fs_after := fs_after first; effect := NotWritten |}.
Proof.
  intros Hclean once.
  destruct (substitute_invariant d Hclean c) as [Hg _].
  fold once in Hg.
  assert (Hfix : substitute d once
                 = {| content := once; file_replacements := 0;
                      performed := [] |})
    by (apply substitute_fixed; assumption).
  split; [|split].
  - apply Forall_forall. intros [k v] Hin Hv. simpl in Hv |- *.
    destruct (clean_entry d Hclean k v Hin Hv) as (Hk & _).
    rewrite (count_nonempty _ k Hk).
    apply count_go_no_occurrence. exact (Hg k v Hin Hv).
  - exact Hfix.
  - intros pf app fs file_path b e Happ Hget Hread first Hback.
    pose proof (apply_file_translations pf app fs file_path) as Htr.
    fold first in Htr. rewrite Happ in Htr.
    unfold reads_back in Hback.
    unfold apply_translations_to_file at 1.
    destruct (fs_get (fs_after first) file_path) as [b'|];
      [|discriminate Hback].
    destruct (read_with pf encodings b') as [[c' e']|];
      [|discriminate Hback].
    apply eqb_eq in Hback. subst c'.
    rewrite Htr, Hfix. simpl. rewrite eqb_refl. reflexivity.
Qed.

Lemma C8_second_run_witness :
  no_rebuild settings_store = true
  /\ content (substitute settings_store settings_content)
     = u "system settings，settings"
  /\ substitute settings_store (u "system settings，settings")
     = {| content := u "system settings，settings"; file_replacements := 0;
          performed := [] |}
  /\ (let app := {| translations := settings_store; backup_made := false;
                    files_modified := 0; replacements_made := 0 |} in
      let first := apply_translations_to_file example_platform app
                     settings_fs (u "a.js") in
      returned first = true
      /\ apply_translations_to_file example_platform (app_after first)
           (fs_after first) (u "a.js")
         = {| returned := false; app_after := app_after first;
              fs_after := fs_after first; effect := NotWritten |}).
Proof.
  split; [reflexivity|]. split; [reflexivity|].
  split.
  - exact (proj1 (proj2
             (C8_second_run_changes_nothing settings_store settings_content
                eq_refl))).
  - split; [reflexivity|].
    exact (proj2 (proj2
             (C8_second_run_changes_nothing settings_store settings_content
                eq_refl))
             example_platform
             {| translations := settings_store; backup_made := false;
                files_modified := 0; replacements_made := 0 |}
             settings_fs (u "a.js")
             (list_byte_of_string "系统 设置，设置") UTF8
             eq_refl eq_refl eq_refl eq_refl).
Defined.

(** C8 as stated fails: when a translation still contains a key of the
    store, the first run leaves an occurrence of that key and the second
    run changes the content again.  It also fails on a file, whatever
    the store: the encoding is picked anew on every call, so a file
    that only GBK decodes, once written back in GBK, can be valid UTF-8
    and read as another text, in which the second call finds a key and
    writes again. *)
Lemma C8_second_run_changes_content :
  content (substitute [(u "系统", u "system"); (u "设置", u "系统 settings")]
             (u "设置")) = u "系统 settings"
  /\ count (u "系统 settings") (u "系统") = 1
  /\ content (substitute [(u "系统", u "system"); (u "设置", u "系统 settings")]
                (u "系统 settings")) = u "system settings"
  /\ u "system settings" <> u "系统 settings"
  /\ (let first := apply_translations_to_file two_codec_platform
                     gbk_applicator gbk_fs (u "a.js") in
      let second := apply_translations_to_file two_codec_platform
                      (app_after first) (fs_after first) (u "a.js") in
      no_rebuild (translations gbk_applicator) = true
      /\ effect first = WriteWith GBK (u "middle浣犲ソ")
      /\ count (u "middle浣犲ソ") (u "你好") = 0
      /\ fs_get (fs_after first) (u "a.js")
         = Some (list_byte_of_string "middle你好")
      /\ returned second = true
      /\ effect second = WriteWith UTF8 (u "middlehello")).
Proof.
  repeat split; try reflexivity. vm_compute; discriminate.
Qed.

(* ================================================================== *)
(** * Further properties *)
(* ================================================================== *)

(** ** Escaping, ordering and accounting in the Applicator *)

Lemma replace_single (s : pystr) (q : N) (new : pystr) :
  replace s [q] new
  = flat_map (fun c => if (c =? q)%N then new else [c]) s.
Proof.
  change (replace s [q] new) with (replace_go [q] new s 0).
  induction s as [|c s IH]; [reflexivity|].
  cbn [replace_go flat_map startswith len List.length pred].
  rewrite andb_true_r. destruct (c =? q)%N; rewrite IH; reflexivity.
Qed.

Lemma escape_flat_map (v : pystr) : escape v = flat_map escape_char v.
Proof.
  unfold escape, quote, apostrophe. rewrite !replace_single.
  induction v as [|c v IH]; [reflexivity|].
  cbn [flat_map]. rewrite flat_map_app, IH. f_equal.
  unfold escape_char, quote, apostrophe, backslash.
  destruct (c =? 34)%N eqn:E34.
  - reflexivity.
  - simpl. rewrite app_nil_r. destruct (c =? 39)%N; reflexivity.
Qed.

Lemma quotes_escaped_flat_map (v : pystr) :
  forall b, quotes_escaped b (flat_map escape_char v) = true.
Proof.
  induction v as [|c v IH]; intros b; [reflexivity|].
  cbn [flat_map]. unfold escape_char at 1.
  destruct (c =? 34)%N eqn:E34; [simpl; apply IH|].
  destruct (c =? 39)%N eqn:E39; [simpl; apply IH|].
  simpl. unfold is_quote. rewrite E34, E39. simpl. apply IH.
Qed.

Lemma escape_length (v : pystr) :
  List.length (escape v) = List.length v + List.length (filter is_quote v).
Proof.
  rewrite escape_flat_map.
  induction v as [|c v IH]; [reflexivity|].
  cbn [flat_map filter]. rewrite length_app, IH.
  unfold escape_char, is_quote.
  destruct (c =? 34)%N; [simpl; lia|].
  destruct (c =? 39)%N; simpl; lia.
Qed.

(** X1: in the escaped translation every double or single quote comes
    right after a backslash, and escaping adds exactly one character
    per quote. *)
Theorem X1_escape_puts_backslash_before_quotes (english_translation : pystr) :
  quotes_escaped false (escape english_translation) = true
  /\ List.length (escape english_translation)
     = List.length english_translation
       + List.length (filter is_quote english_translation).
Proof.
  split; [|apply escape_length].
  rewrite escape_flat_map. apply quotes_escaped_flat_map.
Qed.

Lemma sorted_same_length (n : nat) (l : list (pystr * pystr)) :
  Forall (fun kv => len (fst kv) = n) l -> sorted_translations l = l.
Proof.
  induction 1 as [|x l Hx Hl IH]; [reflexivity|].
  simpl. rewrite IH. apply insert_by_len_head.
  eapply Forall_impl; [|exact Hl].
  unfold longer_first. intros y Hy. lia.
Qed.

(** X2: the sort is stable: the entries whose keys have one given
    length are visited in the order the store lists them. *)
Theorem X2_equal_length_keys_keep_store_order (d : dict) (n : nat) :
  filter (fun kv => len (fst kv) =? n) (sorted_translations d)
  = filter (fun kv => len (fst kv) =? n) d.
Proof.
  rewrite <- sorted_translations_filter.
  apply (sorted_same_length n).
  apply Forall_forall. intros kv H. apply filter_In in H.
  destruct H as [_ H]. apply Nat.eqb_eq in H. exact H.
Qed.

Lemma count_go_skip (sub s : pystr) :
  forall k, count_go sub s k = count_go sub (skipn k s) 0.
Proof.
  induction s as [|c s IH]; intros [|k]; simpl; try reflexivity.
  apply IH.
Qed.

Lemma count_go_hit (old rest : pystr) :
  old <> [] ->
  count_go old (old ++ rest) 0 = S (count_go old rest 0).
Proof.
  destruct old as [|c old]; [congruence|]. intros _.
  assert (Hs : startswith ((c :: old) ++ rest) (c :: old) = true)
    by (apply startswith_iff; exists rest; reflexivity).
  simpl app in *. cbn [count_go]. rewrite Hs. f_equal.
  rewrite count_go_skip. simpl pred. unfold len.
  rewrite skipn_app, Nat.sub_diag, skipn_all. reflexivity.
Qed.

Lemma replace_go_length (old new : pystr) :
  old <> [] ->
  forall n s, List.length s <= n ->
    List.length (replace_go old new s 0)
    + count_go old s 0 * List.length old
    = List.length s + count_go old s 0 * List.length new.
Proof.
  intros Hold. induction n as [|n IH]; intros s Hlen.
  - destruct s; [reflexivity | simpl in Hlen; lia].
  - destruct s as [|c s]; [reflexivity|].
    destruct (startswith (c :: s) old) eqn:E.
    + apply startswith_iff in E. destruct E as (rest & E). rewrite E.
      rewrite replace_go_hit, count_go_hit by exact Hold.
      assert (Hrest : List.length rest <= n).
      { apply (f_equal (@List.length N)) in E.
        rewrite length_app in E. simpl in E, Hlen.
        destruct old; [congruence|]. simpl in E. lia. }
      specialize (IH rest Hrest). rewrite !length_app. lia.
    + rewrite replace_go_miss by exact E.
      cbn [count_go]. rewrite E. simpl in Hlen.
      specialize (IH s ltac:(lia)). simpl List.length. lia.
Qed.

Lemma replace_empty_length (new s : pystr) :
  List.length (new ++ flat_map (fun c => c :: new) s)
  = List.length s + S (List.length s) * List.length new.
Proof.
  rewrite length_app. induction s as [|c s IH]; simpl; [lia|].
  rewrite length_app. lia.
Qed.

(** [len(s.replace(old, new))] from [s.count(old)]. *)
Lemma replace_length (s old new : pystr) :
  List.length (replace s old new) + count s old * List.length old
  = List.length s + count s old * List.length new.
Proof.
  destruct old as [|c old].
  - unfold replace, count, len. rewrite replace_empty_length. simpl. lia.
  - apply (replace_go_length (c :: old) new ltac:(discriminate)
             (List.length s) s (le_n _)).
Qed.

Lemma count_pos_occurs (s k : pystr) : 0 < count s k <-> occurs k s.
Proof.
  destruct k as [|a k].
  - split; [intros _; exists [], s; reflexivity | simpl; lia].
  - change (count s (a :: k)) with (count_go (a :: k) s 0). split.
    + induction s as [|c s IH]; cbn [count_go]; [lia|].
      destruct (startswith (c :: s) (a :: k)) eqn:E.
      * intros _. apply startswith_iff in E. destruct E as (r & ->).
        apply occurs_prefix.
      * intros H. apply occurs_cons, IH, H.
    + intros H.
      destruct (count_go (a :: k) s 0) eqn:E; [|lia].
      exfalso. revert H E. induction s as [|c s IH]; intros H E.
      * destruct H as (l & r & H). destruct l; discriminate H.
      * cbn [count_go] in E. apply occurs_cons_inv in H.
        destruct (startswith (c :: s) (a :: k)); [discriminate|].
        destruct H as [H | H]; [discriminate | auto].
Qed.

Lemma replay_snoc (c : pystr) (rs : list replacement) (r : replacement) :
  replay c (rs ++ [r])
  = replace (replay c rs) (chinese_text r) (escaped_translation r).
Proof. unfold replay. rewrite fold_left_app. reflexivity. Qed.

Lemma chained_snoc (rs : list replacement) (r : replacement) :
  forall c,
    chained c rs ->
    content_before r = replay c rs ->
    occurrences r = count (replay c rs) (chinese_text r) ->
    0 < occurrences r ->
    chained c (rs ++ [r]).
Proof.
  induction rs as [|r0 rs IH]; intros c Hc Hb Ho Hp; simpl in *.
  - auto.
  - destruct Hc as (H1 & H2 & H3 & H4). repeat split; auto.
Qed.

Lemma loop_body_in_step (c0 : pystr) (st : loop_state) (x : pystr * pystr) :
  in_step c0 st -> in_step c0 (loop_body st x).
Proof.
  intros (Hc & Hr & Hf). destruct x as [k v]. unfold loop_body.
  destruct (is_placeholder v); [repeat split; assumption|].
  destruct (0 <? count (content st) k) eqn:E;
    [|repeat split; assumption].
  apply Nat.ltb_lt in E. unfold in_step. cbn [content performed
    file_replacements].
  repeat split.
  - apply chained_snoc; simpl; try assumption; rewrite <- Hr; auto.
  - rewrite replay_snoc, <- Hr. reflexivity.
  - rewrite map_app, list_sum_app, <- Hf. simpl. lia.
Qed.

Lemma pass_in_step (c0 : pystr) (l : list (pystr * pystr)) :
  forall st, in_step c0 st -> in_step c0 (fold_left loop_body l st).
Proof.
  induction l as [|x l IH]; intros st H; cbn [fold_left]; [exact H|].
  apply IH, loop_body_in_step, H.
Qed.

Lemma substitute_in_step (d : dict) (c : pystr) :
  in_step c (substitute d c).
Proof.
  apply pass_in_step. repeat split.
Qed.

Lemma chained_length (rs : list replacement) :
  forall c, chained c rs ->
    Forall (fun r =>
              List.length (replace (content_before r) (chinese_text r)
                             (escaped_translation r))
              + occurrences r * List.length (chinese_text r)
              = List.length (content_before r)
                + occurrences r * List.length (escaped_translation r)) rs.
Proof.
  induction rs as [|r rs IH]; intros c Hc; constructor.
  - destruct Hc as (-> & -> & _). apply replace_length.
  - destruct Hc as (_ & _ & _ & Hc). eapply IH, Hc.
Qed.

(** X3: the three variables of the substitution loop stay in step: the
    replacements performed chain from the original content (each acts
    on what the previous one left, and its count is the positive
    [str.count] of its key there), the final content is the original
    with these replacements applied in order, and [file_replacements]
    is the sum of their counts. *)
Theorem X3_loop_accounting (translations : dict) (original_content : pystr) :
  let st := substitute translations original_content in
  chained original_content (performed st)
  /\ content st = replay original_content (performed st)
  /\ file_replacements st = list_sum (map occurrences (performed st)).
Proof.
  intros st. subst st.
  destruct (substitute_in_step translations original_content)
    as (Hchain & Hreplay & Hsum).
  split; [exact Hchain | split; [exact Hreplay | exact Hsum]].
Qed.

(** X4: every replacement changes the length of the content by its
    count times the difference between the lengths of the escaped
    translation and of the key: what [count] counted is what [replace]
    replaced. *)
Theorem X4_replaced_as_many_as_counted
    (translations : dict) (original_content : pystr) :
  Forall (fun r =>
            List.length (replace (content_before r) (chinese_text r)
                           (escaped_translation r))
            + occurrences r * List.length (chinese_text r)
            = List.length (content_before r)
              + occurrences r * List.length (escaped_translation r))
    (performed (substitute translations original_content)).
Proof.
  eapply chained_length.
  apply (substitute_in_step translations original_content).
Qed.

Lemma pass_performed_grows (l : list (pystr * pystr)) :
  forall st, exists rs,
    performed (fold_left loop_body l st) = performed st ++ rs.
Proof.
  induction l as [|[k v] l IH]; intros st; cbn [fold_left].
  - exists []. rewrite app_nil_r. reflexivity.
  - destruct (IH (loop_body st (k, v))) as (rs & ->).
    unfold loop_body. destruct (is_placeholder v); [exists rs; reflexivity|].
    destruct (0 <? count (content st) k); [|exists rs; reflexivity].
    simpl. rewrite <- app_assoc. eexists; reflexivity.
Qed.

Lemma pass_none_performed (l : list (pystr * pystr)) :
  forall st,
    performed st = [] ->
    none_performed (fold_left loop_body l st) = no_key_occurs l (content st).
Proof.
  induction l as [|[k v] l IH]; intros st Hst; cbn [fold_left].
  - unfold none_performed. rewrite Hst. reflexivity.
  - unfold no_key_occurs. cbn [forallb fst snd].
    destruct (is_placeholder v) eqn:Hv.
    + rewrite loop_body_placeholder by exact Hv. apply IH, Hst.
    + cbn [orb]. destruct (count (content st) k =? 0) eqn:E.
      * assert (Hb : loop_body st (k, v) = st).
        { unfold loop_body. rewrite Hv. apply Nat.eqb_eq in E.
          rewrite E. reflexivity. }
        rewrite Hb. apply IH, Hst.
      * cbn [andb]. apply Nat.eqb_neq in E.
        destruct (pass_performed_grows l (loop_body st (k, v))) as (rs & H).
        unfold none_performed. rewrite H. unfold loop_body. rewrite Hv.
        assert (Hp : (0 <? count (content st) k) = true)
          by (apply Nat.ltb_lt; lia).
        rewrite Hp. simpl. rewrite Hst. reflexivity.
Qed.

Lemma forallb_perm (A : Type) (f : A -> bool) (l l' : list A) :
  Permutation l l' -> forallb f l = forallb f l'.
Proof.
  induction 1; simpl; try congruence.
  destruct (f x), (f y); reflexivity.
Qed.

Lemma nothing_performed_unchanged (translations : dict) (c : pystr) :
  performed (substitute translations c) = [] ->
  substitute translations c
  = {| content := c; file_replacements := 0; performed := [] |}.
Proof.
  intros Hp.
  destruct (substitute_in_step translations c) as (_ & Hr & Hf).
  destruct (substitute translations c) as [c' n rs].
  simpl in *. subst rs. simpl in *. subst. reflexivity.
Qed.

Lemma something_performed_counts (translations : dict) (c : pystr) :
  performed (substitute translations c) <> [] ->
  0 < file_replacements (substitute translations c).
Proof.
  intros Hp.
  destruct (substitute_in_step translations c) as (Hc & _ & Hf).
  destruct (performed (substitute translations c)) as [|r rs];
    [congruence|].
  simpl in Hc, Hf. destruct Hc as (_ & _ & Hpos & _). lia.
Qed.

Lemma substitute_none_performed (translations : dict) (c : pystr) :
  none_performed (substitute translations c) = no_key_occurs translations c.
Proof.
  unfold substitute. rewrite pass_none_performed by reflexivity.
  apply forallb_perm, sorted_translations_perm.
Qed.

(** X5: the loop performs a replacement exactly when some applicable key
    has a positive [str.count] in the original content.  When none has,
    the loop leaves content, counter and record as they were; when one
    has, [file_replacements] ends positive. *)
Theorem X5_replaces_iff_a_key_occurs
    (translations : dict) (original_content : pystr) :
  none_performed (substitute translations original_content)
  = no_key_occurs translations original_content
  /\ if no_key_occurs translations original_content
     then substitute translations original_content
          = {| content := original_content; file_replacements := 0;
               performed := [] |}
     else 0 < file_replacements (substitute translations original_content).
Proof.
  pose proof (substitute_none_performed translations original_content) as E.
  split; [exact E|]. rewrite <- E. unfold none_performed.
  destruct (performed (substitute translations original_content))
    as [|r rs] eqn:Hp.
  - apply nothing_performed_unchanged, Hp.
  - apply something_performed_counts. rewrite Hp. discriminate.
Qed.

Lemma fs_get_set (fs : filesystem) (p : path) (b : bytes) (p' : path) :
  fs_get (fs_set fs p b) p' = if eqb p p' then Some b else fs_get fs p'.
Proof.
  induction fs as [|[p0 b0] fs IH]; simpl.
  - reflexivity.
  - destruct (eqb p0 p) eqn:E; simpl.
    + apply eqb_eq in E; subst p0. destruct (eqb p p'); reflexivity.
    + rewrite IH. destruct (eqb p0 p') eqn:E'; auto.
      apply eqb_eq in E'; subst p0. rewrite eqb_sym, E. reflexivity.
Qed.

Lemma fs_set_paths (fs : filesystem) (p : path) (b : bytes) :
  fs_get fs p <> None -> map fst (fs_set fs p b) = map fst fs.
Proof.
  induction fs as [|[p0 b0] fs IH]; simpl; [congruence|].
  destruct (eqb p0 p); simpl; [reflexivity|].
  intros H. rewrite IH by exact H. reflexivity.
Qed.

Lemma changed_content_counts (translations : dict) (c : pystr) :
  eqb (content (substitute translations c)) c = false ->
  0 < file_replacements (substitute translations c).
Proof.
  intros Hne. apply something_performed_counts. intros Hp.
  rewrite (nothing_performed_unchanged translations c Hp) in Hne.
  simpl in Hne. rewrite eqb_refl in Hne. discriminate.
Qed.

(** ** What a run of the Applicator leaves alone *)

Lemma apply_file_cases (pf : platform) (app : applicator) (fs : filesystem)
    (file_path : path) :
  let r := apply_translations_to_file pf app fs file_path in
  (returned r = false /\ app_after r = app /\ fs_after r = fs)
  \/ (exists b, fs_get fs file_path <> None
                /\ fs_after r = fs_set fs file_path b
                /\ translations (app_after r) = translations app
                /\ files_modified (app_after r) = files_modified app
                /\ (returned r = false -> app_after r = app)
                /\ (returned r = true ->
                    replacements_made app < replacements_made (app_after r))).
Proof.
  unfold apply_translations_to_file.
  destruct (fs_get fs file_path) as [b|] eqn:Hget; [|left; auto].
  destruct (read_with pf encodings b) as [[c e]|]; [|left; auto].
  destruct (eqb (content (substitute (translations app) c)) c) eqn:E;
    [left; auto|].
  apply changed_content_counts in E. right.
  destruct (encode pf e (content (substitute (translations app) c)))
    as [b'|].
  - exists b'. simpl. repeat split; try congruence. intros _. lia.
  - exists []. simpl. repeat split; congruence.
Qed.

(** X6: one call of [apply_translations_to_file] never creates, removes
    or renames a file and never changes the bytes of any file other
    than the one it was given. *)
Theorem X6_apply_to_file_touches_only_that_file
    (pf : platform) (app : applicator) (fs : filesystem)
    (file_path other : path) :
  other <> file_path ->
  let r := apply_translations_to_file pf app fs file_path in
  fs_get (fs_after r) other = fs_get fs other
  /\ map fst (fs_after r) = map fst fs.
Proof.
  intros Hne r. subst r.
  destruct (apply_file_cases pf app fs file_path)
    as [(_ & _ & ->) | (b & Hex & -> & _)]; [auto|].
  split.
  - rewrite fs_get_set.
    assert (E : eqb file_path other = false)
      by (apply eqb_neq; congruence).
    rewrite E. reflexivity.
  - apply fs_set_paths, Hex.
Qed.

Lemma X6_apply_to_file_witness :
  u "b.js" <> u "a.js"
  /\ fs_get (fs_after (apply_translations_to_file example_platform
                         example_applicator
                         (example_fs ++ [(u "b.js",
                                          list_byte_of_string "你好世界")])
                         (u "a.js"))) (u "b.js")
     = Some (list_byte_of_string "你好世界")
  /\ map fst (fs_after (apply_translations_to_file example_platform
                          example_applicator
                          (example_fs ++ [(u "b.js",
                                           list_byte_of_string "你好世界")])
                          (u "a.js")))
     = [u "a.js"; u "b.js"].
Proof.
  assert (Hne : u "b.js" <> u "a.js") by (vm_compute; discriminate).
  split; [exact Hne|].
  exact (X6_apply_to_file_touches_only_that_file example_platform
           example_applicator
           (example_fs ++ [(u "b.js", list_byte_of_string "你好世界")])
           (u "a.js") (u "b.js") Hne).
Defined.

(** X7: the counters move with the file: a call that returns [False]
    leaves the applicator as it was, and a call that returns [True] has
    added at least one to [replacements_made]; neither changes the
    translations or [files_modified]. *)
Theorem X7_counters_follow_the_write
    (pf : platform) (app : applicator) (fs : filesystem) (file_path : path) :
  let r := apply_translations_to_file pf app fs file_path in
  translations (app_after r) = translations app
  /\ files_modified (app_after r) = files_modified app
  /\ if returned r
     then replacements_made app < replacements_made (app_after r)
     else app_after r = app.
Proof.
  intros r. subst r.
  destruct (apply_file_cases pf app fs file_path)
    as [(Hr & Ha & _) | (b & _ & _ & Ht & Hm & Hf & Hs)].
  - rewrite Hr, Ha. auto.
  - repeat split; try assumption.
    destruct (returned (apply_translations_to_file pf app fs file_path));
      auto.
Qed.

Lemma process_files_frame (pf : platform) (files : list path) :
  forall app fs,
    let res := process_files pf app fs files in
    translations (fst res) = translations app
    /\ map fst (snd res) = map fst fs
    /\ (forall other, ~ In other (processed pf files) ->
                      fs_get (snd res) other = fs_get fs other)
    /\ files_modified app <= files_modified (fst res)
    /\ files_modified (fst res)
       <= files_modified app + List.length (processed pf files)
    /\ replacements_made app <= replacements_made (fst res).
Proof.
  induction files as [|p files IH]; intros app fs.
  - simpl. repeat split; auto; lia.
  - cbn [process_files processed filter].
    destruct (is_hidden pf p || negb (is_text_file pf p)) eqn:Hskip.
    + cbn [negb]. fold (processed pf files). apply IH.
    + cbn [negb]. cbv zeta. fold (processed pf files).
      pose proof (apply_file_cases pf app fs p) as Hcase. cbv zeta in Hcase.
      set (r := apply_translations_to_file pf app fs p) in *.
      set (app1 := if returned r
                   then {| translations := translations (app_after r);
                           backup_made := backup_made (app_after r);
                           files_modified := S (files_modified (app_after r));
                           replacements_made :=
                             replacements_made (app_after r) |}
                   else app_after r).
      specialize (IH app1 (fs_after r)). cbv zeta in IH.
      destruct IH as (Ht & Hp & Hf & Hlo & Hhi & Hrm).
      assert (Happ1 : translations app1 = translations app
                      /\ files_modified app <= files_modified app1
                         <= S (files_modified app)
                      /\ replacements_made app <= replacements_made app1).
      { subst app1.
        destruct Hcase as [(Hr & Ha & _) | (b & _ & _ & Ht' & Hm & Hfa & Hs)].
        - rewrite Hr, Ha. repeat split; lia.
        - destruct (returned r) eqn:Hr; simpl.
          + specialize (Hs eq_refl). repeat split; try assumption; lia.
          + rewrite (Hfa eq_refl). repeat split; lia. }
      destruct Happ1 as (Ht1 & Hm1 & Hr1).
      assert (Hfs : map fst (fs_after r) = map fst fs
                    /\ forall other, other <> p ->
                         fs_get (fs_after r) other = fs_get fs other).
      { destruct Hcase as [(_ & _ & ->) | (b & Hex & -> & _)]; [auto|].
        split; [apply fs_set_paths, Hex|].
        intros other Hne. rewrite fs_get_set.
        assert (E : eqb p other = false) by (apply eqb_neq; congruence).
        rewrite E. reflexivity. }
      destruct Hfs as (Hpaths & Hother).
      repeat split.
      * congruence.
      * congruence.
      * intros other Hno. rewrite Hf.
        -- apply Hother. intros ->. apply Hno. left; reflexivity.
        -- intros Hin. apply Hno. right; exact Hin.
      * lia.
      * simpl List.length. lia.
      * lia.
Qed.

(** X8: with the backup switched off ([--no-backup]) a run of the
    Applicator never creates, removes or renames a file and changes no
    file outside the ones it processes (the target file when it is a
    supported text file; in a directory the visible text files); with
    or without the backup, it reports at most that many modified
    files. *)
Theorem X8_run_touches_only_target_files
    (pf : platform) (sh : shutil) (sf : store_file) (fs : filesystem)
    (tg : target) (create_backup_flag : bool) (other : path) :
  ~ In other (target_files pf tg) ->
  (create_backup_flag = false ->
   fs_get (snd (Applicator.run pf sh sf fs tg create_backup_flag)) other
   = fs_get fs other
   /\ map fst (snd (Applicator.run pf sh sf fs tg create_backup_flag))
      = map fst fs)
  /\ files_modified (fst (Applicator.run pf sh sf fs tg create_backup_flag))
     <= List.length (target_files pf tg).
Proof.
  intros Hno. unfold Applicator.run.
  destruct (load_translations sf) as [loaded|];
    [|simpl; split; [auto | lia]].
  destruct (valid_translations loaded) as [|kv valid] eqn:Hvalid;
    [simpl; split; [auto | lia]|].
  set (app := {| translations := kv :: valid; backup_made := false;
                 files_modified := 0; replacements_made := 0 |}).
  destruct tg as [target_path|directory files|];
    cbn [target_files] in Hno |- *.
  - destruct (is_text_file pf target_path) eqn:Ht; cbn [negb];
      [|simpl; split; [auto | lia]].
    cbv zeta.
    set (fs1 := if create_backup_flag
                then copy2 sh fs target_path (target_path ++ u ".backup")
                else fs).
    pose proof (apply_file_cases pf app fs1 target_path) as Hcase.
    cbv zeta in Hcase.
    set (r := apply_translations_to_file pf app fs1 target_path) in *.
    assert (Hne : eqb target_path other = false)
      by (apply eqb_neq; intros ->; apply Hno; left; reflexivity).
    split.
    + intros Hflag. subst create_backup_flag. cbv iota in fs1.
      assert (Hfs : fs_get (fs_after r) other = fs_get fs other
                    /\ map fst (fs_after r) = map fst fs).
      { destruct Hcase as [(_ & _ & ->) | (b & Hex & -> & _)]; [auto|].
        rewrite fs_get_set, Hne.
        split; [reflexivity | apply fs_set_paths, Hex]. }
      destruct (returned r); exact Hfs.
    + destruct (returned r) eqn:Hr; cbn [fst files_modified List.length];
        [lia|].
      destruct Hcase as [(_ & -> & _) | (b & _ & _ & _ & -> & _)];
        simpl; lia.
  - unfold apply_translations_to_directory. cbn [translations app].
    split.
    + intros ->.
      pose proof (process_files_frame pf files app fs) as H. cbv zeta in H.
      destruct H as (_ & Hp & Hf & _ & _ & _). split; auto.
    + destruct create_backup_flag.
      * unfold create_backup. cbn [backup_made app]. cbv zeta.
        destruct (path_exists sh fs _).
        -- pose proof (process_files_frame pf files
                         {| translations := translations app;
                            backup_made := true;
                            files_modified := files_modified app;
                            replacements_made := replacements_made app |}
                         fs) as H.
           cbv zeta in H. destruct H as (_ & _ & _ & _ & Hhi & _).
           exact Hhi.
        -- pose proof (process_files_frame pf files
                         {| translations := translations app;
                            backup_made := true;
                            files_modified := files_modified app;
                            replacements_made := replacements_made app |}
                         (copytree sh fs directory
                            (rstrip_separators directory ++ u "__backup")))
             as H.
           cbv zeta in H. destruct H as (_ & _ & _ & _ & Hhi & _).
           exact Hhi.
      * pose proof (process_files_frame pf files app fs) as H.
        cbv zeta in H. destruct H as (_ & _ & _ & _ & Hhi & _).
        exact Hhi.
  - simpl. split; [auto | lia].
Qed.

Lemma X8_run_witness :
  ~ In (u "b.js") (target_files example_platform (TargetFile (u "a.js")))
  /\ fs_get (snd (Applicator.run example_platform example_shutil
                    (Stored [(u "你好世界", u "Hello World")])
                    (example_fs ++ [(u "b.js",
                                     list_byte_of_string "你好世界")])
                    (TargetFile (u "a.js")) false)) (u "b.js")
     = Some (list_byte_of_string "你好世界")
  /\ fs_get (snd (Applicator.run example_platform example_shutil
                    (Stored [(u "你好世界", u "Hello World")])
                    (example_fs ++ [(u "b.js",
                                     list_byte_of_string "你好世界")])
                    (TargetFile (u "a.js")) false)) (u "a.js")
     = Some (list_byte_of_string "var x = 'Hello World';")
  /\ map fst (snd (Applicator.run example_platform example_shutil
                     (Stored [(u "你好世界", u "Hello World")])
                     example_fs (TargetFile (u "a.js")) true))
     = [u "a.js"; u "a.js.backup"].
Proof.
  assert (Hno : ~ In (u "b.js")
                  (target_files example_platform (TargetFile (u "a.js"))))
    by (intros [H | []]; vm_compute in H; discriminate).
  split; [exact Hno|]. split; [|split; reflexivity].
  exact (proj1 (proj1 (X8_run_touches_only_target_files example_platform
                         example_shutil
                         (Stored [(u "你好世界", u "Hello World")])
                         (example_fs ++ [(u "b.js",
                                          list_byte_of_string "你好世界")])
                         (TargetFile (u "a.js")) false (u "b.js") Hno)
                  eq_refl)).
Defined.

(** ** The strict pattern and check.py *)

Lemma star_chinese_run (s : pystr) :
  match_seq [Star chinese] s = Some (leading_run s).
Proof.
  induction s as [|c s IH]; [reflexivity|].
  cbn [leading_run].
  change (match_seq [Star chinese] (c :: s))
    with (if chinese c
          then match match_seq [Star chinese] s with
               | Some n => Some (S n)
               | None => match_seq [] (c :: s)
               end
          else match_seq [] (c :: s)).
  rewrite IH. destruct (chinese c); reflexivity.
Qed.

Lemma match_here_pattern2 (c : N) (s : pystr) :
  match_here pattern2 (c :: s)
  = if chinese c then Some (S (leading_run s)) else None.
Proof.
  unfold pattern2. cbn [match_here].
  change (match_seq [One chinese; Star chinese] (c :: s))
    with (if chinese c
          then option_map S (match_seq [Star chinese] s) else None).
  rewrite star_chinese_run. destruct (chinese c); reflexivity.
Qed.

Lemma filter_leading_run (s : pystr) :
  filter chinese (firstn (leading_run s) s) = firstn (leading_run s) s.
Proof.
  induction s as [|c s IH]; [reflexivity|].
  cbn [leading_run]. destruct (chinese c) eqn:E; [|reflexivity].
  cbn [firstn filter]. rewrite E, IH. reflexivity.
Qed.

Lemma findall_pattern2_go (s : pystr) :
  forall skip, skip <= leading_run s ->
    List.concat (findall_go pattern2 s skip) = filter chinese (skipn skip s).
Proof.
  induction s as [|c s IH]; intros skip Hskip.
  - destruct skip; reflexivity.
  - cbn [leading_run] in Hskip. destruct skip as [|k].
    + cbn [findall_go skipn]. rewrite match_here_pattern2.
      cbn [filter]. destruct (chinese c) eqn:E.
      * cbn [List.concat pred firstn app]. rewrite IH by lia. f_equal.
        transitivity (filter chinese (firstn (leading_run s) s
                                      ++ skipn (leading_run s) s)).
        -- rewrite filter_app, filter_leading_run. reflexivity.
        -- rewrite firstn_skipn. reflexivity.
      * apply (IH 0). lia.
    + cbn [findall_go skipn]. destruct (chinese c); [|lia].
      apply IH. lia.
Qed.

(** The maximal runs, put end to end, are the Chinese characters of the
    text in order. *)
Lemma findall_pattern2_concat (s : pystr) :
  List.concat (findall pattern2 s) = filter chinese s.
Proof. apply (findall_pattern2_go s 0). lia. Qed.

Lemma findall_chinese_chars (s : pystr) :
  findall Check.chinese_pattern s = map (fun c => [c]) (filter chinese s).
Proof.
  unfold findall. induction s as [|c s IH]; [reflexivity|].
  cbn [findall_go filter]. unfold Check.chinese_pattern at 1.
  cbn [match_here match_seq]. destruct (chinese c); simpl; rewrite IH;
    reflexivity.
Qed.

Lemma findall_pattern2_nonempty (s : pystr) :
  Forall (fun m => 1 <= List.length m) (findall pattern2 s).
Proof.
  apply Forall_forall. intros m Hm. apply findall_sound in Hm.
  destruct Hm as (alt & Halt & Hmatch).
  destruct (pattern2_run alt m Halt Hmatch) as (Hne & _).
  destruct m; [congruence | simpl; lia].
Qed.

Lemma length_concat_ge (l : list pystr) :
  Forall (fun m => 1 <= List.length m) l ->
  List.length l <= List.length (List.concat l).
Proof.
  induction 1 as [|m l Hm _ IH]; simpl; [lia|].
  rewrite length_app. lia.
Qed.

Lemma length_set_add (x : pystr) (s : list pystr) :
  List.length (set_add x s) <= S (List.length s).
Proof.
  unfold set_add. destruct (mem x s); [lia|].
  rewrite length_app. simpl. lia.
Qed.

Lemma length_to_set_from (l acc : list pystr) :
  List.length (fold_left (fun acc x => set_add x acc) l acc)
  <= List.length l + List.length acc.
Proof.
  revert acc; induction l as [|x l IH]; intros acc; simpl; [lia|].
  specialize (IH (set_add x acc)).
  pose proof (length_set_add x acc). lia.
Qed.

Lemma length_to_set (l : list pystr) :
  List.length (to_set l) <= List.length l.
Proof.
  unfold to_set. pose proof (length_to_set_from l []). simpl in *. lia.
Qed.

Lemma existsb_filter_nil (f : N -> bool) (s : pystr) :
  existsb f s = (0 <? List.length (filter f s)).
Proof.
  induction s as [|c s IH]; [reflexivity|].
  simpl. destruct (f c); simpl; [reflexivity | exact IH].
Qed.

(** X9: check.py reports, for a file that decodes, the number of
    Chinese characters of the content and a number of Chinese strings
    that is at most that and is zero exactly when the file has no
    Chinese character; the two "unique" counts never exceed the totals,
    and "Has Chinese characters" is YES exactly when the content holds a
    character of the three ranges.  A file that is missing or that no
    encoding decodes gives no report. *)
Theorem X9_check_report (pf : platform) (fs : filesystem) (file_path : path) :
  match fs_get fs file_path with
  | None => Check.count_chinese_characters pf fs file_path = None
  | Some b =>
      match read_with pf encodings b with
      | None => Check.count_chinese_characters pf fs file_path = None
      | Some (content, e) =>
          exists rep,
            Check.count_chinese_characters pf fs file_path = Some rep
            /\ Check.encoding_used rep = e
            /\ Check.total_chinese_chars rep
               = List.length (filter chinese content)
            /\ Check.total_chinese_strings rep
               <= Check.total_chinese_chars rep
            /\ (Check.total_chinese_strings rep = 0
                <-> Check.total_chinese_chars rep = 0)
            /\ Check.unique_chinese_chars rep
               <= Check.total_chinese_chars rep
            /\ Check.unique_chinese_strings rep
               <= Check.total_chinese_strings rep
            /\ Check.has_chinese_characters rep = existsb chinese content
      end
  end.
Proof.
  unfold Check.count_chinese_characters.
  destruct (fs_get fs file_path) as [b|]; [|reflexivity].
  destruct (read_with pf encodings b) as [[content e]|]; [|reflexivity].
  eexists. split; [reflexivity|]. cbn.
  pose proof (findall_pattern2_concat content) as Hcat.
  pose proof (length_concat_ge _ (findall_pattern2_nonempty content)) as Hge.
  rewrite Hcat in Hge.
  rewrite findall_chinese_chars, length_map.
  repeat split.
  - exact Hge.
  - intros H0. destruct (findall pattern2 content); [|discriminate].
    simpl in Hcat. rewrite <- Hcat. reflexivity.
  - intros H0. lia.
  - pose proof (length_to_set (map (fun c => [c]) (filter chinese content)))
      as H. rewrite length_map in H. exact H.
  - apply length_to_set.
  - symmetry. apply existsb_filter_nil.
Qed.

(** ** What the scanner finds *)

Lemma findall_go_occurs (p : pattern) (s : pystr) :
  forall skip m, In m (findall_go p s skip) -> occurs m s.
Proof.
  induction s as [|c s IH]; intros skip m; simpl.
  - destruct skip; [|intros []].
    destruct (match_here p []); [|intros []].
    intros [<- | []]. exists [], []. reflexivity.
  - destruct skip as [|k]; [|intros H; apply occurs_cons; eapply IH, H].
    destruct (match_here p (c :: s)) as [n|];
      [|intros H; apply occurs_cons; eapply IH, H].
    intros [<- | H]; [|apply occurs_cons; eapply IH, H].
    exists [], (skipn n (c :: s)). simpl app. symmetry.
    apply firstn_skipn.
Qed.

Lemma NoDup_set_add (x : pystr) (s : list pystr) :
  NoDup s -> NoDup (set_add x s).
Proof.
  intros H. unfold set_add. destruct (mem x s) eqn:E; [exact H|].
  apply mem_false in E. apply NoDup_app; [exact H | repeat constructor; auto |].
  intros a Ha [<- | []]. contradiction.
Qed.

Lemma NoDup_add_all (l acc : list pystr) :
  NoDup acc -> NoDup (fold_left (fun acc x => set_add x acc) l acc).
Proof.
  revert acc; induction l as [|x l IH]; intros acc H; simpl; [exact H|].
  apply IH, NoDup_set_add, H.
Qed.

Lemma extract_loop_NoDup (cond : pystr -> bool) (l acc : list pystr) :
  NoDup acc ->
  NoDup (fold_left
           (fun chinese_strings match_ =>
              if cond (strip match_)
              then set_add (strip match_) chinese_strings
              else chinese_strings) l acc).
Proof.
  revert acc; induction l as [|x l IH]; intros acc H; simpl; [exact H|].
  apply IH. destruct (cond (strip x)); [apply NoDup_set_add|]; exact H.
Qed.

Lemma extract_loop_complete (cond : pystr -> bool) (l acc : list pystr)
    (r : pystr) :
  In r acc \/ (exists m, In m l /\ r = strip m /\ cond r = true) ->
  In r (fold_left
          (fun chinese_strings match_ =>
             if cond (strip match_)
             then set_add (strip match_) chinese_strings
             else chinese_strings) l acc).
Proof.
  revert acc; induction l as [|x l IH]; intros acc H; simpl.
  - destruct H as [H | (m & [] & _)]. exact H.
  - apply IH. destruct H as [H | (m & [<- | Hm] & -> & Hc)].
    + left. destruct (cond (strip x)); [apply In_set_add; right|]; exact H.
    + left. rewrite Hc. apply In_set_add. left; reflexivity.
    + right. exists m. auto.
Qed.

Lemma run_passes_filter (m : pystr) :
  chinese_run m ->
  nonempty m && (1 <=? len m) && search_class chinese m = true.
Proof.
  intros (Hne & _ & Hh & _). destruct m as [|c m]; [congruence|].
  simpl in Hh. unfold search_class. simpl. rewrite Hh. reflexivity.
Qed.

Lemma strict_match_extracted (content m : pystr) :
  In m (findall pattern2 content) -> In m (extract_chinese_strings content).
Proof.
  intros Hm. unfold extract_chinese_strings.
  assert (Hrun : chinese_run m).
  { destruct (findall_sound _ _ _ Hm) as (alt & Halt & Hmatch).
    eapply pattern2_run; eassumption. }
  apply (extract_loop_complete
           (fun cleaned => nonempty cleaned && (1 <=? len cleaned)
                           && search_class chinese cleaned)).
  right. exists m. rewrite (strip_run m Hrun).
  repeat split; [|apply run_passes_filter, Hrun].
  apply In_to_set, in_or_app. right; exact Hm.
Qed.

Lemma extracted_occurs (content r : pystr) :
  In r (extract_chinese_strings content) -> occurs r content.
Proof.
  intros H. pose proof (extract_sound content r H) as Hrun.
  unfold extract_chinese_strings in H.
  apply (extract_loop_sound
           (fun cleaned => nonempty cleaned && (1 <=? len cleaned)
                           && search_class chinese cleaned)) in H.
  destruct H as [[] | (m & Hm & Hr & _)].
  apply In_to_set, in_app_or in Hm.
  assert (Hrun' : chinese_run m).
  { destruct Hm as [Hm | Hm]; apply findall_sound in Hm;
      destruct Hm as (alt & Halt & Hmatch).
    - eapply pattern1_run; eassumption.
    - eapply pattern2_run; eassumption. }
  rewrite (strip_run m Hrun') in Hr. subst r.
  destruct Hm as [Hm | Hm]; eapply findall_go_occurs, Hm.
Qed.

(** X10: [is_chinese_string] answers whether the text holds a character
    of the three ranges. *)
Theorem X10_is_chinese_string_iff_a_chinese_char (text : pystr) :
  is_chinese_string text = existsb chinese text.
Proof.
  unfold is_chinese_string.
  pose proof (findall_pattern2_concat text) as Hcat.
  pose proof (findall_pattern2_nonempty text) as Hne.
  rewrite existsb_filter_nil, <- Hcat.
  destruct (findall pattern2 text) as [|m l]; [reflexivity|].
  inversion Hne; subst. simpl. rewrite length_app.
  destruct m; [simpl in *; lia | reflexivity].
Qed.

(** X11: the extraction misses no Chinese character: every maximal run
    of Chinese characters of the text is among the strings returned, so
    every Chinese character of the text lies in one of them, and the
    result is empty exactly when the text has no Chinese character. *)
Theorem X11_extraction_covers_every_chinese_char (content : pystr) :
  incl (findall pattern2 content) (extract_chinese_strings content)
  /\ Forall (fun c => exists r, In r (extract_chinese_strings content)
                                /\ In c r)
       (filter chinese content)
  /\ match extract_chinese_strings content with
     | [] => existsb chinese content = false
     | _ :: _ => existsb chinese content = true
     end.
Proof.
  split; [intros m; apply strict_match_extracted|].
  split.
  - apply Forall_forall. intros c Hc.
    rewrite <- findall_pattern2_concat in Hc. apply in_concat in Hc.
    destruct Hc as (m & Hm & Hc). exists m.
    split; [apply strict_match_extracted, Hm | exact Hc].
  - destruct (extract_chinese_strings content) as [|r rs] eqn:E.
    + rewrite existsb_filter_nil, <- findall_pattern2_concat.
      destruct (findall pattern2 content) as [|m l] eqn:Ef; [reflexivity|].
      assert (H : In m (extract_chinese_strings content))
        by (apply strict_match_extracted; rewrite Ef; left; reflexivity).
      rewrite E in H. destruct H.
    + assert (H : In r (extract_chinese_strings content))
        by (rewrite E; left; reflexivity).
      destruct (extract_sound content r H) as (Hne & _ & Hh & _).
      apply extracted_occurs in H. destruct H as (l & t & ->).
      destruct r as [|c r]; [congruence|]. simpl in Hh.
      rewrite existsb_app. simpl. rewrite Hh. apply orb_true_r.
Qed.

(** X12: the extraction returns a set of substrings of the text: no
    string twice, and each one occurs in the text as it is. *)
Theorem X12_extracted_strings_are_distinct_substrings (content : pystr) :
  NoDup (extract_chinese_strings content)
  /\ Forall (fun r => occurs r content) (extract_chinese_strings content).
Proof.
  split.
  - unfold extract_chinese_strings.
    apply (extract_loop_NoDup
             (fun cleaned => nonempty cleaned && (1 <=? len cleaned)
                             && search_class chinese cleaned)).
    constructor.
  - apply Forall_forall. intros r. apply extracted_occurs.
Qed.

(** X13: scanner and Applicator fit together: when a string extracted
    from a content is a key of the store with a value that is not a
    placeholder, applying the store to that content performs at least
    one replacement. *)
Theorem X13_extracted_key_is_replaced
    (translations : dict) (content0 r v : pystr) :
  In r (extract_chinese_strings content0) ->
  In (r, v) translations ->
  is_placeholder v = false ->
  0 < file_replacements (substitute translations content0).
Proof.
  intros Hr Hin Hv. apply something_performed_counts.
  pose proof (substitute_none_performed translations content0) as E.
  assert (Hno : no_key_occurs translations content0 = false).
  { apply not_true_iff_false. intros H. unfold no_key_occurs in H.
    rewrite forallb_forall in H. specialize (H (r, v) Hin).
    simpl in H. rewrite Hv in H. simpl in H. apply Nat.eqb_eq in H.
    pose proof (proj2 (count_pos_occurs content0 r)
                  (extracted_occurs content0 r Hr)). lia. }
  rewrite Hno in E. unfold none_performed in E.
  destruct (performed (substitute translations content0));
    [discriminate E | discriminate].
Qed.

Lemma X13_extracted_key_witness :
  In (u "你好世界") (extract_chinese_strings (u "var x = '你好世界';"))
  /\ In (u "你好世界", u "Hello World") [(u "你好世界", u "Hello World")]
  /\ is_placeholder (u "Hello World") = false
  /\ 0 < file_replacements
           (substitute [(u "你好世界", u "Hello World")]
              (u "var x = '你好世界';")).
Proof.
  split; [left; reflexivity|]. split; [left; reflexivity|].
  split; [reflexivity|].
  exact (X13_extracted_key_is_replaced [(u "你好世界", u "Hello World")]
           (u "var x = '你好世界';") (u "你好世界") (u "Hello World")
           (or_introl eq_refl) (or_introl eq_refl) eq_refl).
Defined.

Lemma scan_loop_In (os : TextFiles.os_path) (pf : platform) (fs : filesystem)
    (files : list path) :
  forall acc r,
    In r (fold_left
            (fun all_chinese_strings file_path =>
               if TextFiles.scanner_is_text_file os file_path
               then fold_left (fun acc x => set_add x acc)
                      (extract_chinese_strings_from_file pf fs file_path)
                      all_chinese_strings
               else all_chinese_strings) files acc)
    <-> In r acc
        \/ exists file_path,
             In file_path files
             /\ TextFiles.scanner_is_text_file os file_path = true
             /\ In r (extract_chinese_strings_from_file pf fs file_path).
Proof.
  induction files as [|f files IH]; intros acc r; cbn [fold_left].
  - split; [auto | intros [H | (f & [] & _)]; exact H].
  - rewrite IH. destruct (TextFiles.scanner_is_text_file os f) eqn:E.
    + rewrite In_to_set_from. split.
      * intros [[H | H] | (f' & Hf' & Ht & Hr)]; auto.
        -- right. exists f. repeat split; auto. left; reflexivity.
        -- right. exists f'. repeat split; auto. right; exact Hf'.
      * intros [H | (f' & [<- | Hf'] & Ht & Hr)]; auto.
        right. exists f'. auto.
    + split.
      * intros [H | (f' & Hf' & Ht & Hr)]; auto.
        right. exists f'. repeat split; auto. right; exact Hf'.
      * intros [H | (f' & [<- | Hf'] & Ht & Hr)]; auto; [congruence|].
        right. exists f'. auto.
Qed.

Lemma scan_loop_NoDup (os : TextFiles.os_path) (pf : platform)
    (fs : filesystem) (files : list path) :
  forall acc,
    NoDup acc ->
    NoDup (fold_left
             (fun all_chinese_strings file_path =>
                if TextFiles.scanner_is_text_file os file_path
                then fold_left (fun acc x => set_add x acc)
                       (extract_chinese_strings_from_file pf fs file_path)
                       all_chinese_strings
                else all_chinese_strings) files acc).
Proof.
  induction files as [|f files IH]; intros acc H; cbn [fold_left]; [exact H|].
  apply IH. destruct (TextFiles.scanner_is_text_file os f);
    [apply NoDup_add_all|]; exact H.
Qed.

(** X14: [scan_directory] returns, without repeats, exactly the strings
    extracted from the files that pass the scanner's text-file test; a
    file that is missing or that no encoding decodes adds nothing and
    does not stop the scan, and every string returned is a run with a
    Chinese character at both ends. *)
Theorem X14_scan_directory_is_the_union
    (os : TextFiles.os_path) (pf : platform) (fs : filesystem)
    (files : list path) :
  NoDup (TextFiles.scan_directory os pf fs files)
  /\ (forall r,
        In r (TextFiles.scan_directory os pf fs files)
        <-> exists file_path,
              In file_path files
              /\ TextFiles.scanner_is_text_file os file_path = true
              /\ In r (extract_chinese_strings_from_file pf fs file_path))
  /\ Forall chinese_run (TextFiles.scan_directory os pf fs files).
Proof.
  unfold TextFiles.scan_directory.
  split; [apply scan_loop_NoDup; constructor|].
  assert (Hiff : forall r,
    In r (fold_left
            (fun all_chinese_strings file_path =>
               if TextFiles.scanner_is_text_file os file_path
               then fold_left (fun acc x => set_add x acc)
                      (extract_chinese_strings_from_file pf fs file_path)
                      all_chinese_strings
               else all_chinese_strings) files [])
    <-> exists file_path,
          In file_path files
          /\ TextFiles.scanner_is_text_file os file_path = true
          /\ In r (extract_chinese_strings_from_file pf fs file_path)).
  { intros r. rewrite scan_loop_In. simpl. tauto. }
  split; [exact Hiff|].
  apply Forall_forall. intros r Hr. apply Hiff in Hr.
  destruct Hr as (f & _ & _ & Hr). eapply extract_from_file_sound, Hr.
Qed.



(** ** What the Translator stores and sends *)

Lemma bracketed_placeholder (reason text : pystr) :
  is_placeholder (Translator.bracketed reason text) = true.
Proof.
  unfold is_placeholder, Translator.bracketed, endswith.
  apply andb_true_iff. split; [reflexivity|].
  rewrite !app_assoc, rev_app_distr. reflexivity.
Qed.

Lemma bracketed_nonempty (reason text : pystr) :
  Translator.bracketed reason text <> [].
Proof. discriminate. Qed.

Lemma In_set (d : dict) (k v k' v' : pystr) :
  In (k', v') (set d k v) -> (k' = k /\ v' = v) \/ In (k', v') d.
Proof.
  induction d as [|[k0 v0] d IH]; simpl.
  - intros [H | []]. inversion H; auto.
  - destruct (eqb k0 k) eqn:E.
    + apply eqb_eq in E; subst k0.
      intros [H | H]; [inversion H; auto | auto].
    + intros [H | H]; [auto|]. destruct (IH H); auto.
Qed.

Lemma keys_set (d : dict) (k v : pystr) :
  keys (set d k v) = if mem k (keys d) then keys d else keys d ++ [k].
Proof.
  induction d as [|[k0 v0] d IH]; [reflexivity|].
  cbn [set keys map fst mem existsb].
  fold (mem k (map fst d)). fold (keys d). rewrite (eqb_sym k k0).
  destruct (eqb k0 k); [reflexivity|].
  cbn [map fst orb]. fold (keys (set d k v)). rewrite IH.
  destruct (mem k (keys d)); reflexivity.
Qed.

Lemma NoDup_keys_set (d : dict) (k v : pystr) :
  NoDup (keys d) -> NoDup (keys (set d k v)).
Proof.
  intros H. rewrite keys_set. destruct (mem k (keys d)) eqn:E; [exact H|].
  apply mem_false in E.
  apply NoDup_app; [exact H | repeat constructor; auto |].
  intros a Ha [<- | []]. contradiction.
Qed.

Lemma dict_inv_set (P : pystr -> pystr -> Prop) (d : dict) (k v : pystr) :
  dict_inv P d -> P k v -> dict_inv P (set d k v).
Proof.
  intros [Hn Hp] Hkv. split; [apply NoDup_keys_set, Hn|].
  intros k' v' H. apply In_set in H.
  destruct H as [[-> ->] | H]; auto.
Qed.

Lemma dict_inv_fold_set (P : pystr -> pystr -> Prop) (f : pystr -> pystr)
    (l : list pystr) :
  (forall k, In k l -> P k (f k)) ->
  forall d, dict_inv P d ->
            dict_inv P (fold_left (fun acc x => set acc x (f x)) l d).
Proof.
  induction l as [|x l IH]; intros Hf d Hd; simpl; [exact Hd|].
  apply IH.
  - intros k Hk. apply Hf. right; exact Hk.
  - apply dict_inv_set; [exact Hd | apply Hf; left; reflexivity].
Qed.

Lemma dict_inv_update (P : pystr -> pystr -> Prop) (other : dict) :
  (forall k v, In (k, v) other -> P k v) ->
  forall d, dict_inv P d -> dict_inv P (update d other).
Proof.
  unfold update. induction other as [|[k v] other IH]; intros Ho d Hd;
    simpl; [exact Hd|].
  apply IH.
  - intros k' v' H. apply Ho. right; exact H.
  - apply dict_inv_set; [exact Hd | apply Ho; left; reflexivity].
Qed.

Lemma record_translations_inv (input batch translations : list pystr) :
  incl batch input ->
  forall d, dict_inv (remote_value input) d ->
            dict_inv (remote_value input)
              (Translator.record_translations d batch translations).
Proof.
  revert translations.
  induction batch as [|o batch IH]; intros [|tr translations] Hin d Hd;
    simpl; try exact Hd.
  apply IH; [intros x Hx; apply Hin; right; exact Hx|].
  apply dict_inv_set; [exact Hd|].
  split; [apply Hin; left; reflexivity|].
  destruct (strip tr) as [|c s] eqn:E; simpl.
  - split; [apply bracketed_nonempty|].
    left. apply bracketed_placeholder.
  - split; [discriminate|]. right. exists tr. symmetry; exact E.
Qed.

Lemma error_value (input : list pystr) (reason k : pystr) :
  In k input -> remote_value input k (Translator.bracketed reason k).
Proof.
  intros H. split; [exact H|].
  split; [apply bracketed_nonempty | left; apply bracketed_placeholder].
Qed.

Lemma post_batch_inv (B : Translator.backends) (input batch : list pystr)
    (d d' : dict) :
  incl batch input ->
  dict_inv (remote_value input) d ->
  Translator.post_batch B d batch = Some d' ->
  dict_inv (remote_value input) d'.
Proof.
  intros Hin Hd. unfold Translator.post_batch.
  destruct (Translator.google_post B batch) as [translations| |];
    intros [= <-].
  - apply record_translations_inv; assumption.
  - apply (dict_inv_fold_set (remote_value input)
             (Translator.bracketed (u "GOOGLE_API_ERROR"))); [|exact Hd].
    intros k Hk. apply error_value, Hin, Hk.
Qed.

Lemma batch_loop_inv (B : Translator.backends) (input : list pystr)
    (starts : list nat) :
  forall d d',
    dict_inv (remote_value input) d ->
    Translator.batch_loop B input starts d = Some d' ->
    dict_inv (remote_value input) d'.
Proof.
  induction starts as [|i starts IH]; intros d d' Hd; simpl.
  - intros [= <-]; exact Hd.
  - destruct (Translator.post_batch B d
                (Translator.slice input i Translator.batch_size))
      as [d1|] eqn:E; [|discriminate].
    apply IH. eapply post_batch_inv; [|exact Hd|exact E].
    intros x Hx. eapply In_slice, Hx.
Qed.

Lemma dict_inv_nil (P : pystr -> pystr -> Prop) : dict_inv P [].
Proof. split; [constructor | intros k v []]. Qed.

Lemma google_inv (B : Translator.backends) (t : Translator.translator)
    (input : list pystr) :
  dict_inv (remote_value input)
    (Translator.translate_batch_with_google_api B t input).
Proof.
  unfold Translator.translate_batch_with_google_api.
  destruct (negb (Translator.google_translate_ready t)).
  - apply (dict_inv_fold_set (remote_value input)
             (Translator.bracketed (u "GOOGLE_API_NOT_READY")));
      [|apply dict_inv_nil].
    intros k Hk. apply error_value, Hk.
  - destruct (Translator.batch_loop B input _ []) as [d|] eqn:E.
    + eapply batch_loop_inv; [apply dict_inv_nil | exact E].
    + apply (dict_inv_fold_set (remote_value input)
               (Translator.bracketed (u "GOOGLE_API_ERROR")));
        [|apply dict_inv_nil].
      intros k Hk. apply error_value, Hk.
Qed.

Lemma get_fold_set (f : pystr -> pystr) (l : list pystr) :
  forall d k,
    get (fold_left (fun acc x => set acc x (f x)) l d) k
    = if mem k l then Some (f k) else get d k.
Proof.
  induction l as [|x l IH]; intros d k; [reflexivity|].
  cbn [fold_left mem existsb]. fold (mem k l). rewrite IH, get_set.
  rewrite (eqb_sym k x).
  destruct (mem k l) eqn:Em; [rewrite orb_true_r; reflexivity|].
  rewrite orb_false_r. destruct (eqb x k) eqn:E; [|reflexivity].
  apply eqb_eq in E; subst x. reflexivity.
Qed.

Lemma batch_loop_raises (B : Translator.backends) (l : list pystr)
    (starts : list nat) :
  existsb
    (fun i =>
       match Translator.google_post B
               (Translator.slice l i Translator.batch_size) with
       | Translator.Raises => true
       | _ => false
       end) starts = true ->
  forall d, Translator.batch_loop B l starts d = None.
Proof.
  induction starts as [|i starts IH]; simpl; [discriminate|].
  intros H d. unfold Translator.post_batch.
  destruct (Translator.google_post B
              (Translator.slice l i Translator.batch_size)); auto.
Qed.

Lemma dict_inv_get (P : pystr -> pystr -> Prop) (d : dict) (k v : pystr) :
  dict_inv P d -> get d k = Some v -> P k v.
Proof. intros [_ H] Hg. apply H, get_Some_In, Hg. Qed.

(** X16: the remote path never stores an empty translation and never
    invents a key: the mapping [translate_batch_with_google_api] returns
    binds each key once, every key is one of the strings it was given,
    and every value is non-empty and is either a placeholder or a
    stripped translation. *)
Theorem X16_remote_values_are_never_empty
    (B : Translator.backends) (t : Translator.translator)
    (chinese_strings : list pystr) :
  unique_keys (Translator.translate_batch_with_google_api B t chinese_strings)
  = true
  /\ forall k v,
       get (Translator.translate_batch_with_google_api B t chinese_strings) k
       = Some v ->
       In k chinese_strings /\ v <> []
       /\ (is_placeholder v = true
           \/ exists translation, v = strip translation).
Proof.
  pose proof (google_inv B t chinese_strings) as Hinv.
  split.
  - apply unique_keys_NoDup. exact (proj1 Hinv).
  - intros k v Hg. exact (dict_inv_get _ _ k v Hinv Hg).
Qed.

Lemma X16_remote_values_witness :
  get (Translator.translate_batch_with_google_api example_backends
         (hybrid 0) [u "你好世界"; u "系统设置"]) (u "系统设置")
  = Some (u "ok")
  /\ u "ok" <> []
  /\ (is_placeholder (u "ok") = true
      \/ exists translation, u "ok" = strip translation).
Proof.
  split; [reflexivity|].
  exact (proj2 (proj2 (X16_remote_values_are_never_empty example_backends
                  (hybrid 0) [u "你好世界"; u "系统设置"]) (u "系统设置")
                  (u "ok") eq_refl)).
Defined.

(** X17: every failure of a capability is stored as a value the
    Applicator treats as a placeholder.  A local translation that is
    not ready or raises gives a bracketed value; when the remote
    capability is not ready, or when one of its requests raises, every
    string given gets a bracketed value; and every bracketed value
    passes the Applicator's placeholder test. *)
Theorem X17_failures_are_stored_as_placeholders
    (B : Translator.backends) (t : Translator.translator)
    (chinese_strings : list pystr) (s reason : pystr) :
  is_placeholder (Translator.bracketed reason s) = true
  /\ (Translator.argos_translator_ready t = false ->
      Translator.translate_with_argos B t s
      = Translator.bracketed (u "ARGOS_NOT_READY") s)
  /\ (Translator.argos_translator_ready t = true ->
      Translator.argos B s = None ->
      Translator.translate_with_argos B t s
      = Translator.bracketed (u "ARGOS_ERROR") s)
  /\ (In s chinese_strings ->
      Translator.google_translate_ready t = false ->
      get (Translator.translate_batch_with_google_api B t chinese_strings) s
      = Some (Translator.bracketed (u "GOOGLE_API_NOT_READY") s))
  /\ (In s chinese_strings ->
      Translator.google_translate_ready t = true ->
      some_request_raises B chinese_strings = true ->
      get (Translator.translate_batch_with_google_api B t chinese_strings) s
      = Some (Translator.bracketed (u "GOOGLE_API_ERROR") s)).
Proof.
  split; [apply bracketed_placeholder|].
  split; [intros Hr; unfold Translator.translate_with_argos; rewrite Hr;
          reflexivity|].
  split; [intros Hr Ha; unfold Translator.translate_with_argos;
          rewrite Hr, Ha; reflexivity|].
  split.
  - intros Hin Hr. unfold Translator.translate_batch_with_google_api.
    rewrite Hr. cbn [negb]. unfold comprehension.
    rewrite get_fold_set. apply mem_In in Hin. rewrite Hin. reflexivity.
  - intros Hin Hr Hraise. unfold Translator.translate_batch_with_google_api.
    rewrite Hr. cbn [negb].
    rewrite (batch_loop_raises B chinese_strings _ Hraise).
    unfold comprehension.
    rewrite get_fold_set. apply mem_In in Hin. rewrite Hin. reflexivity.
Qed.

Lemma X17_failures_witness :
  In (u "你好世界") [u "你好世界"; u "系统设置"]
  /\ Translator.google_translate_ready (hybrid 0) = true
  /\ some_request_raises failing_backends [u "你好世界"; u "系统设置"] = true
  /\ get (Translator.translate_batch_with_google_api failing_backends
            (hybrid 0) [u "你好世界"; u "系统设置"]) (u "你好世界")
     = Some (u "[GOOGLE_API_ERROR: 你好世界]")
  /\ Translator.translate_with_argos failing_backends (hybrid 0)
       (u "你好世界")
     = u "[ARGOS_ERROR: 你好世界]".
Proof.
  split; [left; reflexivity|]. split; [reflexivity|].
  split; [reflexivity|].
  pose proof (X17_failures_are_stored_as_placeholders failing_backends
                (hybrid 0) [u "你好世界"; u "系统设置"] (u "你好世界")
                (u "X")) as (_ & _ & Hargos & _ & Hgoogle).
  split.
  - exact (Hgoogle (or_introl eq_refl) eq_refl eq_refl).
  - exact (Hargos eq_refl eq_refl).
Defined.

(** ** Batches *)

Lemma firstn_plus (a b : nat) :
  forall l : list pystr,
    firstn (a + b) l = firstn a l ++ firstn b (skipn a l).
Proof.
  induction a as [|a IH]; intros l; [reflexivity|].
  destruct l as [|x l]; simpl.
  - rewrite firstn_nil. reflexivity.
  - rewrite IH. reflexivity.
Qed.

Lemma slices_concat (n : nat) (l : list pystr) :
  forall k a,
    List.concat (map (fun j => Translator.slice l (j * n) n) (seq a k))
    = firstn (k * n) (skipn (a * n) l).
Proof.
  induction k as [|k IH]; intros a; [reflexivity|].
  cbn [seq map List.concat]. rewrite IH. unfold Translator.slice.
  replace (S a * n) with (n + a * n) by lia.
  rewrite <- skipn_skipn.
  replace (S k * n) with (n + k * n) by lia.
  symmetry. apply firstn_plus.
Qed.

Lemma batches_cover (n len : nat) :
  0 < n -> len <= (len + n - 1) / n * n.
Proof.
  intros Hn. pose proof (Nat.div_mod_eq (len + n - 1) n) as H.
  pose proof (Nat.mod_upper_bound (len + n - 1) n ltac:(lia)). nia.
Qed.

Lemma batch_start_inside (n len j : nat) :
  0 < n -> j < (len + n - 1) / n -> j * n < len.
Proof.
  intros Hn Hj. pose proof (Nat.div_mod_eq (len + n - 1) n) as H.
  pose proof (Nat.mod_upper_bound (len + n - 1) n ltac:(lia)). nia.
Qed.

(** X18: the batch loop cuts the list it is given into consecutive
    slices of at most 128 strings, none of them empty, which put end to
    end give the list back: every string is sent in exactly one request
    position and no request is empty or oversized. *)
Theorem X18_batches_partition_the_list (chinese_strings : list pystr) :
  let batches :=
    map (fun i => Translator.slice chinese_strings i Translator.batch_size)
      (Translator.range0 (List.length chinese_strings)
         Translator.batch_size) in
  List.concat batches = chinese_strings
  /\ Forall (fun batch => 1 <= List.length batch <= 128) batches
  /\ List.length batches = (List.length chinese_strings + 127) / 128.
Proof.
  cbv zeta. unfold Translator.range0. rewrite map_map.
  set (l := chinese_strings). set (n := Translator.batch_size).
  assert (Hn : 0 < n) by (unfold n, Translator.batch_size; lia).
  split; [|split].
  - rewrite (slices_concat n l _ 0). simpl skipn.
    apply firstn_all2, batches_cover, Hn.
  - apply Forall_forall. intros b Hb. apply in_map_iff in Hb.
    destruct Hb as (j & <- & Hj). apply in_seq in Hj.
    pose proof (batch_start_inside n (List.length l) j Hn ltac:(lia)) as Hin.
    unfold Translator.slice. rewrite length_firstn, length_skipn.
    change 128 with n. lia.
  - rewrite length_map, length_seq. subst n. unfold Translator.batch_size.
    replace (List.length l + 128 - 1) with (List.length l + 127) by lia.
    reflexivity.
Qed.

(** ** What [translate_all] returns and requests *)

Lemma translate_all_cases (B : Translator.backends)
    (t : Translator.translator) (l : list pystr) :
  Translator.translate_all B t l = Translator.argos_each B t l ([], [])
  \/ Translator.translate_all B t l
     = (Translator.translate_batch_with_google_api B t l,
        [Translator.CallGoogleBatch l])
  \/ (Translator.google_translate_ready t = true
      /\ (0 < Translator.threshold t)%Z).
Proof.
  assert (Hd : Translator.google_translate_ready t = true
               \/ Translator.google_translate_ready t = false)
    by (destruct (Translator.google_translate_ready t); auto).
  destruct Hd as [Hr | Hr].
  - destruct (Z.compare_spec (Translator.threshold t) 0) as [H0 | Hlt | Hgt].
    + right; left. apply translate_all_remote_only; assumption.
    + left. apply translate_all_local_only.
      destruct (Z.eq_dec (Translator.threshold t) (-1));
        [left; assumption | right; right; lia].
    + right; right. split; [exact Hr | lia].
  - left. apply translate_all_local_only. right; left; exact Hr.
Qed.

Lemma dict_inv_weaken (P Q : pystr -> pystr -> Prop) (d : dict) :
  (forall k v, P k v -> Q k v) -> dict_inv P d -> dict_inv Q d.
Proof. intros H [Hn Hp]. split; [exact Hn | auto]. Qed.

Lemma argos_each_inv (P : pystr -> pystr -> Prop) (B : Translator.backends)
    (t : Translator.translator) (l : list pystr) :
  (forall k, In k l -> P k (Translator.translate_with_argos B t k)) ->
  forall start, dict_inv P (fst start) ->
                dict_inv P (fst (Translator.argos_each B t l start)).
Proof.
  unfold Translator.argos_each.
  induction l as [|x l IH]; intros Hf start Hd; simpl; [exact Hd|].
  apply IH.
  - intros k Hk. apply Hf. right; exact Hk.
  - simpl. apply dict_inv_set; [exact Hd | apply Hf; left; reflexivity].
Qed.

Lemma argos_each_get (B : Translator.backends) (t : Translator.translator)
    (l : list pystr) :
  forall start k,
    get (fst (Translator.argos_each B t l start)) k
    = if mem k l then Some (Translator.translate_with_argos B t k)
      else get (fst start) k.
Proof.
  unfold Translator.argos_each.
  induction l as [|x l IH]; intros start k; [reflexivity|].
  cbn [fold_left mem existsb]. fold (mem k l). rewrite IH. cbn [fst].
  rewrite get_set, (eqb_sym k x).
  destruct (mem k l); [rewrite orb_true_r; reflexivity|].
  rewrite orb_false_r. destruct (eqb x k) eqn:E; [|reflexivity].
  apply eqb_eq in E; subst x. reflexivity.
Qed.

Lemma translate_all_inv (B : Translator.backends)
    (t : Translator.translator) (l : list pystr) :
  dict_inv (fun k _ => In k l) (fst (Translator.translate_all B t l)).
Proof.
  destruct (translate_all_cases B t l) as [-> | [-> | [Hr Ht]]].
  - apply argos_each_inv; [auto | apply dict_inv_nil].
  - simpl. eapply dict_inv_weaken; [|apply google_inv].
    intros k v (H & _). exact H.
  - rewrite translate_all_hybrid by assumption. cbv zeta.
    assert (Hg : dict_inv (fun k _ => In k l)
              (fst (match Translator.long_strings t l with
                    | [] => ([], [])
                    | _ => (update []
                              (Translator.translate_batch_with_google_api
                                 B t (Translator.long_strings t l)),
                            [Translator.CallGoogleBatch
                               (Translator.long_strings t l)])
                    end : dict * list Translator.call))).
    { destruct (Translator.long_strings t l) as [|x lg] eqn:El;
        [apply dict_inv_nil|].
      simpl fst. apply dict_inv_update; [|apply dict_inv_nil].
      intros k v Hkv.
      destruct (google_inv B t (x :: lg)) as [_ Hp].
      destruct (Hp k v Hkv) as (Hin & _).
      rewrite <- El in Hin. apply filter_In in Hin. tauto. }
    destruct (Translator.short_strings t l) as [|x sh] eqn:Es; [exact Hg|].
    apply argos_each_inv; [|exact Hg].
    intros k Hk. rewrite <- Es in Hk. apply filter_In in Hk. tauto.
Qed.

Lemma calls_within_input (B : Translator.backends)
    (t : Translator.translator) (l : list pystr) (s : pystr) :
  sent_to_google (snd (Translator.translate_all B t l)) s
  || sent_to_argos (snd (Translator.translate_all B t l)) s = true ->
  In s l.
Proof.
  destruct (translate_all_cases B t l) as [-> | [-> | [Hr Ht]]].
  - rewrite argos_each_calls. simpl.
    rewrite sent_to_google_argos_calls, sent_to_argos_argos_calls.
    simpl. apply mem_In.
  - simpl. rewrite !orb_false_r. apply mem_In.
  - rewrite sent_to_google_hybrid, sent_to_argos_hybrid by assumption.
    unfold Translator.long_strings, Translator.short_strings.
    rewrite !mem_filter. intros H. apply mem_In.
    destruct (mem s l); [reflexivity | discriminate H].
Qed.

(** X19: whatever the threshold and the backends, the mapping
    [translate_all] returns binds each key once and only strings it was
    given, and both capabilities are only ever handed strings it was
    given; so its result can be merged into the store as it is. *)
Theorem X19_translate_all_stays_within_its_input
    (B : Translator.backends) (t : Translator.translator)
    (strings_list : list pystr) :
  unique_keys (fst (Translator.translate_all B t strings_list)) = true
  /\ incl (keys (fst (Translator.translate_all B t strings_list)))
       strings_list
  /\ forall s,
       sent_to_google (snd (Translator.translate_all B t strings_list)) s
       || sent_to_argos (snd (Translator.translate_all B t strings_list)) s
       = true ->
       In s strings_list.
Proof.
  destruct (translate_all_inv B t strings_list) as [Hn Hp].
  split; [apply unique_keys_NoDup, Hn|].
  split.
  - intros k Hk. apply in_map_iff in Hk.
    destruct Hk as ([k' v] & <- & Hin). exact (Hp k' v Hin).
  - intros s. apply calls_within_input.
Qed.

Lemma X19_translate_all_witness :
  sent_to_google
    (snd (Translator.translate_all example_backends (hybrid 5)
            [u "你好世界啊"; u "传感器"; u "你好"])) (u "你好世界啊")
  || sent_to_argos
       (snd (Translator.translate_all example_backends (hybrid 5)
               [u "你好世界啊"; u "传感器"; u "你好"])) (u "你好世界啊")
  = true
  /\ In (u "你好世界啊") [u "你好世界啊"; u "传感器"; u "你好"]
  /\ keys (fst (Translator.translate_all example_backends (hybrid 5)
                  [u "你好世界啊"; u "传感器"; u "你好"]))
     = [u "你好世界啊"; u "传感器"].
Proof.
  split; [reflexivity|]. split; [|reflexivity].
  exact (proj2 (proj2 (X19_translate_all_stays_within_its_input
                  example_backends (hybrid 5)
                  [u "你好世界啊"; u "传感器"; u "你好"]))
           (u "你好世界啊") eq_refl).
Defined.

(** X20: when the remote capability is not ready (or the threshold is
    -1 or below), every string goes to the local capability, one call
    per string in list order and no remote call, whatever the
    threshold; each string is bound to what [translate_with_argos]
    returns for it. *)
Theorem X20_local_fallback_translates_everything
    (B : Translator.backends) (t : Translator.translator)
    (strings_list : list pystr) (s : pystr) :
  (Translator.threshold t = -1)%Z
  \/ Translator.google_translate_ready t = false
  \/ (Translator.threshold t < -1)%Z ->
  snd (Translator.translate_all B t strings_list)
  = map Translator.CallArgos strings_list
  /\ sent_to_google (snd (Translator.translate_all B t strings_list)) s
     = false
  /\ (In s strings_list ->
      get (fst (Translator.translate_all B t strings_list)) s
      = Some (Translator.translate_with_argos B t s)).
Proof.
  intros H. rewrite translate_all_local_only by exact H.
  rewrite argos_each_calls. simpl.
  split; [reflexivity|].
  split; [apply sent_to_google_argos_calls|].
  intros Hin. rewrite argos_each_get. apply mem_In in Hin.
  rewrite Hin. reflexivity.
Qed.

Lemma X20_local_fallback_witness :
  ((Translator.threshold (local_only 5) = -1)%Z
   \/ Translator.google_translate_ready (local_only 5) = false
   \/ (Translator.threshold (local_only 5) < -1)%Z)
  /\ snd (Translator.translate_all example_backends (local_only 5)
            [u "你好世界啊"; u "你好"])
     = [Translator.CallArgos (u "你好世界啊"); Translator.CallArgos (u "你好")]
  /\ get (fst (Translator.translate_all example_backends (local_only 5)
                 [u "你好世界啊"; u "你好"])) (u "你好")
     = Some (u "hello").
Proof.
  split; [right; left; reflexivity|].
  pose proof (X20_local_fallback_translates_everything example_backends
                (local_only 5) [u "你好世界啊"; u "你好"] (u "你好")
                (or_intror (or_introl eq_refl))) as (Hcalls & _ & Hget).
  split; [exact Hcalls|].
  exact (Hget (or_intror (or_introl eq_refl))).
Defined.

(** ** Runs of the Translator *)

Lemma run_cases (B : Translator.backends) (t : Translator.translator)
    (w : Translator.json_writer) (sf : store_file)
    (chinese_strings : list pystr) :
  Translator.run B t w sf chinese_strings = (sf, [])
  \/ (let existing := Translator.load_existing_translations sf in
      let new_strings :=
        Translator.new_strings_to_translate existing chinese_strings in
      Translator.run B t w sf chinese_strings
      = (Translator.save_translations w
           (Translator.merge existing
              (fst (Translator.translate_all B t new_strings))) sf,
         snd (Translator.translate_all B t new_strings))).
Proof.
  unfold Translator.run.
  destruct (negb (Translator.GOOGLE_TRANSLATE_AVAILABLE t)
            && negb (Translator.ARGOS_AVAILABLE t)); [left; reflexivity|].
  destruct (negb (Translator.google_translate_ready t)
            && negb (Translator.argos_translator_ready t));
    [left; reflexivity|].
  destruct chinese_strings as [|c cs]; [left; reflexivity|].
  destruct (Translator.new_strings_to_translate
              (Translator.load_existing_translations sf) (c :: cs))
    as [|n ns] eqn:En; [left; reflexivity|].
  right. cbv zeta.
  destruct (Translator.translate_all B t (n :: ns)). reflexivity.
Qed.

Lemma get_update_other (other d : dict) (k : pystr) :
  ~ In k (keys other) -> get (update d other) k = get d k.
Proof.
  unfold update. revert d.
  induction other as [|[k0 v0] other IH]; intros d Hn; simpl; [reflexivity|].
  rewrite IH by (intros H; apply Hn; right; exact H).
  rewrite get_set.
  assert (E : eqb k0 k = false)
    by (apply eqb_neq; intros ->; apply Hn; left; reflexivity).
  rewrite E. reflexivity.
Qed.

Lemma new_strings_In (existing : dict) (scanned : list pystr) (k : pystr) :
  In k (Translator.new_strings_to_translate existing scanned)
  <-> In k scanned /\ ~ In k (keys existing).
Proof.
  rewrite <- mem_In, mem_new_strings, andb_true_iff, negb_true_iff.
  rewrite mem_In, mem_false. tauto.
Qed.

(** X21: a run of the Translator leaves the store file as it found it,
    or a store it saved completely, or, when [json.dump] raises after
    [open] has truncated the file, a cut-off file that no longer loads.
    In the first two cases whatever was bound in the store file it
    found is bound to the same value in the store file it leaves; in
    the third every entry is lost.  Every key of the store it leaves is
    an old key or a scanned string. *)
Theorem X21_run_keeps_every_stored_entry
    (B : Translator.backends) (t : Translator.translator)
    (w : Translator.json_writer) (sf : store_file)
    (chinese_strings : list pystr) (k v : pystr) :
  let sf' := fst (Translator.run B t w sf chinese_strings) in
  (sf' = sf
   \/ (exists saved, w saved = Translator.Completes /\ sf' = Stored saved)
   \/ (exists saved left_behind,
         w saved = Translator.DumpRaises left_behind
         /\ sf' = Corrupt left_behind
         /\ Translator.load_existing_translations sf' = []))
  /\ (sf' = sf \/ (exists saved, sf' = Stored saved) ->
      get (Translator.load_existing_translations sf) k = Some v ->
      get (Translator.load_existing_translations sf') k = Some v)
  /\ (In k (keys (Translator.load_existing_translations sf')) ->
      In k (keys (Translator.load_existing_translations sf))
      \/ In k chinese_strings).
Proof.
  cbv zeta.
  destruct (run_cases B t w sf chinese_strings) as [-> | H];
    [simpl; auto|].
  cbv zeta in H. rewrite H. cbn [fst]. clear H.
  set (existing := Translator.load_existing_translations sf) in *.
  set (new_strings :=
         Translator.new_strings_to_translate existing chinese_strings) in *.
  destruct (translate_all_inv B t new_strings) as [_ Hp].
  assert (Hkeys : forall x,
            In x (keys (fst (Translator.translate_all B t new_strings))) ->
            In x chinese_strings /\ ~ In x (keys existing)).
  { intros x Hx. apply in_map_iff in Hx.
    destruct Hx as ([x' v'] & <- & Hin).
    apply new_strings_In. exact (Hp x' v' Hin). }
  unfold Translator.save_translations.
  destruct (w (Translator.merge existing
                 (fst (Translator.translate_all B t new_strings))))
    as [| |left_behind] eqn:Hw.
  - cbn [Translator.load_existing_translations].
    split; [right; left; eexists; split; [exact Hw | reflexivity]|].
    split.
    + intros _ Hg. unfold Translator.merge, copy.
      rewrite get_update_other; [exact Hg|].
      intros Hin. apply Hkeys in Hin. destruct Hin as [_ Hno].
      apply Hno. apply get_not_None. fold existing. congruence.
    + unfold Translator.merge, copy. rewrite In_keys_update.
      intros [Hin | Hin]; [right; apply Hkeys, Hin | left; exact Hin].
  - fold existing. auto.
  - split; [right; right; do 2 eexists; split; [exact Hw | split; reflexivity]|].
    split.
    + intros [E | (saved & E)]; [rewrite E; auto | discriminate E].
    + simpl. intros [].
Qed.

Lemma X21_run_keeps_witness :
  get (Translator.load_existing_translations
         (Stored [(u "你好", u "hello")])) (u "你好") = Some (u "hello")
  /\ fst (Translator.run example_backends (hybrid 0) example_writer
            (Stored [(u "你好", u "hello")]) [u "你好"; u "系统设置"])
     = Stored [(u "你好", u "hello"); (u "系统设置", u "ok")]
  /\ get (Translator.load_existing_translations
            (fst (Translator.run example_backends (hybrid 0) example_writer
                    (Stored [(u "你好", u "hello")])
                    [u "你好"; u "系统设置"]))) (u "你好")
     = Some (u "hello")
  /\ fst (Translator.run example_backends (hybrid 0) example_writer
            (Stored [(u "你好", [0xD800%N])]) [u "你好"; u "系统设置"])
     = Corrupt [].
Proof.
  split; [reflexivity|]. split; [reflexivity|]. split; [|reflexivity].
  exact (proj1 (proj2 (X21_run_keeps_every_stored_entry example_backends
                  (hybrid 0) example_writer (Stored [(u "你好", u "hello")])
                  [u "你好"; u "系统设置"] (u "你好") (u "hello")))
           (or_intror (ex_intro _ _ eq_refl)) eq_refl).
Defined.

(** X22: a run never asks for a string that is already a key of the
    store, and only asks for scanned strings: no capability is handed a
    key of the loaded store or a string that was not scanned. *)
Theorem X22_stored_keys_are_not_requested_again
    (B : Translator.backends) (t : Translator.translator)
    (w : Translator.json_writer) (sf : store_file)
    (chinese_strings : list pystr) (s : pystr) :
  let calls := snd (Translator.run B t w sf chinese_strings) in
  sent_to_google calls s || sent_to_argos calls s = true ->
  In s chinese_strings
  /\ ~ In s (keys (Translator.load_existing_translations sf)).
Proof.
  cbv zeta.
  destruct (run_cases B t w sf chinese_strings) as [-> | H];
    [simpl; discriminate|].
  cbv zeta in H. rewrite H. cbn [snd].
  intros Hsent. apply calls_within_input in Hsent.
  apply new_strings_In, Hsent.
Qed.

Lemma X22_stored_keys_witness :
  sent_to_google
    (snd (Translator.run example_backends (hybrid 0) example_writer
            (Stored [(u "你好", u "hello")]) [u "你好"; u "系统设置"]))
    (u "系统设置")
  || sent_to_argos
       (snd (Translator.run example_backends (hybrid 0) example_writer
               (Stored [(u "你好", u "hello")]) [u "你好"; u "系统设置"]))
       (u "系统设置") = true
  /\ snd (Translator.run example_backends (hybrid 0) example_writer
            (Stored [(u "你好", u "hello")]) [u "你好"; u "系统设置"])
     = [Translator.CallGoogleBatch [u "系统设置"]]
  /\ ~ In (u "系统设置")
       (keys (Translator.load_existing_translations
                (Stored [(u "你好", u "hello")]))).
Proof.
  split; [reflexivity|]. split; [reflexivity|].
  exact (proj2 (X22_stored_keys_are_not_requested_again example_backends
                  (hybrid 0) example_writer (Stored [(u "你好", u "hello")])
                  [u "你好"; u "系统设置"] (u "系统设置") eq_refl)).
Defined.

Lemma filter_none (f : pystr -> bool) (l : list pystr) :
  (forall x, In x l -> f x = false) -> filter f l = [].
Proof.
  induction l as [|x l IH]; intros H; simpl; [reflexivity|].
  rewrite (H x (or_introl eq_refl)). apply IH.
  intros y Hy. apply H. right; exact Hy.
Qed.

(** X23: with everything going to the local capability (remote not
    ready, or threshold -1 or below), and provided the first run's
    [json.dump] of the merged store completes, a second run over the
    same scan makes no call and leaves the store file as the first run
    left it: every scanned string then has an entry, be it a
    placeholder. *)
Theorem X23_second_local_run_does_nothing
    (B : Translator.backends) (t : Translator.translator)
    (w : Translator.json_writer) (sf : store_file)
    (chinese_strings : list pystr) :
  (Translator.threshold t = -1)%Z
  \/ Translator.google_translate_ready t = false
  \/ (Translator.threshold t < -1)%Z ->
  w (Translator.merge (Translator.load_existing_translations sf)
       (fst (Translator.translate_all B t
               (Translator.new_strings_to_translate
                  (Translator.load_existing_translations sf)
                  chinese_strings))))
  = Translator.Completes ->
  let sf' := fst (Translator.run B t w sf chinese_strings) in
  Translator.run B t w sf' chinese_strings = (sf', []).
Proof.
  intros Hlocal Hw. cbv zeta.
  destruct (run_cases B t w sf chinese_strings) as [E | H];
    [rewrite E; simpl; exact E|].
  cbv zeta in H. rewrite H. cbn [fst].
  unfold Translator.save_translations. rewrite Hw. clear H Hw.
  set (existing := Translator.load_existing_translations sf) in *.
  set (new_strings :=
         Translator.new_strings_to_translate existing chinese_strings) in *.
  assert (Hnone : Translator.new_strings_to_translate
                    (Translator.merge existing
                       (fst (Translator.translate_all B t new_strings)))
                    chinese_strings = []).
  { unfold Translator.new_strings_to_translate at 1, set_diff.
    apply filter_none. intros x Hx. apply negb_false_iff, mem_In, In_to_set.
    unfold Translator.merge, copy. apply In_keys_update.
    destruct (in_dec (list_eq_dec N.eq_dec) x (keys existing)) as [Hk | Hk];
      [right; exact Hk | left].
    rewrite translate_all_local_only by exact Hlocal.
    apply argos_each_keys. left. apply new_strings_In. auto. }
  unfold Translator.run.
  destruct (negb (Translator.GOOGLE_TRANSLATE_AVAILABLE t)
            && negb (Translator.ARGOS_AVAILABLE t)); [reflexivity|].
  destruct (negb (Translator.google_translate_ready t)
            && negb (Translator.argos_translator_ready t)); [reflexivity|].
  destruct chinese_strings as [|c cs]; [reflexivity|].
  cbn [Translator.load_existing_translations]. rewrite Hnone. reflexivity.
Qed.

Lemma X23_second_local_run_witness :
  ((Translator.threshold (local_only 5) = -1)%Z
   \/ Translator.google_translate_ready (local_only 5) = false
   \/ (Translator.threshold (local_only 5) < -1)%Z)
  /\ fst (Translator.run failing_backends (local_only 5) example_writer
            Absent [u "你好"; u "系统设置"])
     = Stored [(u "你好", u "[ARGOS_ERROR: 你好]");
               (u "系统设置", u "[ARGOS_ERROR: 系统设置]")]
  /\ Translator.run failing_backends (local_only 5) example_writer
       (fst (Translator.run failing_backends (local_only 5) example_writer
               Absent [u "你好"; u "系统设置"])) [u "你好"; u "系统设置"]
     = (fst (Translator.run failing_backends (local_only 5) example_writer
               Absent [u "你好"; u "系统设置"]), []).
Proof.
  split; [right; left; reflexivity|]. split; [reflexivity|].
  exact (X23_second_local_run_does_nothing failing_backends (local_only 5)
           example_writer Absent [u "你好"; u "系统设置"]
           (or_intror (or_introl eq_refl)) eq_refl).
Defined.

(** ** translate_local.py *)

(** X24: a run of translate_local.py that gets to translate, and whose
    [json.dump] completes, writes a store whose keys are exactly the
    scanned strings, each bound once to what [translate_text] returns
    for it; the store file found beforehand plays no part, so entries
    of an earlier store that were not scanned again are gone.  When
    [json.dump] raises instead, a cut-off file is left whatever was
    there before. *)
Theorem X24_local_run_overwrites_the_store
    (argos : pystr -> option pystr) (w : Translator.json_writer)
    (sf sf0 : store_file) (chinese_strings : list pystr) (k : pystr) :
  chinese_strings <> [] ->
  let translations :=
    TranslatorLocal.translate_all argos true (to_set chinese_strings) in
  (w translations = Translator.Completes ->
   exists saved,
     local_run argos w true true sf chinese_strings = Stored saved
     /\ local_run argos w true true sf0 chinese_strings = Stored saved
     /\ unique_keys saved = true
     /\ (In k (keys saved) <-> In k chinese_strings)
     /\ (In k chinese_strings ->
         get saved k = Some (TranslatorLocal.translate_text argos true k)))
  /\ (forall left_behind,
        w translations = Translator.DumpRaises left_behind ->
        local_run argos w true true sf chinese_strings
        = Corrupt left_behind).
Proof.
  intros Hne. cbv zeta. unfold local_run. cbn [negb].
  destruct chinese_strings as [|c cs]; [congruence|].
  unfold Translator.save_translations.
  split.
  - intros Hw. rewrite Hw.
    eexists. split; [reflexivity|]. split; [reflexivity|].
    unfold TranslatorLocal.translate_all.
    split; [|split].
    + apply unique_keys_NoDup.
      apply (dict_inv_fold_set (fun _ _ => True)
               (TranslatorLocal.translate_text argos true));
        [auto | apply dict_inv_nil].
    + rewrite (In_keys_fold_set (TranslatorLocal.translate_text argos true)).
      rewrite In_to_set. simpl. tauto.
    + intros Hin.
      rewrite (get_fold_set (TranslatorLocal.translate_text argos true)).
      assert (Hm : mem k (to_set (c :: cs)) = true)
        by (apply mem_In, In_to_set, Hin).
      rewrite Hm. reflexivity.
  - intros left_behind Hw. rewrite Hw. reflexivity.
Qed.

Lemma X24_local_run_witness :
  [u "你好"] <> []
  /\ local_run (fun _ => Some (u " hello ")) example_writer true true
       (Stored [(u "系统", u "system")]) [u "你好"]
     = Stored [(u "你好", u "hello")]
  /\ exists saved,
       local_run (fun _ => Some (u " hello ")) example_writer true true
         (Stored [(u "系统", u "system")]) [u "你好"] = Stored saved
       /\ local_run (fun _ => Some (u " hello ")) example_writer true true
            Absent [u "你好"] = Stored saved
       /\ unique_keys saved = true
       /\ (In (u "系统") (keys saved) <-> In (u "系统") [u "你好"])
       /\ (In (u "系统") [u "你好"] ->
           get saved (u "系统")
           = Some (TranslatorLocal.translate_text
                     (fun _ => Some (u " hello ")) true (u "系统"))).
Proof.
  assert (Hne : [u "你好"] <> []) by discriminate.
  split; [exact Hne|]. split; [reflexivity|].
  exact (proj1 (X24_local_run_overwrites_the_store
                  (fun _ => Some (u " hello ")) example_writer
                  (Stored [(u "系统", u "system")]) Absent [u "你好"]
                  (u "系统") Hne) eq_refl).
Defined.
